(** * data-engine: a shallow embedding of the streaming pipeline

    The Go sources embedded here are the worker pool ([worker.Pool]), the
    file importers (CSV/TSV, JSONL, XLSX), the CSV and JSONL exporters, the
    import and export orchestrators, the two database connectors and the
    configuration validation.  Go's [int] is modelled by [Z], a Go string by
    [string] (a sequence of bytes), a slice by [list] and a
    [map[string]interface{}] by [gmap string Value]. *)

From stdpp Require Import gmap strings list fin_maps pretty relations.
From Stdlib Require Import ZArith Lia Ascii.

Local Open Scope string_scope.
Local Open Scope list_scope.
Local Open Scope Z_scope.

(** ** Values and rows *)

(** A Go [float64], kept as its IEEE-754 bit pattern. *)
Record float64 := Float64 { f64_bits : Z }.

(** What an [interface{}] cell of a row holds: [nil], a string, an integer
    of any width, a floating-point number, a boolean or a [[]byte]; a value of
    any other dynamic type is kept as [VOther] with its [%v] rendering. *)
Inductive Value :=
| VNull
| VString (s : string)
| VInt (n : Z)
| VFloat (f : float64)
| VBool (b : bool)
| VBytes (bs : string)
| VOther (shown : string).

Abbreviation Row := (list Value).

(** Go's [error]: [None] is [nil], [Some msg] an error whose [Error()] text
    is [msg]. *)
Abbreviation error := (option string).

Inductive Result (A : Type) :=
| Ok (a : A)
| Err (msg : string).
Arguments Ok {A} a.
Arguments Err {A} msg.

(** ** The worker pool (package worker) *)

Module Worker.

(** The fields of [Pool] that are plain data. *)
Record Pool := {
  workers : Z;
  batchSize : Z
}.

(** Go's [int] on the platforms the program is built for, all of 64 bits:
    what a product too large for it wraps around to. *)
Definition int_wrap (z : Z) : Z := (z + 2 ^ 63) mod 2 ^ 64 - 2 ^ 63.

(** [make(chan T, size)] for elements of [elem] bytes: the runtime panics
    ([makechan: size out of range]) when the size is negative or the buffer
    larger than it ever allocates, and the process dies when the memory
    for the buffer cannot be had.  [alloc n] tells whether this machine
    gives a buffer of [n] bytes. *)
Definition make_chan (alloc : Z → bool) (elem size : Z) : bool :=
  (0 <=? size) && alloc (size * elem).

(** [NewPool]: the three channels are made, of [workers*2] rows (a slice
    header of 24 bytes each), of [workers] batches (40 bytes each) and of
    one error (16 bytes); [None] when one of them cannot be made. *)
Definition NewPool (alloc : Z → bool) (workers batchSize : Z) : option Pool :=
  if make_chan alloc 24 (int_wrap (workers * 2)) && make_chan alloc 40 workers
     && make_chan alloc 16 1
  then Some {| workers := workers; batchSize := batchSize |}
  else None.

(** Capacity of [inputCh] and of [batchCh]. *)
Definition inputCap (p : Pool) : Z := workers p * 2.
Definition batchCap (p : Pool) : Z := workers p.

(** Where the accumulator goroutine stands: in the [select] of its loop,
    inside [flush] (called from the loop, or for the last time after the
    input channel was closed), or returned. *)
Inductive AccPC :=
| AccRecv
| AccFlush (final : bool)
| AccDone.

(** The state of one run in which [processBatch] never fails and the
    context is never cancelled.  [pending] are the rows the producer has
    still to [Submit]; [delivered] logs every batch a worker has received
    from [batchCh] and hands to [processBatch], with the id of the worker,
    in the order of the receives. *)
Record State := {
  pending : list Row;
  inputCh : list Row;
  inputClosed : bool;
  acc : AccPC;
  batch : list Row;
  batchCh : list (list Row);
  batchClosed : bool;
  running : list nat;
  delivered : list (nat * list Row)
}.

(** [Start]: the accumulator and workers [0 .. workers-1] are running.  (The
    accumulator first makes its batch with capacity [batchSize], which
    panics when that is negative; the runs described here are those of a
    pool whose [batchSize] is not negative.) *)
Definition init (p : Pool) (rows : list Row) : State :=
  {| pending := rows; inputCh := []; inputClosed := false;
     acc := AccRecv; batch := []; batchCh := []; batchClosed := false;
     running := seq 0 (Z.to_nat (workers p)); delivered := [] |}.

(** [batch = append(batch, row); if len(batch) >= p.batchSize { flush() }] *)
Definition after_append (p : Pool) (b : list Row) : AccPC :=
  if batchSize p <=? Z.of_nat (length b) then AccFlush false else AccRecv.

(** Where the accumulator continues once [flush] returns. *)
Definition after_flush (final : bool) : AccPC :=
  if final then AccDone else AccRecv.

Definition has_room {A} (ch : list A) (cap : Z) : Prop :=
  Z.of_nat (length ch) < cap.

Inductive step (p : Pool) : State → State → Prop :=
(* Submit: p.inputCh <- row, into the buffer *)
| step_submit r st :
    pending st = r :: tail (pending st) →
    inputClosed st = false →
    has_room (inputCh st) (inputCap p) →
    step p st {| pending := tail (pending st); inputCh := inputCh st ++ [r];
                 inputClosed := inputClosed st; acc := acc st;
                 batch := batch st; batchCh := batchCh st;
                 batchClosed := batchClosed st; running := running st;
                 delivered := delivered st |}
(* Submit handing the row to an accumulator already waiting in select *)
| step_submit_handoff r st :
    pending st = r :: tail (pending st) →
    inputClosed st = false →
    inputCh st = [] →
    acc st = AccRecv →
    step p st {| pending := tail (pending st); inputCh := [];
                 inputClosed := inputClosed st;
                 acc := after_append p (batch st ++ [r]);
                 batch := batch st ++ [r]; batchCh := batchCh st;
                 batchClosed := batchClosed st; running := running st;
                 delivered := delivered st |}
(* Close: close(p.inputCh), once every row was submitted *)
| step_close st :
    pending st = [] →
    inputClosed st = false →
    step p st {| pending := []; inputCh := inputCh st;
                 inputClosed := true; acc := acc st;
                 batch := batch st; batchCh := batchCh st;
                 batchClosed := batchClosed st; running := running st;
                 delivered := delivered st |}
(* accumulator: case row, ok := <-p.inputCh with ok *)
| step_acc_recv r q st :
    acc st = AccRecv →
    inputCh st = r :: q →
    step p st {| pending := pending st; inputCh := q;
                 inputClosed := inputClosed st;
                 acc := after_append p (batch st ++ [r]);
                 batch := batch st ++ [r]; batchCh := batchCh st;
                 batchClosed := batchClosed st; running := running st;
                 delivered := delivered st |}
(* accumulator: the input channel is closed and drained *)
| step_acc_closed st :
    acc st = AccRecv →
    inputCh st = [] →
    inputClosed st = true →
    step p st {| pending := pending st; inputCh := [];
                 inputClosed := true; acc := AccFlush true;
                 batch := batch st; batchCh := batchCh st;
                 batchClosed := batchClosed st; running := running st;
                 delivered := delivered st |}
(* flush with len(batch) == 0: nothing is sent *)
| step_flush_empty final st :
    acc st = AccFlush final →
    batch st = [] →
    step p st {| pending := pending st; inputCh := inputCh st;
                 inputClosed := inputClosed st; acc := after_flush final;
                 batch := []; batchCh := batchCh st;
                 batchClosed := final; running := running st;
                 delivered := delivered st |}
(* flush: p.batchCh <- Batch{Rows: batchCopy}, then batch = batch[:0] *)
| step_flush_send final st :
    acc st = AccFlush final →
    batch st ≠ [] →
    has_room (batchCh st) (batchCap p) →
    step p st {| pending := pending st; inputCh := inputCh st;
                 inputClosed := inputClosed st; acc := after_flush final;
                 batch := []; batchCh := batchCh st ++ [batch st];
                 batchClosed := final; running := running st;
                 delivered := delivered st |}
(* flush handing the batch to a worker already waiting in select *)
| step_flush_handoff final i st :
    acc st = AccFlush final →
    batch st ≠ [] →
    batchCh st = [] →
    i ∈ running st →
    step p st {| pending := pending st; inputCh := inputCh st;
                 inputClosed := inputClosed st; acc := after_flush final;
                 batch := []; batchCh := [];
                 batchClosed := final; running := running st;
                 delivered := delivered st ++ [(i, batch st)] |}
(* worker i: case batch, ok := <-p.batchCh with ok; processBatch returns nil *)
| step_worker_take i b q st :
    i ∈ running st →
    batchCh st = b :: q →
    step p st {| pending := pending st; inputCh := inputCh st;
                 inputClosed := inputClosed st; acc := acc st;
                 batch := batch st; batchCh := q;
                 batchClosed := batchClosed st; running := running st;
                 delivered := delivered st ++ [(i, b)] |}
(* worker i: the batch channel is closed and drained, the worker returns *)
| step_worker_exit i st :
    i ∈ running st →
    batchCh st = [] →
    batchClosed st = true →
    step p st {| pending := pending st; inputCh := inputCh st;
                 inputClosed := inputClosed st; acc := acc st;
                 batch := batch st; batchCh := [];
                 batchClosed := true;
                 running := filter (λ j, j ≠ i) (running st);
                 delivered := delivered st |}.

(** [Close] returns: the input is closed and [p.wg.Wait()] is over, that
    is the accumulator and every worker have returned. *)
Definition finished (st : State) : Prop :=
  pending st = [] ∧ inputClosed st = true ∧ acc st = AccDone ∧ running st = [].

(** The batches handed to [processBatch], in the order in which the
    workers received them from [batchCh]. *)
Definition batches (st : State) : list (list Row) := (delivered st).*2.

(** A complete run of the pool over [rows]. *)
Definition run (p : Pool) (rows : list Row) (st : State) : Prop :=
  rtc (step p) (init p rows) st ∧ finished st.

End Worker.

(** *** Invariant of the pool and shape of the delivered batches *)

Module WorkerInv.
Import Worker.

Definition full (p : Pool) (b : list Row) : Prop :=
  Z.of_nat (length b) = batchSize p.

Definition short (p : Pool) (b : list Row) : Prop :=
  Z.of_nat (length b) < batchSize p.

(** Every batch the accumulator has sent so far, oldest first. *)
Definition emitted (st : State) : list (list Row) :=
  batches st ++ batchCh st.

Definition acc_inv (p : Pool) (st : State) : Prop :=
  match acc st with
  | AccRecv =>
      Forall (full p) (emitted st) ∧ short p (batch st) ∧ batchClosed st = false
  | AccFlush false =>
      Forall (full p) (emitted st) ∧ full p (batch st) ∧ batchClosed st = false
  | AccFlush true =>
      Forall (full p) (emitted st) ∧ short p (batch st) ∧ batchClosed st = false ∧
      inputCh st = [] ∧ inputClosed st = true
  | AccDone =>
      batch st = [] ∧ inputCh st = [] ∧ inputClosed st = true ∧
      batchClosed st = true ∧
      ∃ fl tl, emitted st = fl ++ tl ∧ Forall (full p) fl ∧
               (tl = [] ∨ ∃ b, tl = [b] ∧ b ≠ [] ∧ short p b)
  end.

Definition inv (p : Pool) (rows : list Row) (st : State) : Prop :=
  concat (emitted st) ++ batch st ++ inputCh st ++ pending st = rows ∧
  (inputClosed st = true → pending st = []) ∧
  acc_inv p st ∧
  (batchClosed st = false → running st = seq 0 (Z.to_nat (workers p))) ∧
  (batchCh st ≠ [] → running st ≠ []).

Definition partitions (B : nat) (rows : list Row) (bs : list (list Row)) : Prop :=
  concat bs = rows ∧
  sum_list (length <$> bs) = length rows ∧
  (∀ i b, bs !! i = Some b → (S i < length bs)%nat → length b = B) ∧
  (∀ b, b ∈ bs → (1 ≤ length b ≤ B)%nat) ∧
  ((length rows mod B ≠ 0)%nat →
     ∃ b, last bs = Some b ∧ length b = (length rows mod B)%nat) ∧
  ((length rows mod B = 0)%nat → Forall (λ b, length b = B) bs).
End WorkerInv.

(** ** Files, as the pipeline sees them *)

Abbreviation bytes := (list ascii).

(** What a path names: nothing, something [os.Open] and [os.Stat] fail on
    for another reason, a directory, or a regular file with its content. *)
Inductive FileState :=
| Missing
| Denied (msg : string)
| Directory
| Regular (content : bytes).

Abbreviation FS := (string → FileState).

(** ** Configuration (package main, config.go) *)

Module Config.

Record Config := {
  Mode : string;
  DSN : string;
  BatchSize : Z;
  Workers : Z;
  ProgressEvery : Z;
  InputFile : string;
  InputFormat : string;
  Table : string;
  OutputFile : string;
  OutputFormat : string;
  Query : string
}.

Definition set_BatchSize (v : Z) (c : Config) : Config :=
  {| Mode := Mode c; DSN := DSN c; BatchSize := v; Workers := Workers c;
     ProgressEvery := ProgressEvery c; InputFile := InputFile c;
     InputFormat := InputFormat c; Table := Table c;
     OutputFile := OutputFile c; OutputFormat := OutputFormat c;
     Query := Query c |}.

Definition set_ProgressEvery (v : Z) (c : Config) : Config :=
  {| Mode := Mode c; DSN := DSN c; BatchSize := BatchSize c;
     Workers := Workers c; ProgressEvery := v; InputFile := InputFile c;
     InputFormat := InputFormat c; Table := Table c;
     OutputFile := OutputFile c; OutputFormat := OutputFormat c;
     Query := Query c |}.

Definition set_Workers (v : Z) (c : Config) : Config :=
  {| Mode := Mode c; DSN := DSN c; BatchSize := BatchSize c;
     Workers := v; ProgressEvery := ProgressEvery c;
     InputFile := InputFile c; InputFormat := InputFormat c;
     Table := Table c; OutputFile := OutputFile c;
     OutputFormat := OutputFormat c; Query := Query c |}.

Definition set_InputFormat (v : string) (c : Config) : Config :=
  {| Mode := Mode c; DSN := DSN c; BatchSize := BatchSize c;
     Workers := Workers c; ProgressEvery := ProgressEvery c;
     InputFile := InputFile c; InputFormat := v; Table := Table c;
     OutputFile := OutputFile c; OutputFormat := OutputFormat c;
     Query := Query c |}.

(** [contains]: linear search of a string slice. *)
Fixpoint contains (slice : list string) (value : string) : bool :=
  match slice with
  | [] => false
  | item :: rest => if String.eqb item value then true else contains rest value
  end.

(** [validateImport]; [os.IsNotExist] holds of the [os.Stat] error of a
    missing file only. *)
Definition validateImport (fs : FS) (c : Config) : error * Config :=
  if String.eqb (InputFile c) "" then
    (Some "input_file is required for import mode", c)
  else if (match fs (InputFile c) with Missing => true | _ => false end) then
    (Some ("input file does not exist: " +:+ InputFile c), c)
  else if String.eqb (Table c) "" then
    (Some "table is required for import mode", c)
  else
    let c := if String.eqb (InputFormat c) "" then set_InputFormat "auto" c else c in
    let validFormats := ["auto"; "csv"; "tsv"; "jsonl"; "xlsx"] in
    if negb (contains validFormats (InputFormat c)) then
      (Some ("invalid input_format: " +:+ InputFormat c +:+ " (must be one of: "
             +:+ String.concat ", " validFormats +:+ ")"), c)
    else (None, c).

(** [validateExport] *)
Definition validateExport (c : Config) : error * Config :=
  if String.eqb (OutputFile c) "" then
    (Some "output_file is required for export mode", c)
  else if String.eqb (Query c) "" then
    (Some "query is required for export mode", c)
  else if String.eqb (OutputFormat c) "" then
    (Some "output_format is required for export mode", c)
  else
    let validFormats := ["csv"; "tsv"; "jsonl"; "parquet"] in
    if negb (contains validFormats (OutputFormat c)) then
      (Some ("invalid output_format: " +:+ OutputFormat c +:+ " (must be one of: "
             +:+ String.concat ", " validFormats +:+ ")"), c)
    else (None, c).

(** [Validate]: the receiver is a pointer, so the configuration as the
    method leaves it is returned next to the error. *)
Definition Validate (fs : FS) (c : Config) : error * Config :=
  if negb (String.eqb (Mode c) "import") && negb (String.eqb (Mode c) "export") then
    (Some ("mode must be 'import' or 'export', got: " +:+ Mode c), c)
  else if String.eqb (DSN c) "" then
    (Some "dsn is required", c)
  else
    let c := if BatchSize c <=? 0 then set_BatchSize 5000 c else c in
    if 50000 <? BatchSize c then
      (Some ("batch_size too large (max 50000): " +:+ pretty (BatchSize c)), c)
    else if Workers c <? 0 then
      (Some ("workers cannot be negative: " +:+ pretty (Workers c)), c)
    else
      let c := if ProgressEvery c <=? 0 then set_ProgressEvery 100000 c else c in
      if String.eqb (Mode c) "import" then validateImport fs c
      else validateExport c.

(** [filepath.Ext]: walk back from the end of the path up to a path
    separator; the extension starts at the first dot met.  [suffix] is
    [path[i+1:]], [rpath] is [path[:i+1]] reversed. *)
Fixpoint Ext_scan (rpath : bytes) (suffix : bytes) : bytes :=
  match rpath with
  | [] => []
  | c :: rest =>
      if bool_decide (c = "/"%char) then []
      else if bool_decide (c = "."%char) then c :: suffix
      else Ext_scan rest (c :: suffix)
  end.

Definition Ext (path : string) : string :=
  String.string_of_list_ascii
    (Ext_scan (rev (String.list_ascii_of_string path)) []).

(** [strings.ToLower], byte by byte: the letters A-Z are lowered and every
    other byte is kept.  Go lowers rune by rune; the result is compared
    below with literals made of the ASCII letters c d j l n o s t v x and
    the dot only, which no rune outside ASCII lowers to, so that the
    comparisons come out the same. *)
Definition lower_byte (c : ascii) : ascii :=
  let n := N_of_ascii c in
  if ((65 <=? n) && (n <=? 90))%N then ascii_of_N (n + 32) else c.

Fixpoint ToLower (s : string) : string :=
  match s with
  | EmptyString => EmptyString
  | String c rest => String (lower_byte c) (ToLower rest)
  end.

(** [file.Read(header)] on a fresh 512-byte buffer: the zero-filled buffer
    after the call, the count [n] and whether an error came back.  At the
    end of a file [Read] returns [0, io.EOF]; on a directory it fails. *)
Definition read_header (f : FileState) : option (bytes * Z * bool) :=
  match f with
  | Missing | Denied _ => None
  | Directory => Some (replicate 512 zero, 0, true)
  | Regular content =>
      let got := take 512 content in
      Some (got ++ replicate (512 - length got) zero,
            Z.of_nat (length got),
            bool_decide (got = []))
  end.

(** [header[i]] *)
Definition at_ (header : bytes) (i : nat) : N :=
  N_of_ascii (nth i header zero).

Definition open_error (path : string) (f : FileState) : string :=
  match f with
  | Denied msg => "open " +:+ path +:+ ": " +:+ msg
  | _ => "open " +:+ path +:+ ": no such file or directory"
  end.

Definition xls_ext_error : string :=
  "XLS format is not supported (legacy Excel format). Please convert to XLSX or CSV".
Definition json_ext_error : string :=
  "JSON arrays are not supported. Use JSONL (newline-delimited JSON) instead".
Definition unreadable_error : string := "cannot read file to detect format".
Definition xls_magic_error : string :=
  "XLS format detected (legacy Excel format). Please convert to XLSX or CSV".

(** [detectFormat] *)
Definition detectFormat (fs : FS) (filePath : string) : Result string :=
  let ext := ToLower (Ext filePath) in
  if String.eqb ext ".csv" then Ok "csv"
  else if String.eqb ext ".tsv" then Ok "tsv"
  else if String.eqb ext ".jsonl" || String.eqb ext ".ndjson" then Ok "jsonl"
  else if String.eqb ext ".xlsx" then Ok "xlsx"
  else if String.eqb ext ".xls" then Err xls_ext_error
  else if String.eqb ext ".json" then Err json_ext_error
  else
    match read_header (fs filePath) with
    | None => Err (open_error filePath (fs filePath))
    | Some (header, n, err) =>
        if err && (n =? 0) then Err unreadable_error
        else if (4 <=? n) && (at_ header 0 =? 0x50)%N && (at_ header 1 =? 0x4B)%N
                && (at_ header 2 =? 0x03)%N && (at_ header 3 =? 0x04)%N
        then Ok "xlsx"
        else if (8 <=? n) && (at_ header 0 =? 0xD0)%N && (at_ header 1 =? 0xCF)%N
                && (at_ header 2 =? 0x11)%N && (at_ header 3 =? 0xE0)%N
        then Err xls_magic_error
        else Ok "csv"
    end.

(** [Normalize]; [numCPU] is [runtime.NumCPU()]. *)
Definition Normalize (numCPU : Z) (fs : FS) (c : Config) : error * Config :=
  let c := if Workers c =? 0 then set_Workers numCPU c else c in
  if String.eqb (Mode c) "import" && String.eqb (InputFormat c) "auto" then
    match detectFormat fs (InputFile c) with
    | Err msg => (Some ("failed to detect input format: " +:+ msg), c)
    | Ok detected => (None, set_InputFormat detected c)
    end
  else (None, c).

(** The ZIP local-file-header signature [PK\003\004] and the 8-byte
    signature of an OLE2 compound file. *)
Definition zip_signature : bytes :=
  ascii_of_N <$> [0x50; 0x4B; 0x03; 0x04]%N.
Definition ole2_signature : bytes :=
  ascii_of_N <$> [0xD0; 0xCF; 0x11; 0xE0; 0xA1; 0xB1; 0x1A; 0xE1]%N.

(** The first four bytes [detectFormat] compares with the OLE2
    signature. *)
Definition ole2_prefix : bytes :=
  ascii_of_N <$> [0xD0; 0xCF; 0x11; 0xE0]%N.

(** The extensions the [switch] of [detectFormat] decides on. *)
Definition known_exts : list string :=
  [".csv"; ".tsv"; ".jsonl"; ".ndjson"; ".xlsx"; ".xls"; ".json"].

End Config.

(** *** Helpers and sample inputs for the configuration proofs *)

Module ConfigAux.
Import Config.

(** The shape of both magic-byte tests of [detectFormat]: at least [m]
    bytes were read and the first four are [b0 b1 b2 b3]. *)
Definition test4 (header : bytes) (n : Z) (m : Z) (b0 b1 b2 b3 : N) : bool :=
  (m <=? n) && (at_ header 0 =? b0)%N && (at_ header 1 =? b1)%N
  && (at_ header 2 =? b2)%N && (at_ header 3 =? b3)%N.

(** A small file system. *)
Definition fs0 : FS := λ path,
  if String.eqb path "empty.dat" then Regular []
  else if String.eqb path "book" then Regular (zip_signature ++ [zero; zero])
  else if String.eqb path "legacy" then Regular (ole2_signature ++ [zero])
  else if String.eqb path "odd" then Regular (ole2_prefix ++ [zero])
  else if String.eqb path "plain" then Regular (String.list_ascii_of_string "id,name")
  else Missing.

(** An export configuration with batch size [b]. *)
Definition cfg_export (b : Z) : Config :=
  {| Mode := "export"; DSN := "postgres://app@db/prod"; BatchSize := b;
     Workers := 0; ProgressEvery := 0; InputFile := ""; InputFormat := "";
     Table := ""; OutputFile := "out.csv"; OutputFormat := "csv";
     Query := "SELECT id FROM t" |}.

End ConfigAux.

(** ** Go's encoding/csv, as the importer and the exporter use it

    [csv.Writer] and [csv.Reader] belong to Go's standard library, not to
    this repository.  They are modelled here after the library's source,
    with the settings the repository chooses: [UseCRLF] off on the writer;
    [LazyQuotes] and [TrimLeadingSpace] on, no [Comment] rune and
    [FieldsPerRecord] zero at the start on the reader.  [Comma] is a rune in
    Go; the repository passes [','] or a tab only, so that a byte models
    it. *)

Module GoCSV.

Definition NL : ascii := "010"%char.
Definition CR : ascii := "013"%char.
Definition DQUOTE : ascii := "034"%char.
Definition BACKSLASH : ascii := "092"%char.

(** [unicode.IsSpace] on a rune of one, two or three bytes of UTF-8.  The
    white space of Unicode is tab, LF, VT, FF, CR, space, U+0085, U+00A0,
    U+1680, U+2000..U+200A, U+2028, U+2029, U+202F, U+205F and U+3000. *)
Definition is_space1 (n0 : N) : bool :=
  ((9 <=? n0) && (n0 <=? 13) || (n0 =? 32))%N.

Definition is_space2 (n0 n1 : N) : bool :=
  ((n0 =? 0xC2) && ((n1 =? 0x85) || (n1 =? 0xA0)))%N.

Definition is_space3 (n0 n1 n2 : N) : bool :=
  ((n0 =? 0xE1) && (n1 =? 0x9A) && (n2 =? 0x80)
   || (n0 =? 0xE2) && (n1 =? 0x80)
      && ((0x80 <=? n2) && (n2 <=? 0x8A) || (n2 =? 0xA8) || (n2 =? 0xA9)
          || (n2 =? 0xAF))
   || (n0 =? 0xE2) && (n1 =? 0x81) && (n2 =? 0x9F)
   || (n0 =? 0xE3) && (n1 =? 0x80) && (n2 =? 0x80))%N.

(** Width in bytes of the first rune of [b] when [unicode.IsSpace] holds
    of it, and 0 otherwise. *)
Definition space_width (b : bytes) : nat :=
  match N_of_ascii <$> b with
  | n0 :: t =>
      if is_space1 n0 then 1
      else match t with
           | n1 :: t' =>
               if is_space2 n0 n1 then 2
               else match t' with
                    | n2 :: _ => if is_space3 n0 n1 n2 then 3 else 0
                    | [] => 0
                    end
           | [] => 0
           end
  | [] => 0
  end%nat.

(** [validDelim], for a delimiter below [utf8.RuneSelf]. *)
Definition validDelim (c : ascii) : bool :=
  negb (bool_decide (c = zero)) && negb (bool_decide (c = DQUOTE))
  && negb (bool_decide (c = CR)) && negb (bool_decide (c = NL))
  && (N_of_ascii c <? 128)%N.

Definition errInvalidDelim : string := "csv: invalid field or comment delimiter".

(** *** Writer *)

(** [Writer.fieldNeedsQuotes] *)
Definition fieldNeedsQuotes (comma : ascii) (field : bytes) : bool :=
  match field with
  | [] => false
  | _ =>
      if bool_decide (field = [BACKSLASH; "."%char]) then true
      else if existsb (λ c, bool_decide (c = NL) || bool_decide (c = CR)
                            || bool_decide (c = DQUOTE)
                            || bool_decide (c = comma)) field then true
      else negb (space_width field =? 0)%nat
  end.

(** The body of a quoted field: a quote is doubled; with [UseCRLF] off a
    carriage return and a line feed are copied as they are. *)
Fixpoint escape (field : bytes) : bytes :=
  match field with
  | [] => []
  | c :: rest =>
      if bool_decide (c = DQUOTE) then DQUOTE :: DQUOTE :: escape rest
      else c :: escape rest
  end.

Definition writeField (comma : ascii) (field : bytes) : bytes :=
  if fieldNeedsQuotes comma field then DQUOTE :: escape field ++ [DQUOTE]
  else field.

(** The loop of [Writer.Write] over the fields; [n] is the index of the
    first field of [record]. *)
Fixpoint writeFields (comma : ascii) (n : nat) (record : list bytes) : bytes :=
  match record with
  | [] => []
  | field :: rest =>
      (if (0 <? n)%nat then [comma] else [])
      ++ writeField comma field ++ writeFields comma (S n) rest
  end.

(** [Writer.Write]: the bytes appended to the writer's buffer. *)
Definition Write (comma : ascii) (record : list bytes) : Result bytes :=
  if negb (validDelim comma) then Err errInvalidDelim
  else Ok (writeFields comma 0 record ++ [NL]).

(** *** Reader *)

(** What a read of the underlying file gives back beside data. *)
Inductive ReadErr :=
| NoErr
| EOF
| IOErr (msg : string).

(** The state of a [csv.Reader]: the input not yet consumed, the error the
    underlying reader answers with once the input is consumed ([None] for
    [io.EOF]), the line counter and [FieldsPerRecord]. *)
Record Reader := {
  src : bytes;
  src_err : error;
  numLine : Z;
  FieldsPerRecord : Z
}.

Definition NewReader (content : bytes) (fail : error) : Reader :=
  {| src := content; src_err := fail; numLine := 0; FieldsPerRecord := 0 |}.

(** [bufio.Reader.ReadSlice('\n')] over the remaining input: the bytes up
    to and with the first line feed, or else everything left together
    with the reader's error. *)
Fixpoint ReadSlice (input : bytes) : bytes * bytes * bool :=
  match input with
  | [] => ([], [], false)
  | c :: rest =>
      if bool_decide (c = NL) then ([c], rest, true)
      else let '(line, rest', found) := ReadSlice rest in (c :: line, rest', found)
  end.

Definition end_err (r : Reader) : ReadErr :=
  match src_err r with None => EOF | Some msg => IOErr msg end.

(** [line[:len(line)-1]] when [line] ends in [c], [line] otherwise *)
Definition drop_last_if (c : ascii) (line : bytes) : bytes :=
  match last line with
  | Some c' => if bool_decide (c' = c) then take (length line - 1) line else line
  | None => line
  end.

(** [\r\n] at the end of a line becomes [\n]. *)
Definition normalize_crlf (line : bytes) : bytes :=
  let n := length line in
  if (2 <=? n)%nat && bool_decide (drop (n - 2) line = [CR; NL])
  then take (n - 2) line ++ [NL] else line.

(** [Reader.readLine] *)
Definition readLine (r : Reader) : bytes * ReadErr * Reader :=
  let '(line, rest, found) := ReadSlice (src r) in
  let err := if found then NoErr else end_err r in
  let '(line, err) :=
    match line, err with
    | _ :: _, EOF => (drop_last_if CR line, NoErr)
    | _, _ => (line, err)
    end in
  (normalize_crlf line, err,
   {| src := rest; src_err := src_err r; numLine := numLine r + 1;
      FieldsPerRecord := FieldsPerRecord r |}).

(** [lengthNL] *)
Definition lengthNL (b : bytes) : nat :=
  match last b with
  | Some c => if bool_decide (c = NL) then 1 else 0
  | None => 0
  end%nat.

(** The first loop of [readRecord]: read a line, skipping the empty
    ones. *)
Fixpoint skipEmpty (fuel : nat) (r : Reader) : bytes * ReadErr * Reader :=
  let '(line, errRead, r') := readLine r in
  match fuel with
  | O => (line, errRead, r')
  | S fuel' =>
      match errRead with
      | NoErr =>
          if (length line =? lengthNL line)%nat then skipEmpty fuel' r'
          else (line, errRead, r')
      | _ => (line, errRead, r')
      end
  end.

(** [bytes.IndexFunc(line, !unicode.IsSpace)] followed by [line[i:]] *)
Fixpoint trimLeadingSpace (fuel : nat) (line : bytes) : bytes :=
  match fuel with
  | O => line
  | S fuel' =>
      match space_width line with
      | O => line
      | w => trimLeadingSpace fuel' (drop w line)
      end
  end.

(** [bytes.IndexByte(line, c)] with both parts of the line: before the
    first [c] and after it. *)
Fixpoint splitAt (c : ascii) (line : bytes) : option (bytes * bytes) :=
  match line with
  | [] => None
  | x :: rest =>
      if bool_decide (x = c) then Some ([], rest)
      else match splitAt c rest with
           | Some (before, after) => Some (x :: before, after)
           | None => None
           end
  end.

(** Where the field loop of [readRecord] stands: at the start of a field
    ([parseField:]), or inside a quoted field whose bytes so far are
    [acc]. *)
Inductive Mode :=
| AtField
| InQuote (acc : bytes).

(** The field loop of [readRecord], [LazyQuotes] and [TrimLeadingSpace]
    being set.  It returns the fields, [errRead] and the reader; [None]
    when [fuel] does not suffice. *)
Fixpoint parseFields (comma : ascii) (fuel : nat) (m : Mode) (line : bytes)
    (errRead : ReadErr) (r : Reader) (fields : list bytes)
    : option (list bytes * ReadErr * Reader) :=
  match fuel with
  | O => None
  | S fuel' =>
      match m with
      | AtField =>
          let line := trimLeadingSpace (length line) line in
          match line with
          | c :: line' =>
              if bool_decide (c = DQUOTE) then
                parseFields comma fuel' (InQuote []) line' errRead r fields
              else
                match splitAt comma line with
                | Some (field, after) =>
                    parseFields comma fuel' AtField after errRead r (fields ++ [field])
                | None =>
                    Some (fields ++ [take (length line - lengthNL line) line], errRead, r)
                end
          | [] => Some (fields ++ [[]], errRead, r)
          end
      | InQuote acc =>
          match splitAt DQUOTE line with
          | Some (before, after) =>
              let acc := acc ++ before in
              match after with
              | c :: after' =>
                  if bool_decide (c = DQUOTE) then
                    parseFields comma fuel' (InQuote (acc ++ [DQUOTE])) after' errRead r fields
                  else if bool_decide (c = comma) then
                    parseFields comma fuel' AtField after' errRead r (fields ++ [acc])
                  else if (lengthNL after =? length after)%nat then
                    Some (fields ++ [acc], errRead, r)
                  else
                    parseFields comma fuel' (InQuote (acc ++ [DQUOTE])) after errRead r fields
              | [] => Some (fields ++ [acc], errRead, r)
              end
          | None =>
              match line with
              | _ :: _ =>
                  match errRead with
                  | NoErr =>
                      let '(line', errRead', r') := readLine r in
                      let errRead' := match errRead' with EOF => NoErr | e => e end in
                      parseFields comma fuel' (InQuote (acc ++ line)) line' errRead' r' fields
                  | _ => Some (fields, errRead, r)
                  end
              | [] => Some (fields ++ [acc], errRead, r)
              end
          end
      end
  end.

(** The outcome of [Reader.Read]: a record and an error, either of which
    may be absent. *)
Inductive ReadResult :=
| ReadEOF
| ReadRecord (record : list bytes)
| ReadFail (record : list bytes) (msg : string).

Definition errFieldCount (line : Z) : string :=
  "record on line " +:+ pretty line +:+ ": wrong number of fields".

Definition set_FieldsPerRecord (n : Z) (r : Reader) : Reader :=
  {| src := src r; src_err := src_err r; numLine := numLine r;
     FieldsPerRecord := n |}.

(** [Reader.Read], that is [readRecord]. *)
Definition Read (comma : ascii) (r : Reader) : ReadResult * Reader :=
  if negb (validDelim comma) then (ReadFail [] errInvalidDelim, r)
  else
    let fuel := S (S (length (src r))) in
    let '(line, errRead, r1) := skipEmpty fuel r in
    match errRead with
    | EOF => (ReadEOF, r1)
    | _ =>
        let recLine := numLine r1 in
        match parseFields comma fuel AtField line errRead r1 [] with
        | None => (ReadFail [] "csv: out of fuel", r1)
        | Some (dst, errRead, r2) =>
            let n := Z.of_nat (length dst) in
            match errRead with
            | IOErr msg => (ReadFail dst msg,
                            if FieldsPerRecord r2 =? 0 then set_FieldsPerRecord n r2 else r2)
            | _ =>
                if 0 <? FieldsPerRecord r2 then
                  if negb (n =? FieldsPerRecord r2)
                  then (ReadFail dst (errFieldCount recLine), r2)
                  else (ReadRecord dst, r2)
                else if FieldsPerRecord r2 =? 0
                then (ReadRecord dst, set_FieldsPerRecord n r2)
                else (ReadRecord dst, r2)
            end
        end
    end.

End GoCSV.

(** *** Helpers for the proofs about encoding/csv *)

Module GoCSVAux.
Import GoCSV.

(** Whether a carriage return is followed at once by a line feed. *)
Fixpoint has_crlf (b : bytes) : bool :=
  match b with
  | [] => false
  | c :: t =>
      bool_decide (c = CR) && bool_decide (head t = Some NL) || has_crlf t
  end.

(** Whether the input holds nothing but empty lines: line feeds, each
    possibly after a carriage return, and possibly a last carriage return
    without a line feed. *)
Fixpoint only_blank_lines (b : bytes) : bool :=
  match b with
  | [] => true
  | c :: rest =>
      if bool_decide (c = NL) then only_blank_lines rest
      else if bool_decide (c = CR) then
        match rest with
        | [] => true
        | c' :: rest' => bool_decide (c' = NL) && only_blank_lines rest'
        end
      else false
  end.

(** What [Write] appends after a field that other fields [fs] follow. *)
Fixpoint wtail (comma : ascii) (fs : list bytes) : bytes :=
  match fs with
  | [] => [NL]
  | f :: fs' => comma :: writeField comma f ++ wtail comma fs'
  end.

(** The first line of a stream and what follows it. *)
Definition fline (s : bytes) : bytes := (ReadSlice s).1.1.
Definition frest (s : bytes) : bytes := (ReadSlice s).1.2.

(** A delimiter the reader's trimming of leading white space leaves
    alone. *)
Definition plain_delim (comma : ascii) : Prop :=
  validDelim comma = true ∧ is_space1 (N_of_ascii comma) = false.

(** From the start of the field [f], which the fields [fs] follow, the field
    loop reads [f :: fs] and stops at the end of the record, [beyond] being
    the input after it. *)
Definition reads_from (comma : ascii) (beyond : bytes) (f : bytes) (fs : list bytes)
    : Prop :=
  ∀ s r fields fuel,
    s = writeField comma f ++ wtail comma fs →
    has_crlf s = false →
    src r = frest s ++ beyond →
    (length s < fuel)%nat →
    ∃ r', parseFields comma fuel AtField (fline s) NoErr r fields
            = Some (fields ++ f :: fs, NoErr, r') ∧
          src r' = beyond ∧ FieldsPerRecord r' = FieldsPerRecord r ∧
          src_err r' = src_err r.
End GoCSVAux.

(** ** Database connectors (package db) *)

Module DB.

(** A statement handed to [ExecContext]: its text and its arguments. *)
Abbreviation Statement := (string * list Value)%type.

(** The database behind a [*sql.DB], as far as the program can tell:
    [executed] are the statements handed to it so far, oldest first,
    whether it accepted or refused them; [exec_result] tells which
    statements it refuses.  Nothing is said of what a refused statement
    has changed before it failed: the inserts run outside any
    transaction. *)
Record Database := {
  executed : list Statement;
  exec_result : Statement → error
}.

(** [db.ExecContext(ctx, query, args...)] *)
Definition ExecContext (db : Database) (query : string) (args : list Value)
    : error * Database :=
  (exec_result db (query, args),
   {| executed := executed db ++ [(query, args)]; exec_result := exec_result db |}).

(** The inner loop of [multiValueInsert]:
    [placeholders[j] = fmt.Sprintf("$%d", len(args)+j+1)] *)
Definition pg_placeholders (nargs : nat) (columns : list string) : list string :=
  imap (λ j _, "$" +:+ pretty (nargs + j + 1)%nat) columns.

(** The outer loop of [multiValueInsert] over the rows that are left;
    [args] are the arguments gathered so far. *)
Fixpoint pg_values (columns : list string) (rows : list Row) (args : list Value)
    : list string * list Value :=
  match rows with
  | [] => ([], args)
  | row :: rest =>
      let group := "(" +:+ String.concat ", " (pg_placeholders (length args) columns) +:+ ")" in
      let '(groups, args') := pg_values columns rest (args ++ row) in
      (group :: groups, args')
  end.

Definition insert_query (table : string) (columns groups : list string) : string :=
  "INSERT INTO " +:+ table +:+ " (" +:+ String.concat ", " columns
    +:+ ") VALUES " +:+ String.concat ", " groups.

(** [PostgresConnector.multiValueInsert] *)
Definition multiValueInsert (db : Database) (table : string)
    (columns : list string) (rows : list Row) : error * Database :=
  match rows with
  | [] => (None, db)
  | _ =>
      let '(groups, args) := pg_values columns rows [] in
      match ExecContext db (insert_query table columns groups) args with
      | (Some msg, db') => (Some ("batch insert failed: " +:+ msg), db')
      | (None, db') => (None, db')
      end
  end.

(** [PostgresConnector.BatchInsert] *)
Definition PostgresBatchInsert (db : Database) (table : string)
    (columns : list string) (rows : list Row) : error * Database :=
  match rows with
  | [] => (None, db)
  | _ => multiValueInsert db table columns rows
  end.

(** The loops of [MySQLConnector.BatchInsert]: one group of question
    marks for each row. *)
Fixpoint mysql_values (columns : list string) (rows : list Row) (args : list Value)
    : list string * list Value :=
  match rows with
  | [] => ([], args)
  | row :: rest =>
      let group := "(" +:+ String.concat ", " ((λ _, "?") <$> columns) +:+ ")" in
      let '(groups, args') := mysql_values columns rest (args ++ row) in
      (group :: groups, args')
  end.

(** [MySQLConnector.BatchInsert] *)
Definition MySQLBatchInsert (db : Database) (table : string)
    (columns : list string) (rows : list Row) : error * Database :=
  match rows with
  | [] => (None, db)
  | _ =>
      let '(groups, args) := mysql_values columns rows [] in
      match ExecContext db (insert_query table columns groups) args with
      | (Some msg, db') => (Some ("batch insert failed: " +:+ msg), db')
      | (None, db') => (None, db')
      end
  end.

(** The connector behind the [Connector] interface. *)
Inductive Dialect :=
| Postgres
| MySQL.

Definition BatchInsert (d : Dialect) : Database → string → list string →
    list Row → error * Database :=
  match d with
  | Postgres => PostgresBatchInsert
  | MySQL => MySQLBatchInsert
  end.

(** [strings.Contains] *)
Definition Contains (s sub : string) : bool :=
  match String.index 0 sub s with Some _ => true | None => false end.

(** [NewConnector]: the dialect is read off the DSN; [ping] is the
    outcome of opening and pinging the database. *)
Definition NewConnector (ping : Dialect → error) (dsn : string) : Result Dialect :=
  if String.prefix "postgres://" dsn || String.prefix "postgresql://" dsn then
    match ping Postgres with
    | Some msg => Err ("failed to ping postgres: " +:+ msg)
    | None => Ok Postgres
    end
  else if Contains dsn "@tcp(" || String.prefix "mysql://" dsn then
    match ping MySQL with
    | Some msg => Err ("failed to ping mysql: " +:+ msg)
    | None => Ok MySQL
    end
  else Err ("unsupported database type in DSN: " +:+ dsn).

End DB.

(** ** File importers (package importer) *)

Module Importer.

(** The [Importer] interface.  A value of [Cfg] is an importer as its
    constructor returns it; [Open] yields the columns and the importer in
    its open state [St], on which [NextRow] works. *)
Class Importer (Cfg St : Type) := {
  Open : Cfg → Result (list string * St);
  NextRow : St → Result Row * St
}.

Definition string_of_bytes (b : bytes) : string := String.string_of_list_ascii b.
Definition bytes_of_string (s : string) : bytes := String.list_ascii_of_string s.

(** *** CSV and TSV *)

Record CSVImporter := NewCSVImporter {
  csv_fs : FS;
  csv_filePath : string;
  csv_delimiter : ascii
}.

Record CSVOpen := {
  csv_comma : ascii;
  csv_reader : GoCSV.Reader;
  csv_columns : list string
}.

(** [os.Open] followed by [csv.NewReader]; reading a directory fails. *)
Definition csv_open_file (c : CSVImporter) : Result GoCSV.Reader :=
  match csv_fs c (csv_filePath c) with
  | Regular content => Ok (GoCSV.NewReader content None)
  | Directory =>
      Ok (GoCSV.NewReader [] (Some ("read " +:+ csv_filePath c +:+ ": is a directory")))
  | f => Err (Config.open_error (csv_filePath c) f)
  end.

(** [CSVImporter.Open] *)
Definition CSVOpenFile (c : CSVImporter) : Result (list string * CSVOpen) :=
  match csv_open_file c with
  | Err msg => Err ("failed to open file: " +:+ msg)
  | Ok reader =>
      match GoCSV.Read (csv_delimiter c) reader with
      | (GoCSV.ReadEOF, _) => Err "failed to read header: EOF"
      | (GoCSV.ReadFail _ msg, _) => Err ("failed to read header: " +:+ msg)
      | (GoCSV.ReadRecord header, reader') =>
          let columns := string_of_bytes <$> header in
          Ok (columns, {| csv_comma := csv_delimiter c; csv_reader := reader';
                          csv_columns := columns |})
      end
  end.

(** [CSVImporter.NextRow] *)
Definition CSVNextRow (c : CSVOpen) : Result Row * CSVOpen :=
  let '(res, reader') := GoCSV.Read (csv_comma c) (csv_reader c) in
  let c' := {| csv_comma := csv_comma c; csv_reader := reader';
               csv_columns := csv_columns c |} in
  match res with
  | GoCSV.ReadEOF => (Err "EOF", c')
  | GoCSV.ReadFail _ msg => (Err ("failed to read row: " +:+ msg), c')
  | GoCSV.ReadRecord record => (Ok ((λ val, VString (string_of_bytes val)) <$> record), c')
  end.

#[export] Instance csv_importer : Importer CSVImporter CSVOpen :=
  {| Open := CSVOpenFile; NextRow := CSVNextRow |}.

(** *** JSONL *)

(** What [json.Unmarshal] into a [map[string]interface{}] makes of a line:
    an error, nothing for the literal [null], or the members of an object
    in the order of the text. *)
Inductive Line :=
| BadJSON (msg : string)
| JNull
| JObject (members : list (string * Value)).

(** What a [bufio.Scanner] over the file yields: the lines, and the error
    it stops with ([None] at the end of the file). *)
Record Scanner := {
  tokens : list Line;
  scan_err : error
}.

Inductive JSONLFile :=
| JNoFile (msg : string)
| JFile (sc : Scanner).

(** The map the decoder builds from an object: a later member replaces an
    earlier one of the same key. *)
Definition decode_object (members : list (string * Value)) : gmap string Value :=
  foldl (λ m kv, <[kv.1 := kv.2]> m) ∅ members.

(** [json.Unmarshal(line, &obj)] on a nil [obj]; a Go map variable is
    [None] when nil. *)
Definition Unmarshal (l : Line) : Result (option (gmap string Value)) :=
  match l with
  | BadJSON msg => Err msg
  | JNull => Ok None
  | JObject members => Ok (Some (decode_object members))
  end.

(** The keys of a Go map, in a fixed order of reference. *)
Definition map_keys (m : gmap string Value) : list string := (map_to_list m).*1.

(** An order in which [for key := range m] may visit a map: Go leaves the
    order unspecified and makes it vary from one loop to the next; every
    key is visited once. *)
Definition range_order (visit : list string → list string) : Prop :=
  ∀ keys, visit keys ≡ₚ keys.

(** [obj[col]]: a nil map has no key. *)
Definition map_get (obj : option (gmap string Value)) (col : string) : option Value :=
  match obj with
  | Some m => m !! col
  | None => None
  end.

Record JSONLImporter := NewJSONLImporter {
  jsonl_file : string → JSONLFile;
  jsonl_visit : list string → list string;
  jsonl_filePath : string
}.

Record JSONLOpen := {
  jsonl_scanner : Scanner;
  jsonl_columns : list string;
  jsonl_firstRow : option (gmap string Value)
}.

(** [JSONLImporter.Open] *)
Definition JSONLOpenFile (j : JSONLImporter) : Result (list string * JSONLOpen) :=
  match jsonl_file j (jsonl_filePath j) with
  | JNoFile msg => Err ("failed to open file: " +:+ msg)
  | JFile sc =>
      match tokens sc with
      | [] => Err "empty file or read error"
      | first :: rest =>
          match Unmarshal first with
          | Err msg => Err ("invalid JSON on first line: " +:+ msg)
          | Ok firstObj =>
              let columns :=
                match firstObj with
                | Some m => jsonl_visit j (map_keys m)
                | None => []
                end in
              Ok (columns,
                  {| jsonl_scanner := {| tokens := rest; scan_err := scan_err sc |};
                     jsonl_columns := columns;
                     jsonl_firstRow := firstObj |})
          end
      end
  end.

(** The last loop of [JSONLImporter.NextRow], from index [i] on; [row] was
    made with [len(j.columns)] nil cells. *)
Fixpoint project (obj : option (gmap string Value)) (columns : list string)
    (i : nat) (row : Row) : Row :=
  match columns with
  | [] => row
  | col :: rest =>
      let row :=
        match map_get obj col with
        | Some val => <[i := val]> row
        | None => <[i := VNull]> row
        end in
      project obj rest (S i) row
  end.

Definition jsonl_row (columns : list string) (obj : option (gmap string Value)) : Row :=
  project obj columns 0 (replicate (length columns) VNull).

(** [JSONLImporter.NextRow] *)
Definition JSONLNextRow (j : JSONLOpen) : Result Row * JSONLOpen :=
  match jsonl_firstRow j with
  | Some m =>
      (Ok (jsonl_row (jsonl_columns j) (Some m)),
       {| jsonl_scanner := jsonl_scanner j; jsonl_columns := jsonl_columns j;
          jsonl_firstRow := None |})
  | None =>
      match tokens (jsonl_scanner j) with
      | [] =>
          match scan_err (jsonl_scanner j) with
          | Some msg => (Err ("scanner error: " +:+ msg), j)
          | None => (Err "EOF", j)
          end
      | l :: rest =>
          let j' := {| jsonl_scanner := {| tokens := rest;
                                           scan_err := scan_err (jsonl_scanner j) |};
                       jsonl_columns := jsonl_columns j;
                       jsonl_firstRow := None |} in
          match Unmarshal l with
          | Err msg => (Err ("invalid JSON: " +:+ msg), j')
          | Ok obj => (Ok (jsonl_row (jsonl_columns j) obj), j')
          end
      end
  end.

#[export] Instance jsonl_importer : Importer JSONLImporter JSONLOpen :=
  {| Open := JSONLOpenFile; NextRow := JSONLNextRow |}.

(** *** XLSX *)

(** [MaxXLSXSize] *)
Definition MaxXLSXSize : Z := 100 * 1024 * 1024.

(** An [excelize.Rows] iterator: what [Columns] returns for each row
    [Next] moves to, and the value of [Error] once [Next] is false. *)
Record Rows := {
  items : list (Result (list string));
  rows_err : error
}.

(** An open [excelize.File]. *)
Record Workbook := {
  GetSheetList : list string;
  GetRows : string → Result Rows
}.

(** What the path of an XLSX importer leads to: the outcome of [os.Stat]
    (the size in bytes) and of [excelize.OpenFile]. *)
Record XLSXFile := {
  xlsx_stat : Result Z;
  xlsx_open : Result Workbook
}.

(** The calls [XLSXImporter.Open] makes, in order. *)
Inductive Event :=
| EvStat
| EvOpenFile
| EvGetSheetList
| EvRows (sheet : string)
| EvNext
| EvColumns
| EvRowsClose
| EvFileClose.

Record XLSXImporter := NewXLSXImporter {
  xlsx_file : string → XLSXFile;
  xlsx_filePath : string
}.

Record XLSXOpen := {
  xlsx_rows : Rows;
  xlsx_columns : list string
}.

Definition too_large_error (size : Z) : string :=
  "XLSX file too large: " +:+ pretty size +:+ " bytes (max "
    +:+ pretty MaxXLSXSize +:+ " bytes). Please convert to CSV for large files".

(** [XLSXImporter.Open], with the calls it made. *)
Definition XLSXOpenTrace (x : XLSXImporter)
    : Result (list string * XLSXOpen) * list Event :=
  let f := xlsx_file x (xlsx_filePath x) in
  match xlsx_stat f with
  | Err msg => (Err ("failed to stat file: " +:+ msg), [EvStat])
  | Ok size =>
      if MaxXLSXSize <? size then (Err (too_large_error size), [EvStat])
      else
        match xlsx_open f with
        | Err msg => (Err ("failed to open XLSX file: " +:+ msg), [EvStat; EvOpenFile])
        | Ok file =>
            match GetSheetList file with
            | [] => (Err "no sheets found in XLSX file",
                     [EvStat; EvOpenFile; EvGetSheetList; EvFileClose])
            | sheetName :: _ =>
                let evs := [EvStat; EvOpenFile; EvGetSheetList; EvRows sheetName] in
                match GetRows file sheetName with
                | Err msg => (Err ("failed to create row iterator: " +:+ msg),
                              evs ++ [EvFileClose])
                | Ok rows =>
                    match items rows with
                    | [] => (Err "empty sheet",
                             evs ++ [EvNext; EvRowsClose; EvFileClose])
                    | Err msg :: _ =>
                        (Err ("failed to read header: " +:+ msg),
                         evs ++ [EvNext; EvColumns; EvRowsClose; EvFileClose])
                    | Ok header :: rest =>
                        (Ok (header, {| xlsx_rows := {| items := rest;
                                                        rows_err := rows_err rows |};
                                        xlsx_columns := header |}),
                         evs ++ [EvNext; EvColumns])
                    end
                end
            end
        end
  end.

Definition XLSXOpenFile (x : XLSXImporter) : Result (list string * XLSXOpen) :=
  (XLSXOpenTrace x).1.

(** The padding loop of [XLSXImporter.NextRow]: [i] runs over
    [0 .. len(x.columns) - 1]. *)
Definition pad_cell (cols : list string) (row : Row) (i : nat) : Row :=
  if (i <? length cols)%nat then <[i := VString (nth i cols "")]> row
  else <[i := VNull]> row.

Definition xlsx_row (columns cols : list string) : Row :=
  foldl (pad_cell cols) (replicate (length columns) VNull) (seq 0 (length columns)).

(** [XLSXImporter.NextRow] *)
Definition XLSXNextRow (x : XLSXOpen) : Result Row * XLSXOpen :=
  match items (xlsx_rows x) with
  | [] =>
      match rows_err (xlsx_rows x) with
      | Some msg => (Err ("row iteration error: " +:+ msg), x)
      | None => (Err "EOF", x)
      end
  | item :: rest =>
      let x' := {| xlsx_rows := {| items := rest; rows_err := rows_err (xlsx_rows x) |};
                   xlsx_columns := xlsx_columns x |} in
      match item with
      | Err msg => (Err ("failed to read row: " +:+ msg), x')
      | Ok cols => (Ok (xlsx_row (xlsx_columns x) cols), x')
      end
  end.

#[export] Instance xlsx_importer : Importer XLSXImporter XLSXOpen :=
  {| Open := XLSXOpenFile; NextRow := XLSXNextRow |}.

(** *** The import orchestrator *)

(** The file importers behind the interface value [importer]. *)
Inductive AnyImporter :=
| OfCSV (c : CSVImporter)
| OfJSONL (j : JSONLImporter)
| OfXLSX (x : XLSXImporter).

Inductive AnyOpen :=
| OpenCSV (c : CSVOpen)
| OpenJSONL (j : JSONLOpen)
| OpenXLSX (x : XLSXOpen).

Definition map_open {A B} (f : A → B) (r : Result (list string * A))
    : Result (list string * B) :=
  match r with
  | Ok (columns, a) => Ok (columns, f a)
  | Err msg => Err msg
  end.

Definition AnyOpenFile (i : AnyImporter) : Result (list string * AnyOpen) :=
  match i with
  | OfCSV c => map_open OpenCSV (Open c)
  | OfJSONL j => map_open OpenJSONL (Open j)
  | OfXLSX x => map_open OpenXLSX (Open x)
  end.

Definition AnyNextRow (i : AnyOpen) : Result Row * AnyOpen :=
  match i with
  | OpenCSV c => let '(r, c') := NextRow c in (r, OpenCSV c')
  | OpenJSONL j => let '(r, j') := NextRow j in (r, OpenJSONL j')
  | OpenXLSX x => let '(r, x') := NextRow x in (r, OpenXLSX x')
  end.

#[export] Instance any_importer : Importer AnyImporter AnyOpen :=
  {| Open := AnyOpenFile; NextRow := AnyNextRow |}.

(** [importer.Config] *)
Record Config := {
  DSN : string;
  InputFile : string;
  InputFormat : string;
  Table : string;
  BatchSize : Z;
  Workers : Z;
  ProgressEvery : Z
}.

(** What a run of [ImportData] finds around it: the files as each
    importer reads them, the order of map iteration, the reachability
    of the database and the channel buffers the machine has memory
    for. *)
Record World := {
  w_files : FS;
  w_jsonl : string → JSONLFile;
  w_visit : list string → list string;
  w_xlsx : string → XLSXFile;
  w_ping : DB.Dialect → error;
  w_alloc : Z → bool
}.

(** The [switch] on [config.InputFormat] *)
Definition select_importer (w : World) (config : Config) : Result AnyImporter :=
  if String.eqb (InputFormat config) "csv" then
    Ok (OfCSV (NewCSVImporter (w_files w) (InputFile config) ","))
  else if String.eqb (InputFormat config) "tsv" then
    Ok (OfCSV (NewCSVImporter (w_files w) (InputFile config) "009"))
  else if String.eqb (InputFormat config) "jsonl" then
    Ok (OfJSONL (NewJSONLImporter (w_jsonl w) (w_visit w) (InputFile config)))
  else if String.eqb (InputFormat config) "xlsx" then
    Ok (OfXLSX (NewXLSXImporter (w_xlsx w) (InputFile config)))
  else Err ("unsupported input format: " +:+ InputFormat config).

(** What the pool answers to the producer: the error of the [n]-th call of
    [Submit] (the context's error once it is cancelled) and the error
    [Close] surfaces (that of the first failing worker). *)
Record PoolBehaviour := {
  submit_err : nat → error;
  close_err : error
}.

(** The calls [ImportData] makes on the pool. *)
Inductive PoolCall :=
| CallSubmit (row : Row)
| CallCancel
| CallClose.

Inductive Outcome :=
| Returned (err : error)
| Panicked
| OutOfFuel.

(** The read-and-submit loop of [ImportData] with the [pool.Close()] that
    follows it; [n] rows were submitted before, [calls] logs the calls
    on the pool. *)
Fixpoint import_loop {Cfg St} `{Importer Cfg St} (pool : PoolBehaviour)
    (fuel : nat) (st : St) (n : nat) (calls : list PoolCall)
    : Outcome * list PoolCall * St :=
  match fuel with
  | O => (OutOfFuel, calls, st)
  | S fuel' =>
      match NextRow st with
      | (Err msg, st') =>
          if String.eqb msg "EOF" then
            match close_err pool with
            | Some e => (Returned (Some ("worker pool error: " +:+ e)),
                         calls ++ [CallClose], st')
            | None => (Returned None, calls ++ [CallClose], st')
            end
          else (Returned (Some ("failed to read row: " +:+ msg)),
                calls ++ [CallCancel], st')
      | (Ok row, st') =>
          match submit_err pool n with
          | Some e => (Returned (Some ("failed to submit row: " +:+ e)),
                       calls ++ [CallSubmit row], st')
          | None => import_loop pool fuel' st' (S n) (calls ++ [CallSubmit row])
          end
      end
  end.

(** [ImportData]; it panics when [NewPool] cannot make its channels.  The
    pool it starts is described by [pool]: that is a pool whose batch size
    is not negative, as [Validate] ensures, so that the accumulator can
    make its batch. *)
Definition ImportData (w : World) (pool : PoolBehaviour) (fuel : nat)
    (config : Config) : Outcome * list PoolCall :=
  match DB.NewConnector (w_ping w) (DSN config) with
  | Err msg => (Returned (Some ("failed to connect to database: " +:+ msg)), [])
  | Ok connector =>
      match select_importer w config with
      | Err msg => (Returned (Some msg), [])
      | Ok importer =>
          match Open importer with
          | Err msg => (Returned (Some ("failed to open input file: " +:+ msg)), [])
          | Ok (columns, st) =>
              match Worker.NewPool (w_alloc w) (Workers config) (BatchSize config) with
              | None => (Panicked, [])
              | Some _ => (import_loop pool fuel st 0 []).1
              end
          end
      end
  end.

(** [st] hands out [rows] and then stops with the error [msg]. *)
Inductive yields {Cfg St} `{Importer Cfg St} : St → list Row → string → St → Prop :=
| yields_stop st msg st' :
    NextRow st = (Err msg, st') → yields st [] msg st'
| yields_row st row st1 rows msg st' :
    NextRow st = (Ok row, st1) → yields st1 rows msg st' →
    yields st (row :: rows) msg st'.

End Importer.

(** *** Helpers and sample inputs for the importer proofs *)

Module ImporterAux.
Import Importer.

(** A JSONL source of two lines. *)
Definition ab_file : string → JSONLFile := λ _,
  JFile {| tokens := [JObject [("a", VInt 1); ("b", VInt 2)]; JObject [("b", VInt 3)]];
           scan_err := None |}.

(** The columns [Open] returned, if it did. *)
Definition opened_columns {St} (r : Result (list string * St)) : option (list string) :=
  match r with
  | Ok (columns, _) => Some columns
  | Err _ => None
  end.

(** A workbook of one sheet with a header and one row, and a file of [size]
    bytes holding it. *)
Definition book1 : Workbook :=
  {| GetSheetList := ["Sheet1"];
     GetRows := λ _, Ok {| items := [Ok ["id"; "name"]; Ok ["1"]]; rows_err := None |} |}.

Definition xlsx_of_size (size : Z) : XLSXImporter :=
  NewXLSXImporter (λ _, {| xlsx_stat := Ok size; xlsx_open := Ok book1 |}) "book.xlsx".

(** The cell the padding loop of the XLSX importer leaves at index [i]. *)
Definition xlsx_cell (cols : list string) (i : nat) : Value :=
  match cols !! i with
  | Some s => VString s
  | None => VNull
  end.

(** Importers about to read a row shorter than the header. *)
Definition short_row_jsonl : JSONLOpen :=
  {| jsonl_scanner := {| tokens := [JObject [("b", VInt 3)]]; scan_err := None |};
     jsonl_columns := ["b"; "a"]; jsonl_firstRow := None |}.

Definition short_row_xlsx : XLSXOpen :=
  {| xlsx_rows := {| items := [Ok ["1"]]; rows_err := None |};
     xlsx_columns := ["id"; "name"] |}.

(** A CSV importer that has read its header and stands before the last
    record of its file, which two empty lines follow. *)
Definition csv_last_record : CSVOpen :=
  {| csv_comma := ",";
     csv_reader :=
       {| GoCSV.src := String.list_ascii_of_string "1,ann"
                       ++ [GoCSV.NL; GoCSV.CR; GoCSV.NL; GoCSV.NL];
          GoCSV.src_err := None; GoCSV.numLine := 1; GoCSV.FieldsPerRecord := 2 |};
     csv_columns := ["id"; "name"] |}.

(** A pool that accepts every row and reports no error. *)
Definition quiet_pool : PoolBehaviour :=
  {| submit_err := λ _, None; close_err := None |}.
End ImporterAux.

(** ** File exporters (package exporter) *)

Module Exporter.

(** What ends up in an output file: bytes, or the records handed to the
    Parquet writer, whose encoding belongs to a library. *)
Inductive FileContent :=
| Bytes (b : bytes)
| ParquetRecords (records : list (gmap string Value)).

(** The disk under the output path: whether [os.Create] fails, and the
    error writes to the created file come back with. *)
Record Disk := {
  create_err : string → error;
  write_err : string → error
}.

Section formatting.
(** Two renderings that belong to Go's standard library: [%v] of a
    floating-point number, and [json.Marshal] of a map. *)
Context (fmt_float : float64 → string).
Context (json_marshal : gmap string Value → Result bytes).

(** The [Exporter] interface; [Close] gives the file as it is left. *)
Class Exporter (Cfg St : Type) := {
  Open : Disk → Cfg → Result St;
  WriteRow : St → Row → error * St;
  Flush : St → error * St;
  Close : St → FileContent
}.

(** [formatValue] *)
Definition formatValue (val : Value) : string :=
  match val with
  | VNull => ""
  | VString v => v
  | VBytes v => v
  | VInt v => pretty v
  | VFloat v => fmt_float v
  | VBool v => if v then "true" else "false"
  | VOther shown => shown
  end.

(** *** CSV and TSV *)

Record CSVExporter := NewCSVExporter {
  csv_filePath : string;
  csv_delimiter : ascii;
  csv_columns : list string
}.

(** An open CSV exporter: the delimiter, the bytes in the buffer of the
    [csv.Writer], the bytes in the file, and the error a write to the
    file meets.  The buffer is taken to hold whatever is written until
    [Flush] or [Close]: the file is looked at after these only, where an
    earlier flush of a full buffer makes no difference. *)
Record CSVOpen := {
  csv_comma : ascii;
  csv_buf : bytes;
  csv_file : bytes;
  csv_write_err : error
}.

Definition bytes_of_string (s : string) : bytes := String.list_ascii_of_string s.

(** [c.writer.Write(record)] *)
Definition csv_write (c : CSVOpen) (record : list string) : error * CSVOpen :=
  match GoCSV.Write (csv_comma c) (bytes_of_string <$> record) with
  | Err msg => (Some msg, c)
  | Ok line => (None, {| csv_comma := csv_comma c; csv_buf := csv_buf c ++ line;
                         csv_file := csv_file c;
                         csv_write_err := csv_write_err c |})
  end.

(** [CSVExporter.Open] *)
Definition CSVOpenFile (disk : Disk) (c : CSVExporter) : Result CSVOpen :=
  match create_err disk (csv_filePath c) with
  | Some msg => Err ("failed to create file: " +:+ msg)
  | None =>
      let w := {| csv_comma := csv_delimiter c; csv_buf := []; csv_file := [];
                  csv_write_err := write_err disk (csv_filePath c) |} in
      match csv_write w (csv_columns c) with
      | (Some msg, _) => Err ("failed to write header: " +:+ msg)
      | (None, w') => Ok w'
      end
  end.

(** [CSVExporter.WriteRow] *)
Definition CSVWriteRow (c : CSVOpen) (row : Row) : error * CSVOpen :=
  match csv_write c (formatValue <$> row) with
  | (Some msg, c') => (Some ("failed to write row: " +:+ msg), c')
  | (None, c') => (None, c')
  end.

(** [CSVExporter.Flush]: [c.writer.Flush()] then [c.writer.Error()] *)
Definition CSVFlush (c : CSVOpen) : error * CSVOpen :=
  match csv_write_err c with
  | Some msg => (Some msg, c)
  | None => (None, {| csv_comma := csv_comma c; csv_buf := [];
                      csv_file := csv_file c ++ csv_buf c;
                      csv_write_err := None |})
  end.

(** [CSVExporter.Close] *)
Definition CSVClose (c : CSVOpen) : FileContent :=
  Bytes (csv_file (CSVFlush c).2).

#[export] Instance csv_exporter : Exporter CSVExporter CSVOpen :=
  {| Open := CSVOpenFile; WriteRow := CSVWriteRow; Flush := CSVFlush;
     Close := CSVClose |}.

(** *** JSONL *)

Record JSONLExporter := NewJSONLExporter {
  jsonl_filePath : string;
  jsonl_columns : list string
}.

Record JSONLOpen := {
  jsonl_cols : list string;
  jsonl_buf : bytes;
  jsonl_out : bytes;
  jsonl_write_err : error
}.

(** [JSONLExporter.Open] *)
Definition JSONLOpenFile (disk : Disk) (j : JSONLExporter) : Result JSONLOpen :=
  match create_err disk (jsonl_filePath j) with
  | Some msg => Err ("failed to create file: " +:+ msg)
  | None => Ok {| jsonl_cols := jsonl_columns j; jsonl_buf := []; jsonl_out := [];
                  jsonl_write_err := write_err disk (jsonl_filePath j) |}
  end.

(** The loop that turns a row into a map keyed by column name; [i] is
    the index of the first of [columns]. *)
Fixpoint row_object (convert : Value → Value) (columns : list string) (i : nat)
    (row : Row) (obj : gmap string Value) : gmap string Value :=
  match columns with
  | [] => obj
  | col :: rest =>
      let cell := match row !! i with Some v => convert v | None => VNull end in
      row_object convert rest (S i) row (<[col := cell]> obj)
  end.

(** [JSONLExporter.WriteRow] *)
Definition JSONLWriteRow (j : JSONLOpen) (row : Row) : error * JSONLOpen :=
  match json_marshal (row_object id (jsonl_cols j) 0 row ∅) with
  | Err msg => (Some ("failed to marshal JSON: " +:+ msg), j)
  | Ok data =>
      (None, {| jsonl_cols := jsonl_cols j;
                jsonl_buf := jsonl_buf j ++ data ++ [GoCSV.NL];
                jsonl_out := jsonl_out j;
                jsonl_write_err := jsonl_write_err j |})
  end.

(** [JSONLExporter.Flush] *)
Definition JSONLFlush (j : JSONLOpen) : error * JSONLOpen :=
  match jsonl_write_err j with
  | Some msg => (Some msg, j)
  | None => (None, {| jsonl_cols := jsonl_cols j; jsonl_buf := [];
                      jsonl_out := jsonl_out j ++ jsonl_buf j;
                      jsonl_write_err := None |})
  end.

(** [JSONLExporter.Close] *)
Definition JSONLClose (j : JSONLOpen) : FileContent :=
  Bytes (jsonl_out (JSONLFlush j).2).

#[export] Instance jsonl_exporter : Exporter JSONLExporter JSONLOpen :=
  {| Open := JSONLOpenFile; WriteRow := JSONLWriteRow; Flush := JSONLFlush;
     Close := JSONLClose |}.

(** *** Parquet *)

Record ParquetExporter := NewParquetExporter {
  parquet_filePath : string;
  parquet_columns : list string
}.

Record ParquetOpen := {
  parquet_cols : list string;
  parquet_records : list (gmap string Value)
}.

(** [convertParquetValue] *)
Definition convertParquetValue (val : Value) : Value :=
  match val with
  | VBytes v => VString v
  | v => v
  end.

Definition ParquetOpenFile (disk : Disk) (p : ParquetExporter) : Result ParquetOpen :=
  match create_err disk (parquet_filePath p) with
  | Some msg => Err ("failed to create file: " +:+ msg)
  | None => Ok {| parquet_cols := parquet_columns p; parquet_records := [] |}
  end.

Definition ParquetWriteRow (p : ParquetOpen) (row : Row) : error * ParquetOpen :=
  (None, {| parquet_cols := parquet_cols p;
            parquet_records :=
              parquet_records p
              ++ [row_object convertParquetValue (parquet_cols p) 0 row ∅] |}).

#[export] Instance parquet_exporter : Exporter ParquetExporter ParquetOpen :=
  {| Open := ParquetOpenFile; WriteRow := ParquetWriteRow;
     Flush := λ p, (None, p);
     Close := λ p, ParquetRecords (parquet_records p) |}.

(** *** The export orchestrator *)

Inductive AnyExporter :=
| OfCSV (c : CSVExporter)
| OfJSONL (j : JSONLExporter)
| OfParquet (p : ParquetExporter).

Inductive AnyOpen :=
| OpenCSV (c : CSVOpen)
| OpenJSONL (j : JSONLOpen)
| OpenParquet (p : ParquetOpen).

Definition lift {A} (f : A → AnyOpen) (r : error * A) : error * AnyOpen :=
  (r.1, f r.2).

#[export] Instance any_exporter : Exporter AnyExporter AnyOpen :=
  {| Open := λ disk e,
       match e with
       | OfCSV c => match Open disk c with Ok s => Ok (OpenCSV s) | Err m => Err m end
       | OfJSONL j => match Open disk j with Ok s => Ok (OpenJSONL s) | Err m => Err m end
       | OfParquet p =>
           match Open disk p with Ok s => Ok (OpenParquet s) | Err m => Err m end
       end;
     WriteRow := λ s row,
       match s with
       | OpenCSV c => lift OpenCSV (WriteRow c row)
       | OpenJSONL j => lift OpenJSONL (WriteRow j row)
       | OpenParquet p => lift OpenParquet (WriteRow p row)
       end;
     Flush := λ s,
       match s with
       | OpenCSV c => lift OpenCSV (Flush c)
       | OpenJSONL j => lift OpenJSONL (Flush j)
       | OpenParquet p => lift OpenParquet (Flush p)
       end;
     Close := λ s,
       match s with
       | OpenCSV c => Close c
       | OpenJSONL j => Close j
       | OpenParquet p => Close p
       end |}.

(** [exporter.Config] *)
Record Config := {
  DSN : string;
  OutputFile : string;
  OutputFormat : string;
  Query : string;
  BatchSize : Z;
  Workers : Z;
  ProgressEvery : Z
}.

(** A [*sql.Rows] cursor: the outcome of [Columns], of [Scan] on each row
    [Next] moves to, and of [Err] once [Next] is false. *)
Record Cursor := {
  cur_columns : Result (list string);
  cur_rows : list (Result Row);
  cur_err : error
}.

(** What a run of [ExportData] finds around it; [w_cancelled n] tells
    whether the context is done when the loop checks it before row
    [n]. *)
Record World := {
  w_ping : DB.Dialect → error;
  w_query : DB.Dialect → string → Result Cursor;
  w_disk : Disk;
  w_cancelled : nat → bool
}.

(** The [switch] on [config.OutputFormat] *)
Definition select_exporter (config : Config) (columns : list string)
    : Result AnyExporter :=
  if String.eqb (OutputFormat config) "csv" then
    Ok (OfCSV (NewCSVExporter (OutputFile config) "," columns))
  else if String.eqb (OutputFormat config) "tsv" then
    Ok (OfCSV (NewCSVExporter (OutputFile config) "009" columns))
  else if String.eqb (OutputFormat config) "jsonl" then
    Ok (OfJSONL (NewJSONLExporter (OutputFile config) columns))
  else if String.eqb (OutputFormat config) "parquet" then
    Ok (OfParquet (NewParquetExporter (OutputFile config) columns))
  else Err ("unsupported output format: " +:+ OutputFormat config).

(** The outcome of a run: the error returned, the final row count and
    the output file as the deferred [Close] leaves it, if it was
    created. *)
Record Run := {
  run_err : error;
  run_count : Z;
  run_file : option FileContent
}.

(** The loop over the cursor with what follows it; [n] rows were written
    before. *)
Fixpoint export_loop {Cfg St} `{Exporter Cfg St} (cancelled : nat → bool)
    (rows : list (Result Row)) (cur_err : error) (n : nat) (st : St) : Run :=
  match rows with
  | [] =>
      match cur_err with
      | Some msg =>
          {| run_err := Some ("row iteration error: " +:+ msg);
             run_count := Z.of_nat n; run_file := Some (Close st) |}
      | None =>
          match Flush st with
          | (Some msg, st') =>
              {| run_err := Some ("failed to flush output: " +:+ msg);
                 run_count := Z.of_nat n; run_file := Some (Close st') |}
          | (None, st') =>
              {| run_err := None; run_count := Z.of_nat n;
                 run_file := Some (Close st') |}
          end
      end
  | scanned :: rest =>
      if cancelled n then
        {| run_err := Some "context canceled"; run_count := Z.of_nat n;
           run_file := Some (Close st) |}
      else
        match scanned with
        | Err msg =>
            {| run_err := Some ("failed to scan row: " +:+ msg);
               run_count := Z.of_nat n; run_file := Some (Close st) |}
        | Ok row =>
            match WriteRow st row with
            | (Some msg, st') =>
                {| run_err := Some ("failed to write row: " +:+ msg);
                   run_count := Z.of_nat n; run_file := Some (Close st') |}
            | (None, st') => export_loop cancelled rest cur_err (S n) st'
            end
        end
  end.

Definition failed (msg : string) : Run :=
  {| run_err := Some msg; run_count := 0; run_file := None |}.

(** [ExportData] *)
Definition ExportData (w : World) (config : Config) : Run :=
  match DB.NewConnector (w_ping w) (DSN config) with
  | Err msg => failed ("failed to connect to database: " +:+ msg)
  | Ok connector =>
      match w_query w connector (Query config) with
      | Err msg => failed ("failed to execute query: " +:+ msg)
      | Ok rows =>
          match cur_columns rows with
          | Err msg => failed ("failed to get columns: " +:+ msg)
          | Ok columns =>
              match select_exporter config columns with
              | Err msg => failed msg
              | Ok exporter =>
                  match Open (w_disk w) exporter with
                  | Err msg => failed ("failed to open output file: " +:+ msg)
                  | Ok st =>
                      export_loop (w_cancelled w) (cur_rows rows) (cur_err rows) 0 st
                  end
              end
          end
      end
  end.

End formatting.

End Exporter.

(** *** Helpers and sample inputs for the exporter proofs *)

Module ExporterAux.
Import Exporter.

(** A cursor over [columns] that yields no row and no error. *)
Definition empty_cursor (columns : list string) : Cursor :=
  {| cur_columns := Ok columns; cur_rows := []; cur_err := None |}.

(** A world in which the database answers, every query yields no row, the
    disk works and nobody cancels. *)
Definition quiet_world (columns : list string) : World :=
  {| w_ping := λ _, None;
     w_query := λ _ _, Ok (empty_cursor columns);
     w_disk := {| create_err := λ _, None; write_err := λ _, None |};
     w_cancelled := λ _, false |}.

Definition export_config (format : string) : Config :=
  {| DSN := "postgres://app@db/prod"; OutputFile := "out.dat";
     OutputFormat := format; Query := "SELECT id, name FROM t WHERE false";
     BatchSize := 5000; Workers := 1; ProgressEvery := 100000 |}.

(** Stand-ins for the two renderings of the standard library, for closed
    examples that do not depend on them. *)
Definition no_float : float64 → string := λ _, "0".
Definition no_json : gmap string Value → Result bytes := λ _, Ok [].

(** The header line the CSV writer makes of [columns]. *)
Definition header_line (comma : ascii) (columns : list string) : bytes :=
  GoCSV.writeFields comma 0 (bytes_of_string <$> columns) ++ [GoCSV.NL].
End ExporterAux.

(** *** Sample inputs for the round trip through CSV *)

Module RoundTripAux.
Import Exporter ExporterAux.

(** The textual forms of a row, and the bytes the CSV exporter appends to
    its buffer for it. *)
Definition texts (fmt_float : float64 → string) (row : Row) : list string :=
  formatValue fmt_float <$> row.

Definition written (comma : ascii) (record : list string) : bytes :=
  GoCSV.writeFields comma 0 (bytes_of_string <$> record) ++ [GoCSV.NL].

(** No carriage return of [t] is followed at once by a line feed. *)
Definition no_crlf (t : string) : Prop :=
  GoCSVAux.has_crlf (bytes_of_string t) = false.

(** A table of one column whose only row holds a null, and the world in
    which a query yields it. *)
Definition null_cursor : Cursor :=
  {| cur_columns := Ok ["name"]; cur_rows := [Ok [VNull]]; cur_err := None |}.

Definition null_world : World :=
  {| w_ping := λ _, None; w_query := λ _ _, Ok null_cursor;
     w_disk := {| create_err := λ _, None; write_err := λ _, None |};
     w_cancelled := λ _, false |}.

(** The file the export of that table leaves: the header line and an
    empty line. *)
Definition null_file : bytes :=
  bytes_of_string "name" ++ [GoCSV.NL; GoCSV.NL].

(** An importer over a file with the given content. *)
Definition csv_importer_of (content : bytes) : Importer.CSVImporter :=
  Importer.NewCSVImporter (λ _, Regular content) "out.dat" ",".

(** A row, the exporter about to write it and the importer about to read
    what was written. *)
Definition sample_row : Row :=
  [VInt 7; VNull; VString " x,y"; VBool true; VBytes "z"].

Definition sample_writer : CSVOpen :=
  {| csv_comma := ","; csv_buf := []; csv_file := []; csv_write_err := None |}.

Definition sample_reader : Importer.CSVOpen :=
  {| Importer.csv_comma := ",";
     Importer.csv_reader :=
       {| GoCSV.src := written "," (texts no_float sample_row) ++ bytes_of_string "8,,,,";
          GoCSV.src_err := None; GoCSV.numLine := 1; GoCSV.FieldsPerRecord := 5 |};
     Importer.csv_columns := ["a"; "b"; "c"; "d"; "e"] |}.
End RoundTripAux.

(** ** The worker pool with failing batches and cancellation

    The runs of [Worker.step] are those in which nothing goes wrong.  Here
    every branch of every [select] of the pool is present: [processBatch]
    may fail, the context may be cancelled at any time (by a failing
    worker, by [Cancel], or from outside through the parent context), and
    the client may give up without calling [Close], as [ImportData] does
    when [Submit] or the importer fails. *)

Module WorkerCtx.
Import Worker.

(** Where worker [i] stands: in the [select] of its loop, holding a batch
    it has received and is about to hand to [processBatch], inside
    [processBatch], about to offer the error to [errorCh], about to call
    [p.cancel()], or returned. *)
Inductive WorkerPC :=
| WSelect
| WTaken (b : list Row)
| WProcess (b : list Row)
| WReport (msg : string)
| WCancel
| WDone.

(** Where the client of the pool stands: submitting its rows, inside
    [Close] waiting for [p.wg.Wait()], returned from [Close] with an
    error or none, or gone without [Close]. *)
Inductive ClientPC :=
| CSubmit
| CWait
| CReturned (err : error)
| CAborted.

(** [received] logs every batch a worker has received from [batchCh],
    with the id of the worker, in the order of the receives; [calls] logs
    every call of [processBatch] with the id of the calling worker, in the
    order in which the calls are made; [failures] logs every error a call
    returned; [cancelled] tells whether [p.ctx.Done()] is closed. *)
Record State := {
  pending : list Row;
  client : ClientPC;
  inputCh : list Row;
  inputClosed : bool;
  acc : AccPC;
  batch : list Row;
  batchCh : list (list Row);
  batchClosed : bool;
  wpc : list WorkerPC;
  errorCh : option string;
  cancelled : bool;
  received : list (nat * list Row);
  calls : list (nat * list Row);
  failures : list (nat * string)
}.

(** The client side of a state, the accumulator side, and the side of the
    workers, for the steps that change one of them only. *)
Definition set_client (pd : list Row) (c : ClientPC) (ic : list Row) (closed : bool)
    (st : State) : State :=
  {| pending := pd; client := c; inputCh := ic; inputClosed := closed;
     acc := acc st; batch := batch st; batchCh := batchCh st;
     batchClosed := batchClosed st; wpc := wpc st; errorCh := errorCh st;
     cancelled := cancelled st; received := received st; calls := calls st;
     failures := failures st |}.

Definition set_acc (ic : list Row) (a : AccPC) (b : list Row)
    (bc : list (list Row)) (closed : bool) (st : State) : State :=
  {| pending := pending st; client := client st; inputCh := ic;
     inputClosed := inputClosed st;
     acc := a; batch := b; batchCh := bc; batchClosed := closed;
     wpc := wpc st; errorCh := errorCh st; cancelled := cancelled st;
     received := received st; calls := calls st; failures := failures st |}.

Definition set_worker (i : nat) (pc : WorkerPC) (bc : list (list Row))
    (st : State) : State :=
  {| pending := pending st; client := client st; inputCh := inputCh st;
     inputClosed := inputClosed st;
     acc := acc st; batch := batch st; batchCh := bc;
     batchClosed := batchClosed st; wpc := <[i := pc]> (wpc st);
     errorCh := errorCh st; cancelled := cancelled st;
     received := received st; calls := calls st; failures := failures st |}.

Definition set_cancelled (st : State) : State :=
  {| pending := pending st; client := client st; inputCh := inputCh st;
     inputClosed := inputClosed st;
     acc := acc st; batch := batch st; batchCh := batchCh st;
     batchClosed := batchClosed st; wpc := wpc st;
     errorCh := errorCh st; cancelled := true;
     received := received st; calls := calls st; failures := failures st |}.

Definition log_receive (i : nat) (b : list Row) (st : State) : State :=
  {| pending := pending st; client := client st; inputCh := inputCh st;
     inputClosed := inputClosed st;
     acc := acc st; batch := batch st; batchCh := batchCh st;
     batchClosed := batchClosed st; wpc := wpc st;
     errorCh := errorCh st; cancelled := cancelled st;
     received := received st ++ [(i, b)];
     calls := calls st; failures := failures st |}.

Definition log_call (i : nat) (b : list Row) (st : State) : State :=
  {| pending := pending st; client := client st; inputCh := inputCh st;
     inputClosed := inputClosed st;
     acc := acc st; batch := batch st; batchCh := batchCh st;
     batchClosed := batchClosed st; wpc := wpc st;
     errorCh := errorCh st; cancelled := cancelled st;
     received := received st;
     calls := calls st ++ [(i, b)]; failures := failures st |}.

Definition log_failure (i : nat) (msg : string) (st : State) : State :=
  {| pending := pending st; client := client st; inputCh := inputCh st;
     inputClosed := inputClosed st;
     acc := acc st; batch := batch st; batchCh := batchCh st;
     batchClosed := batchClosed st; wpc := wpc st;
     errorCh := errorCh st; cancelled := cancelled st;
     received := received st;
     calls := calls st; failures := failures st ++ [(i, msg)] |}.

Definition set_errorCh (e : option string) (st : State) : State :=
  {| pending := pending st; client := client st; inputCh := inputCh st;
     inputClosed := inputClosed st;
     acc := acc st; batch := batch st; batchCh := batchCh st;
     batchClosed := batchClosed st; wpc := wpc st;
     errorCh := e; cancelled := cancelled st;
     received := received st; calls := calls st; failures := failures st |}.

(** [NewPool] and [Start]: every channel is empty, the accumulator and the
    workers [0 .. workers-1] are in their loops.  As for [Worker.init], the
    batch size is taken not to be negative, so that the accumulator can
    make its batch. *)
Definition init (p : Pool) (rows : list Row) : State :=
  {| pending := rows; client := CSubmit; inputCh := []; inputClosed := false;
     acc := AccRecv; batch := []; batchCh := []; batchClosed := false;
     wpc := replicate (Z.to_nat (workers p)) WSelect;
     errorCh := None; cancelled := false; received := []; calls := [];
     failures := [] |}.

(** [fmt.Errorf("worker %d: %w", id, err)] *)
Definition worker_error (id : nat) (msg : string) : string :=
  "worker " +:+ pretty id +:+ ": " +:+ msg.

(** The non-blocking send on [errorCh], a channel of capacity 1: the
    error is dropped when one is there already. *)
Definition offer (e : string) (ch : option string) : option string :=
  match ch with
  | None => Some e
  | Some e' => Some e'
  end.

(** The steps of the client, the accumulator and the workers. *)
Inductive pstep (p : Pool) : State → State → Prop :=
(* Submit: p.inputCh <- row, into the buffer *)
| step_submit r rest st :
    client st = CSubmit →
    pending st = r :: rest →
    has_room (inputCh st) (inputCap p) →
    pstep p st (set_client rest CSubmit (inputCh st ++ [r]) (inputClosed st) st)
(* Submit handing the row to an accumulator waiting in its select *)
| step_submit_handoff r rest st :
    client st = CSubmit →
    pending st = r :: rest →
    inputCh st = [] →
    acc st = AccRecv →
    pstep p st
      (set_acc [] (after_append p (batch st ++ [r])) (batch st ++ [r])
         (batchCh st) (batchClosed st)
         (set_client rest CSubmit [] (inputClosed st) st))
(* Submit: case <-p.ctx.Done(), the client gives up *)
| step_submit_cancelled r rest st :
    client st = CSubmit →
    pending st = r :: rest →
    cancelled st = true →
    pstep p st (set_client (pending st) CAborted (inputCh st) (inputClosed st) st)
(* Close: close(p.inputCh), once every row was submitted *)
| step_close st :
    client st = CSubmit →
    pending st = [] →
    pstep p st (set_client [] CWait (inputCh st) true st)
(* Close: p.wg.Wait() is over; the select on errorCh *)
| step_close_return st :
    client st = CWait →
    acc st = AccDone →
    Forall (λ pc, pc = WDone) (wpc st) →
    pstep p st
      (set_errorCh None
         (set_client (pending st) (CReturned (errorCh st)) (inputCh st)
            (inputClosed st) st))
(* accumulator: case row, ok := <-p.inputCh with ok *)
| step_acc_recv r q st :
    acc st = AccRecv →
    inputCh st = r :: q →
    pstep p st
      (set_acc q (after_append p (batch st ++ [r])) (batch st ++ [r])
         (batchCh st) (batchClosed st) st)
(* accumulator: the input channel is closed and drained *)
| step_acc_closed st :
    acc st = AccRecv →
    inputCh st = [] →
    inputClosed st = true →
    pstep p st (set_acc [] (AccFlush true) (batch st) (batchCh st) (batchClosed st) st)
(* accumulator: case <-p.ctx.Done() in the loop; the batch is dropped and
   the deferred close(p.batchCh) runs *)
| step_acc_cancelled st :
    acc st = AccRecv →
    cancelled st = true →
    pstep p st (set_acc (inputCh st) AccDone (batch st) (batchCh st) true st)
(* flush with len(batch) == 0: nothing is sent *)
| step_flush_empty final st :
    acc st = AccFlush final →
    batch st = [] →
    pstep p st
      (set_acc (inputCh st) (after_flush final) [] (batchCh st)
         (batchClosed st || final) st)
(* flush: p.batchCh <- Batch{Rows: batchCopy}, then batch = batch[:0] *)
| step_flush_send final st :
    acc st = AccFlush final →
    batch st ≠ [] →
    has_room (batchCh st) (batchCap p) →
    pstep p st
      (set_acc (inputCh st) (after_flush final) [] (batchCh st ++ [batch st])
         (batchClosed st || final) st)
(* flush handing the batch to a worker waiting in its select *)
| step_flush_handoff final i st :
    acc st = AccFlush final →
    batch st ≠ [] →
    batchCh st = [] →
    wpc st !! i = Some WSelect →
    pstep p st
      (log_receive i (batch st)
         (set_worker i (WTaken (batch st)) []
            (set_acc (inputCh st) (after_flush final) [] []
               (batchClosed st || final) st)))
(* flush: case <-p.ctx.Done(); flush returns and the batch is not reset *)
| step_flush_cancelled final st :
    acc st = AccFlush final →
    batch st ≠ [] →
    cancelled st = true →
    pstep p st
      (set_acc (inputCh st) (after_flush final) (batch st) (batchCh st)
         (batchClosed st || final) st)
(* worker i: case batch, ok := <-p.batchCh with ok *)
| step_worker_take i b q st :
    wpc st !! i = Some WSelect →
    batchCh st = b :: q →
    pstep p st (log_receive i b (set_worker i (WTaken b) q st))
(* worker i: processBatch(p.ctx, batch.Rows) is called *)
| step_worker_call i b st :
    wpc st !! i = Some (WTaken b) →
    pstep p st (log_call i b (set_worker i (WProcess b) (batchCh st) st))
(* worker i: the batch channel is closed and drained *)
| step_worker_closed i st :
    wpc st !! i = Some WSelect →
    batchCh st = [] →
    batchClosed st = true →
    pstep p st (set_worker i WDone [] st)
(* worker i: case <-p.ctx.Done() *)
| step_worker_cancelled i st :
    wpc st !! i = Some WSelect →
    cancelled st = true →
    pstep p st (set_worker i WDone (batchCh st) st)
(* worker i: processBatch returns nil *)
| step_worker_ok i b st :
    wpc st !! i = Some (WProcess b) →
    pstep p st (set_worker i WSelect (batchCh st) st)
(* worker i: processBatch returns an error *)
| step_worker_fail i b msg st :
    wpc st !! i = Some (WProcess b) →
    pstep p st (log_failure i msg (set_worker i (WReport msg) (batchCh st) st))
(* worker i: select { case p.errorCh <- ...: default: } *)
| step_worker_report i msg st :
    wpc st !! i = Some (WReport msg) →
    pstep p st
      (set_errorCh (offer (worker_error i msg) (errorCh st))
         (set_worker i WCancel (batchCh st) st))
(* worker i: p.cancel(), then return *)
| step_worker_cancel i st :
    wpc st !! i = Some WCancel →
    pstep p st (set_cancelled (set_worker i WDone (batchCh st) st)).

(** What happens to the pool from outside: the parent context is
    cancelled, or the client calls [Cancel] and goes (as [ImportData] does
    when the importer fails). *)
Inductive estep : State → State → Prop :=
| step_ctx_cancel st :
    cancelled st = false →
    estep st (set_cancelled st)
| step_client_cancel st :
    client st = CSubmit →
    estep st
      (set_cancelled
         (set_client (pending st) CAborted (inputCh st) (inputClosed st) st)).

Definition step (p : Pool) (st st' : State) : Prop :=
  pstep p st st' ∨ estep st st'.

(** The states a pool over [rows] can be in. *)
Definition reachable (p : Pool) (rows : list Row) (st : State) : Prop :=
  rtc (step p) (init p rows) st.

(** The batches received from [batchCh], in the order of the receives,
    and the batches handed to [processBatch], in the order of the calls. *)
Definition taken (st : State) : list (list Row) := (received st).*2.
Definition batches (st : State) : list (list Row) := (calls st).*2.

(** The batch a worker has received and not yet handed to
    [processBatch], and these batches over all workers. *)
Definition in_hand (pc : WorkerPC) : list (list Row) :=
  match pc with
  | WTaken b => [b]
  | _ => []
  end.

Definition held (st : State) : list (list Row) := wpc st ≫= in_hand.

(** Nothing is left to happen: the client has returned and so has every
    goroutine of the pool. *)
Definition quiescent (st : State) : Prop :=
  (client st = CAborted ∨ ∃ e, client st = CReturned e) ∧
  acc st = AccDone ∧ Forall (λ pc, pc = WDone) (wpc st).

(** A bound on the number of steps a state has left. *)
Definition client_weight (c : ClientPC) : nat :=
  match c with CSubmit => 2 | CWait => 1 | _ => 0 end%nat.

Definition acc_weight (a : AccPC) : nat :=
  match a with
  | AccFlush false => 3
  | AccRecv => 2
  | AccFlush true => 1
  | AccDone => 0
  end%nat.

Definition worker_weight (pc : WorkerPC) : nat :=
  match pc with
  | WTaken _ => 5
  | WProcess _ => 4
  | WSelect => 3
  | WReport _ => 2
  | WCancel => 1
  | WDone => 0
  end%nat.

Definition queued_weight (b : list Row) : nat := (3 + 2 * length b)%nat.

Definition measure (st : State) : nat :=
  (8 * length (pending st) + 7 * length (inputCh st) + 5 * length (batch st)
   + sum_list_with queued_weight (batchCh st)
   + client_weight (client st) + acc_weight (acc st)
   + sum_list_with worker_weight (wpc st)
   + (if cancelled st then 0 else 1))%nat.

End WorkerCtx.

(** *** Invariants of the pool with failures and cancellation *)

Module WorkerCtxInv.
Import Worker WorkerInv WorkerCtx.

(** Every batch the accumulator has sent so far, oldest first: those the
    workers have received and those still in [batchCh]. *)
Definition emitted (st : State) : list (list Row) :=
  taken st ++ batchCh st.

(** No row is lost, duplicated or reordered on its way from the client
    to the workers. *)
Definition conserved (rows : list Row) (st : State) : Prop :=
  concat (emitted st) ++ batch st ++ inputCh st ++ pending st = rows ∧
  Forall (λ b, b ≠ []) (emitted st).

(** Every batch received is handed to [processBatch] once, or is still
    in the hands of the worker that received it. *)
Definition handed (st : State) : Prop :=
  taken st ≡ₚ batches st ++ held st.

(** A single worker makes its calls in the order of its receives. *)
Definition single (st : State) : Prop :=
  ∀ pc, wpc st = [pc] →
        received st = calls st ++ ((λ b, (0%nat, b)) <$> in_hand pc).

Definition live (pc : WorkerPC) : Prop := pc ≠ WDone.

(** How the program counters and the flags hang together. *)
Definition structure (p : Pool) (st : State) : Prop :=
  length (wpc st) = Z.to_nat (workers p) ∧
  (acc st = AccDone ↔ batchClosed st = true) ∧
  (inputClosed st = true ↔ client st = CWait ∨ ∃ e, client st = CReturned e) ∧
  (inputClosed st = true → pending st = []) ∧
  (client st = CAborted → cancelled st = true) ∧
  (∀ e, client st = CReturned e →
        acc st = AccDone ∧ Forall (λ pc, pc = WDone) (wpc st)) ∧
  (acc st = AccFlush true → inputClosed st = true ∧ inputCh st = []) ∧
  (cancelled st = false → acc st = AccDone →
     inputClosed st = true ∧ inputCh st = [] ∧ batch st = []) ∧
  (cancelled st = false → batchClosed st = false → Forall live (wpc st)) ∧
  (cancelled st = false → batchCh st ≠ [] → Exists live (wpc st)).

(** As long as the context is not cancelled, the batches sent are full and
    the one being gathered is not. *)
Definition shape (p : Pool) (st : State) : Prop :=
  cancelled st = false →
  match acc st with
  | AccRecv => Forall (full p) (emitted st) ∧ short p (batch st)
  | AccFlush false => Forall (full p) (emitted st) ∧ full p (batch st)
  | AccFlush true => Forall (full p) (emitted st) ∧ short p (batch st)
  | AccDone =>
      ∃ fl tl, emitted st = fl ++ tl ∧ Forall (full p) fl ∧
               (tl = [] ∨ ∃ b, tl = [b] ∧ b ≠ [] ∧ short p b)
  end.

Definition reports (pc : WorkerPC) : Prop := ∃ msg, pc = WReport msg.
Definition failing (pc : WorkerPC) : Prop := pc = WCancel ∨ reports pc.

Definition from_failure (st : State) (e : string) : Prop :=
  ∃ i msg, (i, msg) ∈ failures st ∧ e = worker_error i msg.

(** Where the errors of [processBatch] are on their way to [Close]. *)
Definition reporting (st : State) : Prop :=
  (∀ e, errorCh st = Some e → from_failure st e) ∧
  (∀ e, client st = CReturned (Some e) → from_failure st e) ∧
  (client st = CReturned None → failures st = []) ∧
  ((∀ e, client st ≠ CReturned e) → failures st ≠ [] →
     errorCh st ≠ None ∨ Exists reports (wpc st)) ∧
  (cancelled st = false → failures st = [] ∨ Exists failing (wpc st)) ∧
  (∀ i msg, wpc st !! i = Some (WReport msg) → (i, msg) ∈ failures st).

Definition inv (p : Pool) (rows : list Row) (st : State) : Prop :=
  conserved rows st ∧ structure p st ∧ shape p st ∧ reporting st.

End WorkerCtxInv.

(** *** Sample runs of the pool *)

Module WorkerCtxAux.
Import Worker WorkerCtx.

Definition pool1 : Pool := {| workers := 1; batchSize := 2 |}.
Definition pool2 : Pool := {| workers := 2; batchSize := 1 |}.
Definition idle_pool : Pool := {| workers := 0; batchSize := 1 |}.

Definition two_rows : list Row := [[VInt 1]; [VInt 2]].
Definition three_rows : list Row := [[VInt 1]; [VInt 2]; [VInt 3]].

(** The end of a run of [pool1] over [three_rows] in which nothing fails
    and nobody cancels. *)
Definition quiet_end : State :=
  {| pending := []; client := CReturned None; inputCh := []; inputClosed := true;
     acc := AccDone; batch := []; batchCh := []; batchClosed := true;
     wpc := [WDone]; errorCh := None; cancelled := false;
     received := [(0%nat, two_rows); (0%nat, [[VInt 3]])];
     calls := [(0%nat, two_rows); (0%nat, [[VInt 3]])]; failures := [] |}.

(** The end of a run of [pool1] over [two_rows] in which the only batch
    fails. *)
Definition failed_end : State :=
  {| pending := []; client := CReturned (Some "worker 0: boom"); inputCh := [];
     inputClosed := true;
     acc := AccDone; batch := []; batchCh := []; batchClosed := true;
     wpc := [WDone]; errorCh := None; cancelled := true;
     received := [(0%nat, two_rows)];
     calls := [(0%nat, two_rows)]; failures := [(0%nat, "boom")] |}.

(** A state of [pool2] over [two_rows]: worker 0 has received the first
    row and worker 1 the second, and worker 1 was the first to call
    [processBatch]. *)
Definition overtaken : State :=
  {| pending := []; client := CSubmit; inputCh := []; inputClosed := false;
     acc := AccRecv; batch := []; batchCh := []; batchClosed := false;
     wpc := [WProcess [[VInt 1]]; WProcess [[VInt 2]]];
     errorCh := None; cancelled := false;
     received := [(0%nat, [[VInt 1]]); (1%nat, [[VInt 2]])];
     calls := [(1%nat, [[VInt 2]]); (0%nat, [[VInt 1]])]; failures := [] |}.

(** A pool without workers over one row: the row was handed to the
    accumulator, which cannot send its batch, and the client waits in
    [Close]. *)
Definition stuck : State :=
  {| pending := []; client := CWait; inputCh := []; inputClosed := true;
     acc := AccFlush false; batch := [[VInt 1]]; batchCh := [];
     batchClosed := false; wpc := []; errorCh := None; cancelled := false;
     received := []; calls := []; failures := [] |}.

End WorkerCtxAux.

(** ** The command (package main: main.go and the bridges) *)

Module Main.
Import Config.

(** The configuration the bridge [ImportData] hands to the importer
    package. *)
Definition importConfig (config : Config) : Importer.Config :=
  {| Importer.DSN := DSN config;
     Importer.InputFile := InputFile config;
     Importer.InputFormat := InputFormat config;
     Importer.Table := Table config;
     Importer.BatchSize := BatchSize config;
     Importer.Workers := Workers config;
     Importer.ProgressEvery := ProgressEvery config |}.

(** The configuration the bridge [ExportData] hands to the exporter
    package. *)
Definition exportConfig (config : Config) : Exporter.Config :=
  {| Exporter.DSN := DSN config;
     Exporter.OutputFile := OutputFile config;
     Exporter.OutputFormat := OutputFormat config;
     Exporter.Query := Query config;
     Exporter.BatchSize := BatchSize config;
     Exporter.Workers := Workers config;
     Exporter.ProgressEvery := ProgressEvery config |}.

(** How a call of [ImportData] or [ExportData] ends: it returns an error
    or nil, or it panics, as [importer.ImportData] does when [NewPool]
    cannot make its channels. *)
Inductive Ended :=
| Returns (err : error)
| Panics.

(** What [main] finds around it: the number of CPUs, the file system, the
    outcome of decoding the configuration from standard input, the two
    operations behind [runImport] and [runExport], and whether the context
    is cancelled ([ctx.Err() != nil]) once the operation has returned. *)
Record Env := {
  numCPU : Z;
  files : FS;
  stdin : Result Config;
  importData : Importer.Config → Ended;
  exportData : Exporter.Config → Ended;
  interrupted : bool
}.

(** The ways [main] ends: one for each call of [os.Exit], with the
    message it prints before, and one for a panic that nothing recovers,
    on which the runtime ends the process. *)
Inductive Exit :=
| ParseFailed (msg : string)
| Invalid (msg : string)
| NormalizeFailed (msg : string)
| UnknownMode (mode : string)
| Cancelled
| Failed (msg : string)
| Success
| Crashed.

(** The exit status of the process: the argument of [os.Exit], and 2 after
    a panic. *)
Definition code (e : Exit) : Z :=
  match e with
  | Success => 0
  | Cancelled => 130
  | Crashed => 2
  | _ => 1
  end.

(** The [switch] on [config.Mode]: how the operation ended, or nothing
    when the mode is unknown. *)
Definition dispatch (env : Env) (config : Config) : option Ended :=
  if String.eqb (Mode config) "import" then
    Some (importData env (importConfig config))
  else if String.eqb (Mode config) "export" then
    Some (exportData env (exportConfig config))
  else None.

(** [main] *)
Definition main (env : Env) : Exit :=
  match stdin env with
  | Err msg => ParseFailed msg
  | Ok config =>
      match Validate (files env) config with
      | (Some msg, _) => Invalid msg
      | (None, config) =>
          match Normalize (numCPU env) (files env) config with
          | (Some msg, _) => NormalizeFailed msg
          | (None, config) =>
              match dispatch env config with
              | None => UnknownMode (Mode config)
              | Some Panics => Crashed
              | Some (Returns (Some msg)) =>
                  if interrupted env then Cancelled else Failed msg
              | Some (Returns None) => Success
              end
          end
      end
  end.

End Main.

(** *** Sample inputs for the proofs about the command *)

Module MainAux.
Import Config.

(** An import of a CSV file that exists, with every optional field left
    out. *)
Definition cfg_import : Config :=
  {| Mode := "import"; DSN := "postgres://app@db/prod"; BatchSize := 0;
     Workers := 0; ProgressEvery := 0; InputFile := "plain"; InputFormat := "";
     Table := "people"; OutputFile := ""; OutputFormat := ""; Query := "" |}.

(** A file system in which [os.Stat] fails on every path, but not because
    the path does not exist. *)
Definition fs_denied : FS := λ _, Denied "permission denied".

(** The formats the [switch] of [importer.ImportData] knows. *)
Definition import_formats : list string := ["csv"; "tsv"; "jsonl"; "xlsx"].

(** The formats the [switch] of [exporter.ExportData] knows. *)
Definition export_formats : list string := ["csv"; "tsv"; "jsonl"; "parquet"].

Definition env0 (run : error) (interrupted : bool) : Main.Env :=
  {| Main.numCPU := 8; Main.files := ConfigAux.fs0; Main.stdin := Ok cfg_import;
     Main.importData := λ _, Main.Returns run;
     Main.exportData := λ _, Main.Returns run;
     Main.interrupted := interrupted |}.

(** The same import with [workers] set to 2^62, which is a Go [int]. *)
Definition cfg_huge : Config :=
  {| Mode := "import"; DSN := "postgres://app@db/prod"; BatchSize := 0;
     Workers := 2 ^ 62; ProgressEvery := 0; InputFile := "plain";
     InputFormat := ""; Table := "people"; OutputFile := ""; OutputFormat := "";
     Query := "" |}.

(** A world in which the database answers, the files are those of
    [ConfigAux.fs0] and memory is never short. *)
Definition world0 : Importer.World :=
  {| Importer.w_files := ConfigAux.fs0;
     Importer.w_jsonl := λ _, Importer.JNoFile "no such file";
     Importer.w_visit := id;
     Importer.w_xlsx := λ _, {| Importer.xlsx_stat := Err "no such file";
                                Importer.xlsx_open := Err "no such file" |};
     Importer.w_ping := λ _, None;
     Importer.w_alloc := λ _, true |}.

(** [importer.ImportData] in that world, over a pool that accepts every
    row, as the operation of an environment. *)
Definition import_in (w : Importer.World) (config : Importer.Config) : Main.Ended :=
  match (Importer.ImportData w ImporterAux.quiet_pool 16 config).1 with
  | Importer.Panicked => Main.Panics
  | Importer.Returned err => Main.Returns err
  | Importer.OutOfFuel => Main.Returns (Some "out of fuel")
  end.

Definition env_huge : Main.Env :=
  {| Main.numCPU := 8; Main.files := ConfigAux.fs0; Main.stdin := Ok cfg_huge;
     Main.importData := import_in world0;
     Main.exportData := λ _, Main.Returns None;
     Main.interrupted := false |}.
End MainAux.

(** *** The statement a batch insert makes *)

Module DBAux.
Import DB.

(** The placeholder of the [k]-th argument, counted from 1: [$k] for
    PostgreSQL, a question mark for MySQL. *)
Definition placeholder (d : Dialect) (k : nat) : string :=
  match d with
  | Postgres => "$" +:+ pretty k
  | MySQL => "?"
  end.

(** The group of placeholders of the row of index [i], for rows of
    [ncols] values each. *)
Definition row_group (d : Dialect) (ncols i : nat) : string :=
  "(" +:+ String.concat ", " (placeholder d <$> seq (i * ncols + 1) ncols) +:+ ")".

(** The statement for [rows], each of as many values as there are
    columns. *)
Definition batch_statement (d : Dialect) (table : string) (columns : list string)
    (rows : list Row) : Statement :=
  (insert_query table columns
     (row_group d (length columns) <$> seq 0 (length rows)),
   concat rows).

(** A database that accepts everything and was handed nothing yet, and
    one that refuses everything. *)
Definition fresh_db : Database :=
  {| executed := []; exec_result := λ _, None |}.

Definition closed_db : Database :=
  {| executed := []; exec_result := λ _, Some "connection refused" |}.

(** [fmt.Errorf("batch insert failed: %w", err)] on an error, nil on
    nil *)
Definition wrap_failure (e : error) : error :=
  match e with
  | Some msg => Some ("batch insert failed: " +:+ msg)
  | None => None
  end.
End DBAux.

(** ** The MySQL connector and its DSN (package db, mysql.go) *)

Module MySQL.

(** What [url.Parse] makes of a string, as far as the connector looks at
    it: [u.User.String()] when [u.User] is not nil, [u.Host], [u.Path] and
    [u.RawQuery].  [url.Parse] belongs to Go's standard library. *)
Record URL := {
  User : option string;
  Host : string;
  Path : string;
  RawQuery : string
}.

(** [strings.TrimPrefix] *)
Definition TrimPrefix (s pre : string) : string :=
  if String.prefix pre s
  then String.substring (String.length pre) (String.length s - String.length pre) s
  else s.

(** [strings.Cut] at a separator of one byte: what is before its first
    occurrence and what is after it. *)
Fixpoint cut (sep : ascii) (s : string) : option (string * string) :=
  match s with
  | EmptyString => None
  | String c rest =>
      if Ascii.eqb c sep then Some (EmptyString, rest)
      else match cut sep rest with
           | Some (before, after) => Some (String c before, after)
           | None => None
           end
  end.

(** [strings.SplitN(s, sep, 2)] for a separator of one byte *)
Definition SplitN2 (s : string) (sep : ascii) : list string :=
  match cut sep s with
  | Some (before, after) => [before; after]
  | None => [s]
  end.

Section connector.
Context (parse : string → Result URL).

(** The first part of [NewMySQLConnector]: the DSN handed to [sql.Open].
    [None] stands for the panic of [parts[1]] on a slice of one
    element. *)
Definition driver_dsn (dsn : string) : option string :=
  if String.prefix "mysql://" dsn then
    match parse dsn with
    | Ok u =>
        let userInfo := match User u with Some info => info +:+ "@" | None => "" end in
        let path := TrimPrefix (Path u) "/" in
        let dsn := userInfo +:+ "tcp(" +:+ Host u +:+ ")/" +:+ path in
        Some (if String.eqb (RawQuery u) "" then dsn else dsn +:+ "?" +:+ RawQuery u)
    | Err _ => Some dsn
    end
  else if DB.Contains dsn "@" && DB.Contains dsn "/" && negb (DB.Contains dsn "(") then
    match SplitN2 dsn "@" with
    | [user; rest] =>
        match SplitN2 rest "/" with
        | [addr; db] => Some (user +:+ "@tcp(" +:+ addr +:+ ")/" +:+ db)
        | _ => Some dsn
        end
    | _ => None
    end
  else Some dsn.

(** What [sql.Open] and [db.Ping] answer for a DSN. *)
Record Driver := {
  open_err : string → error;
  ping_err : string → error
}.

Inductive Connected :=
| Connector (dsn : string)
| Refused (msg : string)
| Panic.

(** [NewMySQLConnector]; the connector is known by the DSN its
    database was opened with. *)
Definition NewMySQLConnector (drv : Driver) (dsn : string) : Connected :=
  match driver_dsn dsn with
  | None => Panic
  | Some dsn' =>
      match open_err drv dsn' with
      | Some msg => Refused ("failed to open mysql connection: " +:+ msg)
      | None =>
          match ping_err drv dsn' with
          | Some msg => Refused ("failed to ping mysql: " +:+ msg)
          | None => Connector dsn'
          end
      end
  end.
End connector.

End MySQL.

(** *** Sample inputs for the proofs about the DSN *)

Module MySQLAux.
(** A parser that refuses everything, and a driver that accepts
    everything. *)
Definition no_url : string → Result MySQL.URL := λ _, Err "parse error".
Definition ready : MySQL.Driver :=
  {| MySQL.open_err := λ _, None; MySQL.ping_err := λ _, None |}.
End MySQLAux.

(** *** Sequences of calls on an importer *)

Module ImporterCalls.
Import Importer.

(** [st'] is the state a call of [NextRow] leaves [st] in. *)
Definition next {Cfg St} `{Importer Cfg St} (st st' : St) : Prop :=
  (NextRow st).2 = st'.

(** [st'] is reached from [st] by some calls of [NextRow], whatever they
    return. *)
Definition later {Cfg St} `{Importer Cfg St} (st st' : St) : Prop :=
  rtc next st st'.

(** A CSV file of a header and two records, the second a field short. *)
Definition ragged_csv : bytes :=
  String.list_ascii_of_string "id,name" ++ [GoCSV.NL]
  ++ String.list_ascii_of_string "1,ann" ++ [GoCSV.NL]
  ++ String.list_ascii_of_string "2" ++ [GoCSV.NL].

Definition ragged_importer : CSVImporter :=
  NewCSVImporter (λ _, Regular ragged_csv) "people.csv" ",".

(** A JSONL file of three lines. *)
Definition three_lines : list Line :=
  [JObject [("id", VInt 1); ("name", VString "ann")];
   JObject [("id", VInt 2)];
   JNull].

Definition lines_importer : JSONLImporter :=
  NewJSONLImporter (λ _, JFile {| tokens := three_lines; scan_err := None |})
    id "people.jsonl".
End ImporterCalls.

(** *** Sample inputs for runs of the export *)

Module ExportRuns.
Import Exporter ExporterAux.

(** The record the CSV writer appends for a row. *)
Definition csv_record (fmt_float : float64 → string) (comma : ascii) (row : Row) : bytes :=
  GoCSV.writeFields comma 0 (bytes_of_string <$> (formatValue fmt_float <$> row))
    ++ [GoCSV.NL].

(** A cursor of two rows and a third that fails to scan, and the world in
    which a query yields it. *)
Definition broken_cursor : Cursor :=
  {| cur_columns := Ok ["id"; "name"];
     cur_rows := [Ok [VInt 1; VString "ann"]; Ok [VInt 2; VNull]; Err "bad value"];
     cur_err := None |}.

Definition broken_world : World :=
  {| w_ping := λ _, None; w_query := λ _ _, Ok broken_cursor;
     w_disk := {| create_err := λ _, None; write_err := λ _, None |};
     w_cancelled := λ _, false |}.

(** The cell of index [i] of [row] as the loop of [WriteRow] reads it:
    nil beyond the end of the row. *)
Definition cell (convert : Value → Value) (row : Row) (i : nat) : Value :=
  match row !! i with
  | Some v => convert v
  | None => VNull
  end.

(** The columns of a join that selects the key of both tables, and a row
    of it. *)
Definition join_columns : list string := ["id"; "name"; "id"].
Definition join_row : Row := [VInt 1; VString "ann"; VInt 7].

(** A record the CSV reader hands back as it was written: it is not a
    lone empty field, and no field holds a carriage return followed at
    once by a line feed. *)
Definition readable (record : list string) : Prop :=
  record ≠ [""] ∧ Forall RoundTripAux.no_crlf record.

(** A table, as the cursor of a query over it and the world in which the
    query yields it: every row scans, nothing fails, nobody cancels. *)
Definition table_cursor (columns : list string) (rows : list Row) : Cursor :=
  {| cur_columns := Ok columns; cur_rows := Ok <$> rows; cur_err := None |}.

Definition table_world (columns : list string) (rows : list Row) : World :=
  {| w_ping := λ _, None; w_query := λ _ _, Ok (table_cursor columns rows);
     w_disk := {| create_err := λ _, None; write_err := λ _, None |};
     w_cancelled := λ _, false |}.

Definition people : list Row :=
  [[VInt 1; VString "ann, b."]; [VInt 2; VNull]; [VNull; VBool true]].
End ExportRuns.

(** * Proofs *)

(** ** Worker pool *)

Section worker_proofs.
Import Worker WorkerInv.
Context (p : Pool) (HB : 1 ≤ batchSize p).

Lemma inv_init rows : inv p rows (init p rows).
Proof.
  unfold inv, acc_inv, emitted, batches, short; simpl.
  repeat split; auto; try discriminate; try lia.
Qed.

Lemma after_append_cases (b : list Row) r :
  short p b →
  (after_append p (b ++ [r]) = AccFlush false ∧ full p (b ++ [r])) ∨
  (after_append p (b ++ [r]) = AccRecv ∧ short p (b ++ [r])).
Proof.
  unfold short, full, after_append. rewrite length_app; simpl.
  intros Hs. destruct (Z.leb_spec (batchSize p) (Z.of_nat (length b + 1))); [left|right]; split; auto; lia.
Qed.

Lemma emitted_take (d : list (nat * list Row)) i b (q : list (list Row)) :
  (d ++ [(i, b)]).*2 ++ q = d.*2 ++ b :: q.
Proof. rewrite fmap_app; simpl. by rewrite <- app_assoc. Qed.

Lemma full_not_nil (b : list Row) : full p b → b ≠ [].
Proof using HB. unfold full. intros H ->. simpl in H. lia. Qed.

Lemma room_running (st : State) :
  (batchClosed st = false → running st = seq 0 (Z.to_nat (workers p))) →
  batchClosed st = false → has_room (batchCh st) (batchCap p) → running st ≠ [].
Proof.
  unfold has_room, batchCap. intros Hr Hc Hroom. rewrite (Hr Hc).
  destruct (Z.to_nat (workers p)) eqn:E; [lia | done].
Qed.

Lemma inv_step rows st st' : inv p rows st → step p st st' → inv p rows st'.
Proof using HB.
  intros (Hrows & Hcl & Hacc & Hrun & Hch) Hstep.
  destruct Hstep; destruct st; unfold inv, acc_inv, emitted, batches in *; simpl in *;
    try subst inputCh0; try subst batchCh0; try subst acc0; try subst inputClosed0;
    try subst batchClosed0; try subst batch0.
  - (* submit *)
    split_and!; [ | done | | done | done].
    + rewrite H in Hrows. rewrite <- Hrows. by rewrite <- !app_assoc.
    + destruct acc0 as [|[]|]; intuition congruence.
  - (* submit, handoff *)
    destruct Hacc as (Hem & Hsh & Hbc).
    split_and!; [ | done | | done | done].
    + rewrite H in Hrows. rewrite <- Hrows. simpl. by rewrite <- !app_assoc.
    + destruct (after_append_cases batch0 r Hsh) as [[-> Hf]|[-> Hs]]; done.
  - (* close *)
    subst pending0. split_and!; [ done | done | | done | done].
    destruct acc0 as [|[]|]; intuition congruence.
  - (* accumulator receives a row *)
    destruct Hacc as (Hem & Hsh & Hbc).
    split_and!; [ | done | | done | done].
    + rewrite <- Hrows. simpl. by rewrite <- !app_assoc.
    + destruct (after_append_cases batch0 r Hsh) as [[-> Hf]|[-> Hs]]; done.
  - (* accumulator sees the closed channel *)
    intuition congruence.
  - (* flush of an empty batch *)
    destruct final; simpl.
    + destruct Hacc as (Hem & Hsh & Hbc & Hin & Hic).
      split_and!; try done; auto.
      exists (delivered0.*2 ++ batchCh0), []. rewrite app_nil_r. auto.
    + destruct Hacc as (Hem & Hf & Hbc). by apply full_not_nil in Hf.
  - (* flush sends the batch *)
    assert (running0 ≠ []) as Hne.
    { apply (room_running (Build_State pending0 inputCh0 inputClosed0 (AccFlush final)
               batch0 batchCh0 batchClosed0 running0 delivered0)); simpl; try done.
      destruct final; tauto. }
    destruct final; simpl.
    + destruct Hacc as (Hem & Hsh & Hbc & Hin & Hic).
      split_and!; try done; try (intros _; exact Hne).
      * rewrite <- Hrows. rewrite !app_assoc, concat_app. simpl. by rewrite !app_nil_r, <- !app_assoc.
      * exists (delivered0.*2 ++ batchCh0), [batch0].
        rewrite app_assoc. split_and!; try done; try (intros _; exact Hne). right. by exists batch0.
    + destruct Hacc as (Hem & Hf & Hbc).
      split_and!; try done; try (intros _; exact Hne).
      * rewrite <- Hrows. rewrite !app_assoc, concat_app. simpl. by rewrite !app_nil_r, <- !app_assoc.
      * rewrite app_assoc. apply Forall_app. split; [done|]. by constructor.
      * unfold short; simpl. lia.
      * auto.
  - (* flush hands the batch to a worker *)
    rewrite !app_nil_r in *. rewrite fmap_app; simpl.
    destruct final; simpl.
    + destruct Hacc as (Hem & Hsh & Hbc & Hin & Hic).
      split_and!; try done; auto.
      * rewrite <- Hrows. rewrite concat_app. simpl. by rewrite !app_nil_r, <- !app_assoc.
      * exists (delivered0.*2), [batch0]. split_and!; try done; auto. right. by exists batch0.
    + destruct Hacc as (Hem & Hf & Hbc).
      split_and!; try done; auto.
      * rewrite <- Hrows. rewrite concat_app. simpl. by rewrite !app_nil_r, <- !app_assoc.
      * apply Forall_app. split; [done|]. by constructor.
      * unfold short; simpl. lia.
  - (* a worker takes a batch *)
    rewrite emitted_take. split_and!; try done.
    intros _. intros Hnil. rewrite Hnil in H. by apply elem_of_nil in H.
  - (* a worker returns *)
    done.
Qed.

Lemma inv_reachable rows st : rtc (step p) (init p rows) st → inv p rows st.
Proof using HB.
  intros H. eapply (rtc_ind_r (R:=step p) (inv p rows)); [apply inv_init| |exact H].
  intros y z _ Hs Hy. by eapply inv_step.
Qed.

Lemma length_concat_sum {A} (l : list (list A)) :
  length (concat l) = sum_list (length <$> l).
Proof. induction l as [|x l IH]; simpl; [done|]. by rewrite length_app, IH. Qed.

Lemma full_length (b : list Row) : full p b → length b = Z.to_nat (batchSize p).
Proof. unfold full. lia. Qed.

Lemma shape_partitions rows (fl tl : list (list Row)) :
  concat (fl ++ tl) = rows →
  Forall (full p) fl →
  (tl = [] ∨ ∃ b, tl = [b] ∧ b ≠ [] ∧ short p b) →
  partitions (Z.to_nat (batchSize p)) rows (fl ++ tl).
Proof using HB.
  intros Hcat Hfl Htl.
  assert (Forall (λ b : list Row, length b = Z.to_nat (batchSize p)) fl) as Hfl'.
  { eapply Forall_impl; [done|]. apply full_length. }
  assert (length rows = (length fl * Z.to_nat (batchSize p) + sum_list (length <$> tl))%nat) as Hlen.
  { rewrite <- Hcat, length_concat_sum, fmap_app, sum_list_with_app.
    by rewrite (sum_list_fmap_same _ _ _ Hfl'). }
  set (B := Z.to_nat (batchSize p)) in *.
  assert (0 < B)%nat as HBpos by lia.
  split_and!.
  - done.
  - rewrite fmap_app, sum_list_with_app, Hlen. by rewrite (sum_list_fmap_same _ _ _ Hfl').
  - intros i b Hi Hlt. rewrite length_app in Hlt.
    assert (i < length fl)%nat as Hi'.
    { destruct Htl as [->|(b' & -> & _)]; simpl in Hlt; lia. }
    rewrite lookup_app_l in Hi by done.
    by eapply (Forall_lookup_1 _ _ _ _ Hfl').
  - intros b [Hb|Hb]%elem_of_app.
    + rewrite (proj1 (Forall_forall _ _) Hfl' b Hb). lia.
    + destruct Htl as [->|(b' & -> & Hne & Hs)]; [by apply elem_of_nil in Hb|].
      apply list_elem_of_singleton in Hb as ->. unfold short in Hs.
      destruct b'; [done|simpl in *; lia].
  - intros Hmod. destruct Htl as [->|(b' & -> & Hne & Hs)].
    + simpl in Hlen. rewrite Hlen, Nat.add_0_r, Nat.Div0.mod_mul in Hmod. done.
    + exists b'. split; [apply last_snoc|]. simpl in Hlen. unfold short in Hs.
      rewrite Hlen, Nat.add_0_r, Nat.add_comm, Nat.Div0.mod_add, Nat.mod_small; lia.
  - intros Hmod. destruct Htl as [->|(b' & -> & Hne & Hs)].
    + by rewrite app_nil_r.
    + exfalso. simpl in Hlen. unfold short in Hs.
      rewrite Hlen, Nat.add_0_r, Nat.add_comm, Nat.Div0.mod_add, Nat.mod_small in Hmod by lia.
      destruct b'; [done|simpl in *; lia].
Qed.

Lemma finished_partitions rows st :
  run p rows st → partitions (Z.to_nat (batchSize p)) rows (batches st).
Proof using HB.
  intros [Hreach (Hp & Hic & Hacc & Hrun)].
  destruct (inv_reachable _ _ Hreach) as (Hrows & _ & Hinv & _ & Hch).
  unfold acc_inv in Hinv. rewrite Hacc in Hinv.
  destruct Hinv as (Hb & Hin & _ & _ & fl & tl & Hem & Hfl & Htl).
  assert (batchCh st = []) as Hnil.
  { destruct (batchCh st); [done|]. exfalso. by apply Hch. }
  unfold emitted in *. rewrite Hnil, app_nil_r in *.
  rewrite Hb, Hin, Hp, !app_nil_r in Hrows.
  rewrite Hem in *. by apply shape_partitions.
Qed.

Lemma workers_exit pe ic b ac (n : nat) :
  ∀ rs d, (length rs ≤ n)%nat →
    rtc (step p) (Build_State pe ic b ac [] [] true rs d)
                 (Build_State pe ic b ac [] [] true [] d).
Proof.
  induction n as [|n IH]; intros rs d Hn.
  - destruct rs; [done | simpl in Hn; lia].
  - destruct rs as [|i rs]; [done|].
    eapply rtc_l.
    + apply (step_worker_exit p i (Build_State pe ic b ac [] [] true (i :: rs) d));
        simpl; [apply elem_of_cons; by left | done | done].
    + simpl. apply IH. rewrite filter_cons_False by tauto.
      etrans; [apply length_filter|]. simpl in Hn. lia.
Qed.

Lemma schedule (Hw : 0 < workers p) (l : list Row) :
  ∀ bt d, ∃ st,
    rtc (step p) (Build_State l [] false AccRecv bt [] false
                    (seq 0 (Z.to_nat (workers p))) d) st ∧
    finished st.
Proof.
  assert (0%nat ∈ seq 0 (Z.to_nat (workers p))) as H0.
  { apply elem_of_seq. lia. }
  set (ws := seq 0 (Z.to_nat (workers p))) in *.
  induction l as [|r l IH]; intros bt d.
  - destruct bt as [|r0 bt].
    + eexists. split.
      * eapply rtc_l; [by apply (step_close p (Build_State [] [] false AccRecv [] [] false ws d))|]; simpl.
        eapply rtc_l; [by apply (step_acc_closed p (Build_State [] [] true AccRecv [] [] false ws d))|]; simpl.
        eapply rtc_l; [by apply (step_flush_empty p true (Build_State [] [] true (AccFlush true) [] [] false ws d))|]; simpl.
        apply (workers_exit _ _ _ _ (length ws)). done.
      * done.
    + eexists. split.
      * eapply rtc_l; [by apply (step_close p (Build_State [] [] false AccRecv (r0 :: bt) [] false ws d))|]; simpl.
        eapply rtc_l; [by apply (step_acc_closed p (Build_State [] [] true AccRecv (r0 :: bt) [] false ws d))|]; simpl.
        eapply rtc_l; [by apply (step_flush_handoff p true 0%nat (Build_State [] [] true (AccFlush true) (r0 :: bt) [] false ws d))|]; simpl.
        apply (workers_exit _ _ _ _ (length ws)). done.
      * done.
  - destruct (after_append p (bt ++ [r])) as [|final|] eqn:E.
    + destruct (IH (bt ++ [r]) d) as (st & Hst & Hfin).
      exists st. split; [|done].
      eapply rtc_l; [|exact Hst].
      pose proof (step_submit_handoff p r (Build_State (r :: l) [] false AccRecv bt [] false ws d)) as Hs.
      simpl in Hs. rewrite E in Hs. by apply Hs.
    + assert (final = false) as ->.
      { unfold after_append in E. by case_match; simplify_eq. }
      destruct (IH [] (d ++ [(0%nat, bt ++ [r])])) as (st & Hst & Hfin).
      exists st. split; [|done].
      eapply rtc_l.
      { pose proof (step_submit_handoff p r (Build_State (r :: l) [] false AccRecv bt [] false ws d)) as Hs.
        simpl in Hs. rewrite E in Hs. by apply Hs. }
      eapply rtc_l; [|exact Hst].
      pose proof (step_flush_handoff p false 0%nat (Build_State l [] false (AccFlush false) (bt ++ [r]) [] false ws d)) as Hs.
      simpl in Hs. apply Hs; try done. by destruct bt.
    + unfold after_append in E. by case_match.
Qed.

Lemma run_exists (Hw : 0 < workers p) rows : ∃ st, run p rows st.
Proof. apply (schedule Hw rows [] []). Qed.
End worker_proofs.

Section worker_examples.
Import Worker WorkerInv.

(** Three rows and a batch size of two: every complete run delivers the first
    two rows in one batch and the third in another. *)
Example three_rows_two_batches (r1 r2 r3 : Row) (w : Z) (st : State) :
  run {| workers := w; batchSize := 2 |} [r1; r2; r3] st →
  batches st = [[r1; r2]; [r3]].
Proof.
  intros Hrun.
  destruct (finished_partitions {| workers := w; batchSize := 2 |} ltac:(simpl; lia) _ _ Hrun)
    as (Hcat & _ & Hfull & Hsize & Hlast & _).
  simpl in *.
  destruct (batches st) as [|b1 bs]; [done|].
  assert (length b1 = 2%nat) as Hb1.
  { destruct bs as [|b2 bs].
    - simpl in Hcat. rewrite app_nil_r in Hcat. subst b1.
      destruct Hlast as (b & Hb & Hl); [done|]. injection Hb as <-. done.
    - apply (Hfull 0%nat); [done|simpl; lia]. }
  destruct b1 as [|x1 [|x2 [|? ?]]]; try done. simpl in Hcat.
  injection Hcat as -> -> Hcat.
  destruct bs as [|b2 bs]; [done|].
  pose proof (f_equal length Hcat) as Hlen. simpl in Hlen. rewrite length_app in Hlen.
  destruct bs as [|b3 bs].
  - simpl in Hcat. rewrite app_nil_r in Hcat. by subst b2.
  - exfalso. specialize (Hfull 1%nat b2 eq_refl ltac:(simpl; lia)). lia.
Qed.
End worker_examples.

(** C1 (batch completeness).  Let the batch size of the pool be at least 1 and
    let no batch fail and nobody cancel.  Then in every complete run over
    [rows], whatever the interleaving of producer, accumulator and workers, the
    batches handed to [processBatch] concatenate, in the order in which the
    workers received them, to [rows]: every row sits in exactly one batch.  The sizes of the batches add
    up to the number R of rows, every batch but the last has exactly B rows,
    no batch is empty or larger than B, and when R mod B is not zero the last
    batch has R mod B rows (otherwise every batch is full).  With at least one
    worker such a complete run exists. *)
Theorem batch_completeness (p : Worker.Pool) (rows : list Row) :
  1 ≤ Worker.batchSize p →
  (0 < Worker.workers p → ∃ st, Worker.run p rows st) ∧
  (∀ st, Worker.run p rows st →
         WorkerInv.partitions (Z.to_nat (Worker.batchSize p)) rows (Worker.batches st)).
Proof.
  intros HB. split.
  - intros Hw. by apply run_exists.
  - intros st. by apply finished_partitions.
Qed.

Lemma batch_completeness_witness :
  let p := {| Worker.workers := 1; Worker.batchSize := 2 |} in
  let rows := [[VInt 1]; [VInt 2]; [VInt 3]] in
  1 ≤ Worker.batchSize p ∧
  (0 < Worker.workers p → ∃ st, Worker.run p rows st) ∧
  (∀ st, Worker.run p rows st →
         WorkerInv.partitions (Z.to_nat (Worker.batchSize p)) rows (Worker.batches st)).
Proof.
  split; [simpl; lia|].
  apply (batch_completeness {| Worker.workers := 1; Worker.batchSize := 2 |}). simpl. lia.
Defined.

(** ** Configuration *)

Section config_proofs.
Import Config ConfigAux.

Example Ext_samples :
  Ext "data/in.file.CSV" = ".CSV" ∧ Ext "dir.d/noext" = "" ∧
  Ext "a/.hidden" = ".hidden" ∧ Ext "trailing." = "." ∧ Ext "" = "".
Proof. repeat split; reflexivity. Qed.

Example detect_samples :
  detectFormat fs0 "x/y.CSV" = Ok "csv" ∧
  detectFormat fs0 "y.NdJson" = Ok "jsonl" ∧
  detectFormat fs0 "book" = Ok "xlsx" ∧
  detectFormat fs0 "legacy" = Err xls_magic_error ∧
  detectFormat fs0 "odd" = Ok "csv" ∧
  detectFormat fs0 "plain" = Ok "csv" ∧
  detectFormat fs0 "empty.dat" = Err unreadable_error.
Proof. repeat split; vm_compute; reflexivity. Qed.

Lemma Ext_scan_plain (l r acc : bytes) :
  Forall (λ c, c ≠ "/"%char ∧ c ≠ "."%char) l →
  Ext_scan (rev l ++ r) acc = Ext_scan r (l ++ acc).
Proof.
  revert r. induction l as [|x l IH]; intros r Hl; [done|].
  inversion Hl as [|? ? [Hx1 Hx2] Hl']; subst.
  simpl rev. rewrite <- app_assoc. simpl app. rewrite IH by done.
  simpl. by rewrite !bool_decide_eq_false_2 by done.
Qed.

(** The extension of a path that ends in a dot followed by [e], where [e]
    has no dot and no separator, is the dot with [e]. *)
Lemma Ext_suffix (stem e : bytes) :
  Forall (λ c, c ≠ "/"%char ∧ c ≠ "."%char) e →
  Ext (String.string_of_list_ascii (stem ++ "."%char :: e))
  = String.string_of_list_ascii ("."%char :: e).
Proof.
  intros He. unfold Ext. rewrite String.list_ascii_of_string_of_list_ascii.
  rewrite rev_app_distr. simpl rev. rewrite <- app_assoc. simpl app.
  rewrite Ext_scan_plain by done. simpl. by rewrite app_nil_r.
Qed.
Lemma byte_is (c : ascii) (n : N) :
  (n < 256)%N → (N_of_ascii c =? n)%N = true ↔ c = ascii_of_N n.
Proof.
  intros Hn. rewrite N.eqb_eq. split.
  - intros <-. by rewrite ascii_N_embedding.
  - intros ->. by rewrite N_ascii_embedding.
Qed.

Lemma length_take_le {A} (l : list A) n : (length (take n l) ≤ n)%nat.
Proof. rewrite length_take. lia. Qed.

Lemma test4_prefix (content : bytes) (m : Z) (b0 b1 b2 b3 : N) :
  4 ≤ m ≤ 512 → (b0 < 256)%N → (b1 < 256)%N → (b2 < 256)%N → (b3 < 256)%N →
  let got := take 512 content in
  test4 (got ++ replicate (512 - length got) zero) (Z.of_nat (length got)) m b0 b1 b2 b3 = true
  ↔ (ascii_of_N <$> [b0; b1; b2; b3]) `prefix_of` content ∧ m ≤ Z.of_nat (length content).
Proof.
  intros Hm H0 H1 H2 H3 got. unfold test4.
  rewrite !andb_true_iff, Z.leb_le.
  assert (m ≤ Z.of_nat (length got) ↔ m ≤ Z.of_nat (length content)) as Hlen.
  { subst got. rewrite length_take. lia. }
  destruct content as [|c0 [|c1 [|c2 [|c3 rest]]]].
  1-4: subst got; simpl in *; split; [intros; lia | intros [_ ?]; lia].
  assert (∀ i, (i < 4)%nat →
    at_ (got ++ replicate (512 - length got) zero) i = N_of_ascii (nth i [c0; c1; c2; c3] zero)) as Hat.
  { intros i Hi. subst got. unfold at_.
    change (take 512 (c0 :: c1 :: c2 :: c3 :: rest)) with (c0 :: c1 :: c2 :: c3 :: take 508 rest).
    do 4 (destruct i as [|i]; [done|]). lia. }
  rewrite !Hat by lia. simpl nth.
  rewrite !byte_is by done. rewrite Hlen. split.
  - intros ((((? & ->) & ->) & ->) & ->). split; [|done]. by exists rest.
  - intros [[k Hk] ?]. simpl in Hk. by simplify_eq.
Qed.

Lemma ext_unknown (ext : string) :
  ext ∉ known_exts →
  String.eqb ext ".csv" = false ∧ String.eqb ext ".tsv" = false ∧
  String.eqb ext ".jsonl" = false ∧ String.eqb ext ".ndjson" = false ∧
  String.eqb ext ".xlsx" = false ∧ String.eqb ext ".xls" = false ∧
  String.eqb ext ".json" = false.
Proof.
  unfold known_exts. rewrite !not_elem_of_cons. intros (?&?&?&?&?&?&?&_).
  by rewrite !String.eqb_neq.
Qed.

Lemma detect_unknown_ext fs path :
  ToLower (Ext path) ∉ known_exts →
  detectFormat fs path =
    match read_header (fs path) with
    | None => Err (open_error path (fs path))
    | Some (header, n, err) =>
        if err && (n =? 0) then Err unreadable_error
        else if test4 header n 4 0x50 0x4B 0x03 0x04 then Ok "xlsx"
        else if test4 header n 8 0xD0 0xCF 0x11 0xE0 then Err xls_magic_error
        else Ok "csv"
    end.
Proof.
  intros (E1&E2&E3&E4&E5&E6&E7)%ext_unknown. unfold detectFormat.
  by rewrite E1, E2, E3, E4, E5, E6, E7.
Qed.

Lemma detect_sniff fs path content :
  ToLower (Ext path) ∉ known_exts →
  fs path = Regular content → content ≠ [] →
  detectFormat fs path =
    if decide (zip_signature `prefix_of` content) then Ok "xlsx"
    else if decide (ole2_prefix `prefix_of` content ∧ 8 ≤ Z.of_nat (length content))
         then Err xls_magic_error
         else Ok "csv".
Proof.
  intros Hext Hfs Hne. rewrite detect_unknown_ext by done. rewrite Hfs. simpl.
  rewrite bool_decide_eq_false_2; [simpl|by destruct content].
  pose proof (test4_prefix content 4 0x50 0x4B 0x03 0x04
                ltac:(lia) ltac:(lia) ltac:(lia) ltac:(lia) ltac:(lia)) as Hzip.
  pose proof (test4_prefix content 8 0xD0 0xCF 0x11 0xE0
                ltac:(lia) ltac:(lia) ltac:(lia) ltac:(lia) ltac:(lia)) as Hole.
  simpl in Hzip, Hole.
  fold zip_signature in Hzip. fold ole2_prefix in Hole.
  destruct (test4 _ _ 4 _ _ _ _) eqn:Ez.
  - rewrite decide_True; [done|]. by apply Hzip.
  - rewrite decide_False.
    2:{ intros Hp. assert (4 ≤ Z.of_nat (length content)).
        { destruct Hp as [k ->]. rewrite length_app. simpl. lia. }
        assert (false = true); [|done]. by apply Hzip. }
    destruct (test4 _ _ 8 _ _ _ _) eqn:Eo.
    + rewrite decide_True; [done|]. by apply Hole.
    + rewrite decide_False; [done|]. intros Hp.
      assert (false = true); [|done]. by apply Hole.
Qed.

(** C3, amended (format detection).  [detectFormat] decides on the extension
    first, compared without regard to case: .csv gives csv, .tsv gives tsv,
    .jsonl and .ndjson give jsonl, .xlsx gives xlsx, .xls is refused with a
    message naming the legacy Excel format and .json with a message asking
    for JSONL.  Only for another extension is the file opened and up to 512
    bytes read: a file that cannot be opened, a directory and an empty file
    are refused; otherwise the answer is xlsx when the content starts with
    the ZIP local-file-header signature, a refusal when at least eight bytes
    were read of which the first four are D0 CF 11 E0 (which holds of every
    content that starts with the OLE2 signature), and csv in every other
    case. *)
Theorem detectFormat_order (fs : FS) (path : string) :
  let ext := ToLower (Ext path) in
  (ext = ".csv" → detectFormat fs path = Ok "csv") ∧
  (ext = ".tsv" → detectFormat fs path = Ok "tsv") ∧
  (ext = ".jsonl" ∨ ext = ".ndjson" → detectFormat fs path = Ok "jsonl") ∧
  (ext = ".xlsx" → detectFormat fs path = Ok "xlsx") ∧
  (ext = ".xls" → detectFormat fs path = Err xls_ext_error) ∧
  (ext = ".json" → detectFormat fs path = Err json_ext_error) ∧
  (ext ∉ known_exts →
     match fs path with
     | Missing | Denied _ =>
         detectFormat fs path = Err (open_error path (fs path))
     | Directory | Regular [] =>
         detectFormat fs path = Err unreadable_error
     | Regular content =>
         (zip_signature `prefix_of` content → detectFormat fs path = Ok "xlsx") ∧
         (ole2_signature `prefix_of` content →
            detectFormat fs path = Err xls_magic_error) ∧
         (ole2_prefix `prefix_of` content ∧ 8 ≤ Z.of_nat (length content) →
            detectFormat fs path = Err xls_magic_error) ∧
         (¬ (zip_signature `prefix_of` content) →
          ¬ (ole2_prefix `prefix_of` content ∧ 8 ≤ Z.of_nat (length content)) →
            detectFormat fs path = Ok "csv")
     end).
Proof.
  intros ext. split_and!.
  - intros H. unfold detectFormat. fold ext. by rewrite H.
  - intros H. unfold detectFormat. fold ext. by rewrite H.
  - intros [H|H]; unfold detectFormat; fold ext; by rewrite H.
  - intros H. unfold detectFormat. fold ext. by rewrite H.
  - intros H. unfold detectFormat. fold ext. by rewrite H.
  - intros H. unfold detectFormat. fold ext. by rewrite H.
  - intros Hext. destruct (fs path) as [|msg| |content] eqn:Hfs.
    + rewrite detect_unknown_ext by done. by rewrite Hfs.
    + rewrite detect_unknown_ext by done. by rewrite Hfs.
    + rewrite detect_unknown_ext by done. by rewrite Hfs.
    + destruct content as [|c0 content].
      { rewrite detect_unknown_ext by done. by rewrite Hfs. }
      rewrite (detect_sniff fs path (c0 :: content)) by done.
      assert (ole2_signature `prefix_of` c0 :: content →
              ole2_prefix `prefix_of` c0 :: content ∧
              ¬ (zip_signature `prefix_of` c0 :: content) ∧
              8 ≤ Z.of_nat (length (c0 :: content))) as Hsig.
      { intros [k Hk]. rewrite Hk. split_and!.
        - by exists (drop 4 ole2_signature ++ k).
        - intros [k' Hk']. discriminate Hk'.
        - rewrite length_app. simpl. lia. }
      split_and!.
      * intros Hz. by rewrite decide_True.
      * intros (Hp & Hz & Hl)%Hsig. rewrite decide_False by done. by rewrite decide_True.
      * intros [Hp Hl]. rewrite decide_False.
        { by rewrite decide_True. }
        intros [k Hk]. destruct Hp as [k' Hk']. rewrite Hk in Hk'. discriminate Hk'.
      * intros Hz Ho. by rewrite !decide_False.
Qed.

Lemma detectFormat_order_witness :
  detectFormat fs0 "x/y.CSV" = Ok "csv" ∧
  detectFormat fs0 "plain" = Ok "csv".
Proof.
  split.
  - apply (detectFormat_order fs0 "x/y.CSV"). reflexivity.
  - pose proof (detectFormat_order fs0 "plain") as (_&_&_&_&_&_&H).
    apply H.
    + unfold known_exts. rewrite !not_elem_of_cons.
      split_and!; [by vm_compute..|apply not_elem_of_nil].
    + intros [k Hk]. discriminate Hk.
    + intros [[k Hk] _]. discriminate Hk.
Defined.

(** C3, counterexample: for an empty file whose extension decides nothing
    and whose content bears neither signature, [detectFormat] does not
    answer csv but fails, the file being unreadable. *)
Lemma detectFormat_empty_file_not_csv :
  (ToLower (Ext "empty.dat") ∉ known_exts) ∧
  fs0 "empty.dat" = Regular [] ∧
  ¬ (zip_signature `prefix_of` ([] : bytes)) ∧
  ¬ (ole2_signature `prefix_of` ([] : bytes)) ∧
  detectFormat fs0 "empty.dat" = Err unreadable_error ∧
  detectFormat fs0 "empty.dat" ≠ Ok "csv".
Proof.
  split_and!; try done.
  - unfold known_exts. rewrite !not_elem_of_cons.
    split_and!; [by vm_compute..|apply not_elem_of_nil].
  - intros [k Hk]. discriminate Hk.
  - intros [k Hk]. discriminate Hk.
Qed.

Lemma validateImport_BatchSize fs c :
  BatchSize (validateImport fs c).2 = BatchSize c.
Proof. unfold validateImport. repeat case_match; done. Qed.

Lemma validateExport_BatchSize c :
  BatchSize (validateExport c).2 = BatchSize c.
Proof. unfold validateExport. repeat case_match; done. Qed.

Lemma validate_mode_BatchSize fs (c : Config) :
  BatchSize (if String.eqb (Mode c) "import" then validateImport fs c
             else validateExport c).2 = BatchSize c.
Proof. case_match; [apply validateImport_BatchSize|apply validateExport_BatchSize]. Qed.

Lemma progress_default_BatchSize (c : Config) :
  BatchSize (if ProgressEvery c <=? 0 then set_ProgressEvery 100000 c else c)
  = BatchSize c.
Proof. by case_match. Qed.

(** What [Validate] leaves in [BatchSize]: the default when the value was
    not positive and the check was reached, the value itself otherwise. *)
Lemma Validate_BatchSize fs (c : Config) :
  BatchSize (Validate fs c).2 = BatchSize c ∨
  (BatchSize c ≤ 0 ∧ BatchSize (Validate fs c).2 = 5000).
Proof.
  unfold Validate. cbv zeta.
  destruct (negb _ && negb _); [by left|].
  destruct (String.eqb (DSN c) ""); [by left|].
  destruct (Z.leb_spec (BatchSize c) 0) as [Hle|Hgt].
  - right. split; [done|].
    destruct (50000 <? _); [done|]. destruct (Workers _ <? 0); [done|].
    by rewrite validate_mode_BatchSize, progress_default_BatchSize.
  - left. destruct (50000 <? BatchSize c); [done|].
    destruct (Workers c <? 0); [done|].
    by rewrite validate_mode_BatchSize, progress_default_BatchSize.
Qed.

Lemma Validate_ok_BatchSize fs (c : Config) :
  (Validate fs c).1 = None →
  BatchSize c ≤ 50000 ∧
  BatchSize (Validate fs c).2 = if BatchSize c <=? 0 then 5000 else BatchSize c.
Proof.
  unfold Validate. cbv zeta.
  destruct (negb _ && negb _); [done|].
  destruct (String.eqb (DSN c) ""); [done|].
  destruct (Z.leb_spec (BatchSize c) 0) as [Hle|Hgt].
  - destruct (50000 <? _); [done|]. destruct (Workers _ <? 0); [done|].
    intros _. split; [lia|].
    by rewrite validate_mode_BatchSize, progress_default_BatchSize.
  - destruct (Z.ltb_spec 50000 (BatchSize c)) as [?|?]; [done|].
    destruct (Workers c <? 0); [done|].
    intros _. split; [lia|].
    by rewrite validate_mode_BatchSize, progress_default_BatchSize.
Qed.

(** C6, amended (batch size).  After a successful [Validate] the batch size
    lies in 1..50000; a value that was unset or not positive has become the
    default 5000; a value in 1..50000 is never altered; a value above 50000
    is not clamped: [Validate] fails and leaves the value as it was.  The
    error is then [batch_size too large], naming the value, unless the
    mode or the DSN, which are checked before the batch size, is invalid
    already: then it is the error of that check. *)
Theorem Validate_batch_size (fs : FS) (c : Config) :
  let r := Validate fs c in
  (r.1 = None → 1 ≤ BatchSize r.2 ≤ 50000) ∧
  (r.1 = None → BatchSize c ≤ 0 → BatchSize r.2 = 5000) ∧
  (1 ≤ BatchSize c ≤ 50000 → BatchSize r.2 = BatchSize c) ∧
  (50000 < BatchSize c →
     r.1 ≠ None ∧ BatchSize r.2 = BatchSize c ∧
     r = (Some (if negb (String.eqb (Mode c) "import")
                   && negb (String.eqb (Mode c) "export")
                then "mode must be 'import' or 'export', got: " +:+ Mode c
                else if String.eqb (DSN c) "" then "dsn is required"
                else "batch_size too large (max 50000): " +:+ pretty (BatchSize c)),
          c)).
Proof.
  intros r. subst r.
  pose proof (Validate_BatchSize fs c) as Hb.
  pose proof (Validate_ok_BatchSize fs c) as Hok.
  split_and!.
  - intros [Hle ->]%Hok. case_match; lia.
  - intros [_ ->]%Hok Hle. case_match; lia.
  - lia.
  - intros Hbig. split; [|split; [lia|]].
    { intros [Hle _]%Hok. lia. }
    unfold Validate.
    destruct (negb (String.eqb (Mode c) "import") && negb (String.eqb (Mode c) "export"));
      [done|].
    destruct (String.eqb (DSN c) ""); [done|].
    rewrite (proj2 (Z.leb_gt (BatchSize c) 0)) by lia.
    by rewrite (proj2 (Z.ltb_lt 50000 (BatchSize c))) by lia.
Qed.

Lemma Validate_batch_size_witness :
  (Validate fs0 (cfg_export 0)).1 = None ∧
  1 ≤ BatchSize (Validate fs0 (cfg_export 0)).2 ≤ 50000 ∧
  BatchSize (Validate fs0 (cfg_export 0)).2 = 5000 ∧
  BatchSize (Validate fs0 (cfg_export 7)).2 = 7 ∧
  Validate fs0 (cfg_export 60000)
  = (Some "batch_size too large (max 50000): 60000", cfg_export 60000).
Proof.
  pose proof (Validate_batch_size fs0 (cfg_export 0)) as (H1 & H2 & _).
  pose proof (Validate_batch_size fs0 (cfg_export 7)) as (_ & _ & H3 & _).
  pose proof (Validate_batch_size fs0 (cfg_export 60000)) as (_ & _ & _ & H4).
  split; [|split; [|split; [|split]]].
  - reflexivity.
  - apply H1. reflexivity.
  - apply H2; [reflexivity | simpl; lia].
  - apply H3. simpl. lia.
  - destruct H4 as (_ & _ & H4); [simpl; lia|]. exact H4.
Defined.

(** C6, counterexample: with a batch size of 60000 and every other field
    valid, [Validate] fails with [batch_size too large] and the batch size is
    still 60000, not 50000. *)
Lemma Validate_rejects_60000 :
  Validate fs0 (cfg_export 60000) =
    (Some "batch_size too large (max 50000): 60000", cfg_export 60000) ∧
  BatchSize (Validate fs0 (cfg_export 60000)).2 ≠ 50000.
Proof. split; [reflexivity | by vm_compute]. Qed.
End config_proofs.

(** ** When the CSV reader reports the end of the input *)

Section gocsv_eof.
Import GoCSV GoCSVAux.

Lemma ReadSlice_cons (c : ascii) (rest : bytes) :
  c ≠ NL →
  ReadSlice (c :: rest) = (c :: fline rest, frest rest, (ReadSlice rest).2).
Proof.
  intros Hc. unfold fline, frest. simpl. rewrite bool_decide_eq_false_2 by done.
  by destruct (ReadSlice rest) as [[line rest'] found].
Qed.

Lemma ReadSlice_not_found (s : bytes) :
  (ReadSlice s).2 = false → NL ∉ fline s.
Proof.
  unfold fline. induction s as [|c s IH]; simpl.
  - intros _. apply not_elem_of_nil.
  - case_bool_decide as Hc; [done|].
    destruct (ReadSlice s) as [[line rest'] found]. simpl in *.
    intros Hf. apply not_elem_of_cons. split; [congruence|]. by apply IH.
Qed.

Lemma fline_cons_ne_nil (c : ascii) (s : bytes) : fline (c :: s) ≠ [].
Proof.
  unfold fline. simpl. case_bool_decide; [done|].
  by destruct (ReadSlice s) as [[line rest'] found].
Qed.

Lemma fline_head (c : ascii) (s : bytes) : head (fline (c :: s)) = Some c.
Proof.
  unfold fline. simpl. case_bool_decide; [done|].
  by destruct (ReadSlice s) as [[line rest'] found].
Qed.

Lemma head_take {A} (n : nat) (l : list A) : head (take (S n) l) = head l.
Proof. by destruct l. Qed.

Lemma in_take_drop {A} (x : A) (n : nat) (l : list A) :
  x ∈ take n l ∨ x ∈ drop n l → x ∈ l.
Proof. intros H. rewrite <- (take_drop n l). by apply elem_of_app. Qed.

Lemma normalize_crlf_head (l : bytes) (c : ascii) :
  head l = Some c → l ≠ [CR; NL] → head (normalize_crlf l) = Some c.
Proof.
  intros Hh Hne. unfold normalize_crlf.
  destruct ((2 <=? length l)%nat && bool_decide (drop (length l - 2) l = [CR; NL]))
    eqn:E; [|done].
  apply andb_true_iff in E as [Hlen Hd].
  apply Nat.leb_le in Hlen. apply bool_decide_eq_true in Hd.
  destruct (decide (length l = 2%nat)) as [H2|H2].
  { rewrite H2 in Hd. simpl in Hd. by rewrite drop_0 in Hd. }
  replace (length l - 2)%nat with (S (length l - 3)) by lia.
  destruct l as [|x l]; [done|]. simpl in *. done.
Qed.

Lemma normalize_crlf_no_NL (l : bytes) : NL ∉ l → normalize_crlf l = l.
Proof.
  intros Hn. unfold normalize_crlf.
  destruct ((2 <=? length l)%nat && bool_decide (drop (length l - 2) l = [CR; NL]))
    eqn:E; [|done].
  apply andb_true_iff in E as [_ Hd]. apply bool_decide_eq_true in Hd.
  exfalso. apply Hn. apply (in_take_drop _ (length l - 2)). right.
  rewrite Hd. by repeat constructor.
Qed.

Lemma drop_last_head (l : bytes) (c : ascii) :
  head l = Some c → l ≠ [CR] → head (drop_last_if CR l) = Some c.
Proof.
  intros Hh Hne. unfold drop_last_if.
  destruct (last l) as [c'|] eqn:Hl; [|done].
  case_bool_decide as Hc; [|done]. subst c'.
  destruct l as [|x [|y l]]; [done| |].
  - simpl in Hl. by simplify_eq.
  - simpl length. replace (S (S (length l)) - 1)%nat with (S (S (length l) - 1)) by lia.
    by rewrite head_take.
Qed.

Lemma drop_last_no_NL (l : bytes) : NL ∉ l → NL ∉ drop_last_if CR l.
Proof.
  intros Hn. unfold drop_last_if.
  destruct (last l) as [c'|]; [|done]. case_bool_decide; [|done].
  intros Hin. apply Hn. eapply in_take_drop. by left.
Qed.

Lemma head_not_NL (l : bytes) (c : ascii) :
  head l = Some c → c ≠ NL → (length l =? lengthNL l)%nat = false.
Proof.
  intros Hh Hc. apply Nat.eqb_neq. unfold lengthNL.
  destruct l as [|x [|y l]]; [done| |].
  - simpl in *. simplify_eq. by rewrite bool_decide_eq_false_2.
  - destruct (last (x :: y :: l)) as [z|]; [case_bool_decide|]; simpl; lia.
Qed.

(** A line that is not empty is not skipped. *)
Lemma readLine_nonblank (r : Reader) (c : ascii) (rest : bytes) :
  src r = c :: rest → c ≠ NL →
  (c = CR → ∃ c' rest', rest = c' :: rest' ∧ c' ≠ NL) →
  (readLine r).1.2 ≠ EOF ∧
  ((readLine r).1.2 = NoErr →
   (length (readLine r).1.1 =? lengthNL (readLine r).1.1)%nat = false).
Proof.
  intros Hsrc Hc Hcr. unfold readLine. rewrite Hsrc, (ReadSlice_cons c rest Hc).
  assert (c :: fline rest ≠ [CR; NL]) as Hne2.
  { intros [= -> Hf]. destruct (Hcr eq_refl) as (c' & rest' & -> & Hc').
    pose proof (fline_head c' rest') as Hh. rewrite Hf in Hh. simpl in Hh. congruence. }
  assert (c :: fline rest ≠ [CR]) as Hne1.
  { intros [= -> Hf]. destruct (Hcr eq_refl) as (c' & rest' & -> & Hc').
    by apply (fline_cons_ne_nil c' rest'). }
  destruct (ReadSlice rest).2 eqn:Hfound; simpl.
  - split; [done|]. intros _. eapply head_not_NL; [|exact Hc].
    by apply normalize_crlf_head.
  - pose proof (ReadSlice_not_found rest Hfound) as Hno.
    assert (NL ∉ c :: fline rest) as Hno'.
    { apply not_elem_of_cons. by split. }
    unfold end_err. destruct (src_err r) as [msg|]; simpl; [done|].
    split; [done|]. intros _. eapply head_not_NL; [|exact Hc].
    rewrite normalize_crlf_no_NL by (by apply drop_last_no_NL).
    by apply drop_last_head.
Qed.

Lemma skipEmpty_unfold (fuel : nat) (r : Reader) :
  skipEmpty (S fuel) r =
    match (readLine r).1.2 with
    | NoErr =>
        if (length (readLine r).1.1 =? lengthNL (readLine r).1.1)%nat
        then skipEmpty fuel (readLine r).2
        else readLine r
    | _ => readLine r
    end.
Proof.
  simpl. destruct (readLine r) as [[line errRead] r'].
  simpl. by destruct errRead.
Qed.

Lemma only_blank_nonblank (c : ascii) (rest : bytes) :
  c ≠ NL → (c = CR → ∃ c' rest', rest = c' :: rest' ∧ c' ≠ NL) →
  only_blank_lines (c :: rest) = false.
Proof.
  intros Hc Hcr. simpl. rewrite bool_decide_eq_false_2 by done.
  case_bool_decide as Hc'; [|done].
  destruct (Hcr Hc') as (c' & rest' & -> & Hne).
  by rewrite bool_decide_eq_false_2.
Qed.

(** The first loop of [readRecord] ends with [io.EOF] exactly when the
    input left holds only empty lines and the underlying reader ends
    without an error. *)
Lemma skipEmpty_EOF (fuel : nat) (r : Reader) :
  (length (src r) < fuel)%nat →
  (skipEmpty fuel r).1.2 = EOF ↔
  src_err r = None ∧ only_blank_lines (src r) = true.
Proof.
  revert r. induction fuel as [|fuel IH]; intros r Hfuel; [lia|].
  rewrite skipEmpty_unfold.
  destruct (src r) as [|c rest] eqn:Hsrc.
  { unfold readLine, end_err. rewrite Hsrc. simpl.
    destruct (src_err r) as [msg|]; simpl; [|done].
    split; [done|]. by intros [[=] _]. }
  destruct (decide (c = NL)) as [->|Hc].
  { unfold readLine. rewrite Hsrc. simpl. rewrite IH by (simpl in *; lia). done. }
  assert ((c = CR ∧ rest = []) ∨ (c = CR ∧ ∃ rest', rest = NL :: rest') ∨
          (c = CR → ∃ c' rest', rest = c' :: rest' ∧ c' ≠ NL))
    as [[-> ->]|[[-> [rest' ->]]|Hcr]].
  { destruct (decide (c = CR)) as [->|Hcr]; [|by right; right].
    destruct rest as [|c' rest']; [by left|].
    destruct (decide (c' = NL)) as [->|Hc']; [right; left; eauto|].
    right; right. eauto. }
  - (* a last carriage return *)
    unfold readLine, end_err. rewrite Hsrc. simpl.
    destruct (src_err r) as [msg|] eqn:He; simpl.
    { split; [done|]. by intros [[=] _]. }
    destruct fuel as [|fuel]; [simpl in *; lia|].
    rewrite skipEmpty_unfold. unfold readLine, end_err. simpl. rewrite ?He. simpl.
    done.
  - (* an empty line that ends in a carriage return and a line feed *)
    unfold readLine. rewrite Hsrc. simpl. rewrite IH by (simpl in *; lia). done.
  - destruct (readLine_nonblank r c rest Hsrc Hc Hcr) as [Hne Htest].
    rewrite (only_blank_nonblank c rest Hc Hcr).
    destruct (readLine r).1.2 eqn:Herr; [|done|].
    + rewrite (Htest eq_refl). rewrite Herr. split; [done|]. by intros [_ [=]].
    + rewrite Herr. split; [done|]. by intros [_ [=]].
Qed.

(** [Read] reports the end of the input exactly when the delimiter is
    valid, the input left holds only empty lines and the underlying reader
    ends without an error: as long as a record is left, it is a record or
    a failure that comes back. *)
Lemma Read_EOF (comma : ascii) (r : Reader) :
  (Read comma r).1 = ReadEOF ↔
  validDelim comma = true ∧ src_err r = None ∧ only_blank_lines (src r) = true.
Proof.
  unfold Read. destruct (validDelim comma) eqn:Hd; cbn [negb].
  2: { cbn [fst]. split; [done|]. by intros [[=] _]. }
  cbv zeta.
  pose proof (skipEmpty_EOF (S (S (length (src r)))) r ltac:(lia)) as Hiff.
  remember (S (S (length (src r)))) as fuel eqn:Hfuel. clear Hfuel.
  destruct (skipEmpty fuel r) as [[line errRead] r1].
  cbn [fst snd] in Hiff. rewrite <- Hiff.
  destruct errRead as [| |msg]; [|done|].
  all: split; [|by intros [_ [=]]].
  all: destruct (parseFields comma fuel AtField line _ r1 [])
         as [[[dst [| |m]] r2]|]; cbn [fst]; repeat case_match; done.
Qed.
End gocsv_eof.

(** ** Database connectors *)

Section db_proofs.
Import DB.

(** C10 (empty batch).  For both connectors, any table and any column set,
    [BatchInsert] with no rows returns no error, executes no statement and
    leaves the database as it was. *)
Theorem empty_batch_insert_noop (d : Dialect) (db : Database) (table : string)
    (columns : list string) :
  BatchInsert d db table columns [] = (None, db) ∧
  executed (BatchInsert d db table columns []).2 = executed db.
Proof. by destruct d. Qed.

(** A batch with rows makes one statement, which the database accepts or
    refuses. *)
Lemma batch_insert_one_statement (d : Dialect) db table columns row rows :
  ∃ stmt, let r := BatchInsert d db table columns (row :: rows) in
    executed r.2 = executed db ++ [stmt] ∧
    ((exec_result db stmt = None ∧ r.1 = None) ∨
     (∃ msg, exec_result db stmt = Some msg ∧
             r.1 = Some ("batch insert failed: " +:+ msg))).
Proof.
  destruct d; cbv zeta; unfold BatchInsert, PostgresBatchInsert, multiValueInsert,
    MySQLBatchInsert, ExecContext.
  - destruct (pg_values columns (row :: rows) []) as [groups args] eqn:E.
    exists (insert_query table columns groups, args).
    destruct (exec_result db _) as [msg|] eqn:Ex; simpl; (split; [done|]);
      [right; eauto | left; eauto].
  - destruct (mysql_values columns (row :: rows) []) as [groups args] eqn:E.
    exists (insert_query table columns groups, args).
    destruct (exec_result db _) as [msg|] eqn:Ex; simpl; (split; [done|]);
      [right; eauto | left; eauto].
Qed.
End db_proofs.

(** ** Importers *)

Section importer_proofs.
Import Importer ImporterAux.

(** *** Column discovery of the JSONL importer *)

Lemma decode_object_dom (members : list (string * Value)) (m : gmap string Value) key :
  is_Some (foldl (λ m kv, <[kv.1 := kv.2]> m) m members !! key)
  ↔ is_Some (m !! key) ∨ key ∈ members.*1.
Proof.
  revert m. induction members as [|[k v] members IH]; intros m; simpl.
  - rewrite elem_of_nil. tauto.
  - rewrite IH, elem_of_cons, lookup_insert_is_Some.
    destruct (decide (k = key)) as [->|Hne]; [tauto|].
    split; [intros [[?|[? ?]]|?]|intros [?|[?|?]]]; try tauto; congruence.
Qed.

Lemma map_keys_is_Some (m : gmap string Value) key :
  key ∈ map_keys m ↔ is_Some (m !! key).
Proof.
  unfold map_keys. rewrite list_elem_of_fmap. split.
  - intros ([k v] & -> & Hin%elem_of_map_to_list). eauto.
  - intros [v Hv]. exists (key, v). split; [done|]. by apply elem_of_map_to_list.
Qed.

Lemma map_keys_elem (members : list (string * Value)) key :
  key ∈ map_keys (decode_object members) ↔ key ∈ members.*1.
Proof.
  rewrite map_keys_is_Some. unfold decode_object.
  rewrite decode_object_dom, lookup_empty. split; [intros [[? [=]]|?]; done | by right].
Qed.

(** C4, amended (column discovery).  When the first line of a JSONL source
    decodes to an object, [Open] succeeds and returns, and stores, the keys
    of that object: each key once, and no other name.  Their order is the
    one in which Go's [range] visits the map, which the language leaves
    open; it need not be the order of the keys in the line. *)
Theorem JSONL_Open_columns (j : JSONLImporter) (sc : Scanner)
    (members : list (string * Value)) (rest : list Line) :
  range_order (jsonl_visit j) →
  jsonl_file j (jsonl_filePath j) = JFile sc →
  tokens sc = JObject members :: rest →
  ∃ columns st,
    Open j = Ok (columns, st) ∧
    jsonl_columns st = columns ∧
    columns = jsonl_visit j (map_keys (decode_object members)) ∧
    NoDup columns ∧
    (∀ key, key ∈ columns ↔ key ∈ members.*1).
Proof.
  intros Hvisit Hfile Htok. simpl. unfold JSONLOpenFile. rewrite Hfile, Htok. simpl.
  eexists _, _. split_and!; try done.
  - rewrite (Hvisit _). apply NoDup_fst_map_to_list.
  - intros key. rewrite (Hvisit _). apply map_keys_elem.
Qed.

Lemma JSONL_Open_columns_witness :
  ∃ columns st,
    Open (NewJSONLImporter ab_file reverse "in.jsonl") = Ok (columns, st) ∧
    jsonl_columns st = columns ∧
    columns = reverse (map_keys (decode_object [("a", VInt 1); ("b", VInt 2)])) ∧
    NoDup columns ∧
    (∀ key, key ∈ columns ↔ key ∈ [("a", VInt 1); ("b", VInt 2)].*1).
Proof.
  eapply (JSONL_Open_columns (NewJSONLImporter ab_file reverse "in.jsonl")).
  - intros keys. apply reverse_Permutation.
  - reflexivity.
  - reflexivity.
Defined.

(** C4, counterexample: for the first line [{"a":1,"b":2}], whose keys come in
    the order a, b, one admissible order of iteration makes [Open] return
    [b; a], and another one [a; b]: the order of the columns is not the
    order of insertion, and two opens of one source need not agree. *)
Lemma JSONL_Open_order_varies :
  range_order reverse ∧ range_order id ∧
  opened_columns (Open (NewJSONLImporter ab_file reverse "in.jsonl")) = Some ["b"; "a"] ∧
  opened_columns (Open (NewJSONLImporter ab_file id "in.jsonl")) = Some ["a"; "b"] ∧
  [("a", VInt 1); ("b", VInt 2)].*1 = ["a"; "b"].
Proof.
  split_and!.
  - intros keys. apply reverse_Permutation.
  - by intros keys.
  - by vm_compute.
  - by vm_compute.
  - done.
Qed.

(** *** The size ceiling of the XLSX importer *)

Lemma string_app_assoc (a b c : string) : (a +:+ b) +:+ c = a +:+ (b +:+ c).
Proof.
  induction a as [|x a IH]; [done|].
  change (String x ((a +:+ b) +:+ c) = String x (a +:+ (b +:+ c))). by f_equal.
Qed.

Lemma import_open_failure (w : World) pool fuel (config : Config) importer msg :
  select_importer w config = Ok importer →
  Open importer = Err msg →
  ∃ e, ImportData w pool fuel config = (Returned (Some e), []).
Proof.
  intros Hsel Hopen. unfold ImportData.
  destruct (DB.NewConnector _ _); [|by eexists].
  rewrite Hsel, Hopen. by eexists.
Qed.

(** C5, amended (size ceiling).  An XLSX file of more than 100 * 1024 * 1024
    bytes is refused by [Open] right after [os.Stat]: the workbook is never
    opened, the message ends with the advice to convert to CSV, and
    [ImportData] returns an error without submitting a row. *)
Theorem XLSX_size_ceiling (x : XLSXImporter) (size : Z) :
  xlsx_stat (xlsx_file x (xlsx_filePath x)) = Ok size →
  MaxXLSXSize < size →
  XLSXOpenTrace x = (Err (too_large_error size), [EvStat]) ∧
  Open x = Err (too_large_error size) ∧
  (EvOpenFile ∉ (XLSXOpenTrace x).2) ∧
  (∃ pre, too_large_error size = pre +:+ "Please convert to CSV for large files") ∧
  (∀ w pool fuel config,
     select_importer w config = Ok (OfXLSX x) →
     ∃ e, ImportData w pool fuel config = (Returned (Some e), [])).
Proof.
  intros Hstat Hsize.
  assert (XLSXOpenTrace x = (Err (too_large_error size), [EvStat])) as Htrace.
  { unfold XLSXOpenTrace. rewrite Hstat.
    destruct (Z.ltb_spec MaxXLSXSize size); [done|lia]. }
  split_and!.
  - done.
  - simpl. unfold XLSXOpenFile. by rewrite Htrace.
  - rewrite Htrace. simpl. rewrite list_elem_of_singleton. done.
  - exists ("XLSX file too large: " +:+ pretty size +:+ " bytes (max "
             +:+ pretty MaxXLSXSize +:+ " bytes). ").
    unfold too_large_error. by rewrite !string_app_assoc.
  - intros w pool fuel config Hsel.
    apply (import_open_failure w pool fuel config (OfXLSX x) (too_large_error size) Hsel).
    simpl. unfold XLSXOpenFile. by rewrite Htrace.
Qed.

Lemma XLSX_size_ceiling_witness :
  let x := xlsx_of_size 104857601 in
  XLSXOpenTrace x = (Err (too_large_error 104857601), [EvStat]) ∧
  Open x = Err (too_large_error 104857601) ∧
  (EvOpenFile ∉ (XLSXOpenTrace x).2) ∧
  (∃ pre, too_large_error 104857601 = pre +:+ "Please convert to CSV for large files") ∧
  (∀ w pool fuel config,
     select_importer w config = Ok (OfXLSX x) →
     ∃ e, ImportData w pool fuel config = (Returned (Some e), [])).
Proof.
  apply (XLSX_size_ceiling (xlsx_of_size 104857601) 104857601); [reflexivity|].
  unfold MaxXLSXSize. lia.
Defined.

(** C5, counterexample: a file of exactly 100 * 1024 * 1024 bytes passes
    the size check: the workbook is opened and its header returned. *)
Lemma XLSX_at_threshold_is_opened :
  MaxXLSXSize = 100 * 1024 * 1024 ∧
  opened_columns (Open (xlsx_of_size (100 * 1024 * 1024))) = Some ["id"; "name"] ∧
  EvOpenFile ∈ (XLSXOpenTrace (xlsx_of_size (100 * 1024 * 1024))).2.
Proof.
  split_and!; [done | by vm_compute |].
  vm_compute. apply elem_of_cons. right. apply elem_of_cons. by left.
Qed.

(** *** Padding of short rows *)

Lemma project_app (obj : option (gmap string Value)) (columns : list string) (pre : Row) :
  project obj columns (length pre) (pre ++ replicate (length columns) VNull)
  = pre ++ ((λ col, default VNull (map_get obj col)) <$> columns).
Proof.
  revert pre. induction columns as [|col columns IH]; intros pre; simpl; [done|].
  assert (∀ v : Value,
    <[length pre := v]> (pre ++ VNull :: replicate (length columns) VNull)
    = (pre ++ [v]) ++ replicate (length columns) VNull) as Hins.
  { intros v. rewrite insert_app_r_alt by lia. rewrite Nat.sub_diag. simpl.
    by rewrite <- app_assoc. }
  assert (S (length pre) = length (pre ++ [default VNull (map_get obj col)])) as Hlen.
  { rewrite length_app. simpl. lia. }
  destruct (map_get obj col) as [val|]; simpl in *;
    rewrite Hins, Hlen, IH, <- app_assoc; done.
Qed.

Lemma jsonl_row_spec (columns : list string) (obj : option (gmap string Value)) :
  jsonl_row columns obj = (λ col, default VNull (map_get obj col)) <$> columns.
Proof. apply (project_app obj columns []). Qed.

Lemma pad_cell_insert (cols : list string) (row : Row) (i : nat) :
  pad_cell cols row i = <[i := xlsx_cell cols i]> row.
Proof.
  unfold pad_cell, xlsx_cell. destruct (Nat.ltb_spec i (length cols)) as [Hlt|Hge].
  - destruct (lookup_lt_is_Some_2 cols i Hlt) as [s Hs]. rewrite Hs.
    by rewrite (nth_lookup_Some _ _ _ _ Hs).
  - by rewrite (lookup_ge_None_2 cols i Hge).
Qed.

Lemma pad_app (cols : list string) (n : nat) (pre : Row) :
  foldl (pad_cell cols) (pre ++ replicate n VNull) (seq (length pre) n)
  = pre ++ (xlsx_cell cols <$> seq (length pre) n).
Proof.
  revert pre. induction n as [|n IH]; intros pre; simpl; [done|].
  rewrite pad_cell_insert, insert_app_r_alt by lia. rewrite Nat.sub_diag. simpl.
  replace (pre ++ xlsx_cell cols (length pre) :: replicate n VNull)
    with ((pre ++ [xlsx_cell cols (length pre)]) ++ replicate n VNull)
    by (by rewrite <- app_assoc).
  replace (S (length pre)) with (length (pre ++ [xlsx_cell cols (length pre)]))
    by (rewrite length_app; simpl; lia).
  rewrite IH, <- app_assoc. done.
Qed.

Lemma xlsx_row_spec (columns cols : list string) :
  xlsx_row columns cols = xlsx_cell cols <$> seq 0 (length columns).
Proof. apply (pad_app cols (length columns) []). Qed.

(** C7 (column padding).  Whenever the JSONL importer has an object at hand,
    be it the first row kept by [Open] or a line that decodes, [NextRow]
    returns a row and no error; the row is as long as the column set, holds
    null where the object lacks the column's key and the object's value
    elsewhere.  Whenever the XLSX iterator hands out the cells of a row,
    [NextRow] returns a row as long as the column set, with null at the
    positions beyond the last cell and the cell's text elsewhere. *)
Theorem column_padding :
  (∀ (j : JSONLOpen) (obj : option (gmap string Value)),
     (jsonl_firstRow j = obj ∧ obj ≠ None) ∨
     (jsonl_firstRow j = None ∧
      ∃ l rest, tokens (jsonl_scanner j) = l :: rest ∧ Unmarshal l = Ok obj) →
     ∃ row, (NextRow j).1 = Ok row ∧
       length row = length (jsonl_columns j) ∧
       ∀ i col, jsonl_columns j !! i = Some col →
         (map_get obj col = None → row !! i = Some VNull) ∧
         (∀ val, map_get obj col = Some val → row !! i = Some val)) ∧
  (∀ (x : XLSXOpen) (cols : list string) rest,
     items (xlsx_rows x) = Ok cols :: rest →
     ∃ row, (NextRow x).1 = Ok row ∧
       length row = length (xlsx_columns x) ∧
       ∀ i, (i < length (xlsx_columns x))%nat →
         ((length cols ≤ i)%nat → row !! i = Some VNull) ∧
         (∀ s, cols !! i = Some s → row !! i = Some (VString s))).
Proof.
  split.
  - intros j obj Hobj. exists (jsonl_row (jsonl_columns j) obj). split_and!.
    + simpl. unfold JSONLNextRow.
      destruct Hobj as [[Hfirst Hne]|(Hfirst & l & rest & Htok & Hdec)].
      * rewrite Hfirst. by destruct obj.
      * by rewrite Hfirst, Htok, Hdec.
    + by rewrite jsonl_row_spec, length_fmap.
    + intros i col Hcol. rewrite jsonl_row_spec, list_lookup_fmap, Hcol. simpl.
      split; [by intros ->|]. by intros val ->.
  - intros x cols rest Hitems. exists (xlsx_row (xlsx_columns x) cols). split_and!.
    + simpl. unfold XLSXNextRow. by rewrite Hitems.
    + by rewrite xlsx_row_spec, length_fmap, length_seq.
    + intros i Hi. rewrite xlsx_row_spec, list_lookup_fmap, lookup_seq_lt by done.
      simpl. unfold xlsx_cell. split.
      * intros Hge. by rewrite (lookup_ge_None_2 cols i Hge).
      * by intros s ->.
Qed.

Lemma column_padding_witness :
  (∃ row, (NextRow short_row_jsonl).1 = Ok row ∧
     length row = 2%nat ∧ row !! 1%nat = Some VNull) ∧
  (∃ row, (NextRow short_row_xlsx).1 = Ok row ∧
     length row = 2%nat ∧ row !! 1%nat = Some VNull).
Proof.
  destruct column_padding as [Hj Hx]. split.
  - destruct (Hj short_row_jsonl (Some (decode_object [("b", VInt 3)])))
      as (row & Hrow & Hlen & Hcells).
    { right. split; [done|]. by eexists _, _. }
    exists row. split_and!; [done..|].
    destruct (Hcells 1%nat "a") as [Hnull _]; [done|]. apply Hnull. by vm_compute.
  - destruct (Hx short_row_xlsx ["1"] []) as (row & Hrow & Hlen & Hcells); [done|].
    exists row. split_and!; [done..|].
    destruct (Hcells 1%nat) as [Hnull _]; [simpl; lia|]. apply Hnull. simpl. lia.
Defined.

(** *** The end-of-stream marker *)

Lemma prefixed_not_EOF (pre msg : string) :
  pre ≠ "" → (∀ rest, pre ≠ String "E" rest) → pre +:+ msg ≠ "EOF".
Proof.
  intros Hne HE. destruct pre as [|c pre]; [done|].
  change (String c pre +:+ msg) with (String c (pre +:+ msg)).
  intros [= -> _]. by apply (HE pre).
Qed.

Lemma err_not_EOF {A} (pre msg : string) :
  pre ≠ "" → (∀ rest, pre ≠ String "E" rest) → @Err A (pre +:+ msg) ≠ Err "EOF".
Proof. intros Hne HE [= Heq]. by apply prefixed_not_EOF in Heq. Qed.

Lemma import_loop_stop {Cfg St} `{Importer Cfg St} pool fuel (st st' : St) n calls msg :
  NextRow st = (Err msg, st') →
  import_loop pool (S fuel) st n calls =
    if String.eqb msg "EOF" then
      (Returned (String.append "worker pool error: " <$> close_err pool), calls ++ [CallClose], st')
    else (Returned (Some ("failed to read row: " +:+ msg)), calls ++ [CallCancel], st').
Proof.
  intros Hnext. simpl. rewrite Hnext. case_match; [|done]. by destruct (close_err pool).
Qed.

Lemma import_loop_yields {Cfg St} `{Importer Cfg St} pool (st st' : St) rows msg :
  yields st rows msg st' →
  ∀ fuel n calls,
    (length rows < fuel)%nat →
    (∀ i, (i < length rows)%nat → submit_err pool (n + i) = None) →
    import_loop pool fuel st n calls =
      if String.eqb msg "EOF" then
        (Returned (String.append "worker pool error: " <$> close_err pool),
         calls ++ (CallSubmit <$> rows) ++ [CallClose], st')
      else (Returned (Some ("failed to read row: " +:+ msg)),
            calls ++ (CallSubmit <$> rows) ++ [CallCancel], st').
Proof.
  induction 1 as [st msg st' Hnext|st row st1 rows msg st' Hnext Hy IH];
    intros fuel n calls Hfuel Hsub.
  - destruct fuel as [|fuel]; [simpl in Hfuel; lia|].
    by rewrite (import_loop_stop _ _ _ _ _ _ _ Hnext).
  - destruct fuel as [|fuel]; [simpl in Hfuel; lia|].
    simpl. rewrite Hnext.
    rewrite <- (Nat.add_0_r n) at 1. rewrite Hsub by (simpl; lia).
    rewrite IH.
    + rewrite <- !app_assoc. done.
    + simpl in Hfuel. lia.
    + intros i Hi. replace (S n + i)%nat with (n + S i)%nat by lia.
      apply Hsub. simpl. lia.
Qed.

Lemma CSV_exhausted (c : CSVOpen) :
  GoCSV.validDelim (csv_comma c) = true →
  GoCSV.src (csv_reader c) = [] → GoCSV.src_err (csv_reader c) = None →
  (NextRow c).1 = Err "EOF".
Proof.
  intros Hd Hsrc Herr. simpl. unfold CSVNextRow, GoCSV.Read. rewrite Hd, Hsrc. simpl.
  unfold GoCSV.readLine, GoCSV.end_err. rewrite Hsrc, Herr. done.
Qed.

Lemma CSV_EOF_Read (c : CSVOpen) :
  (NextRow c).1 = Err "EOF" ↔
  (GoCSV.Read (csv_comma c) (csv_reader c)).1 = GoCSV.ReadEOF.
Proof.
  simpl. unfold CSVNextRow.
  destruct (GoCSV.Read _ _) as [[|record|record msg] reader']; simpl.
  - done.
  - split; intros [=].
  - split; [|done]. by intros ?%err_not_EOF.
Qed.

(** C8 (end-of-stream marker).  The CSV importer answers [EOF] exactly
    when [csv.Reader.Read] reports [io.EOF], which is exactly when the
    input left holds no record, nothing but empty lines, and the file ends
    without a read error, the delimiter being valid: as long as a record
    is left, or when reading fails, [NextRow] answers with a row or with
    another error.  The JSONL importer answers [EOF] exactly when no first
    row is pending, the scanner has no line left and reports no error; the
    XLSX importer exactly when the iterator has no row left and reports no
    error: a read failure never yields the marker.  When an importer hands
    out [rows] and then stops with an error, and every row is accepted by
    the pool, the loop of [ImportData] submits the rows and, if the error is
    [EOF], goes on to close the pool and returns what [Close] returns;
    for any other error it cancels the pool and fails with
    [failed to read row]. *)
Theorem EOF_sentinel :
  (∀ c : CSVOpen,
     (NextRow c).1 = Err "EOF" ↔
     GoCSV.validDelim (csv_comma c) = true ∧
     GoCSV.src_err (csv_reader c) = None ∧
     GoCSVAux.only_blank_lines (GoCSV.src (csv_reader c)) = true) ∧
  (∀ c : CSVOpen,
     (NextRow c).1 = Err "EOF" ↔
     (GoCSV.Read (csv_comma c) (csv_reader c)).1 = GoCSV.ReadEOF) ∧
  (∀ j : JSONLOpen,
     (NextRow j).1 = Err "EOF" ↔
     jsonl_firstRow j = None ∧ tokens (jsonl_scanner j) = [] ∧
     scan_err (jsonl_scanner j) = None) ∧
  (∀ x : XLSXOpen,
     (NextRow x).1 = Err "EOF" ↔
     items (xlsx_rows x) = [] ∧ rows_err (xlsx_rows x) = None) ∧
  (∀ pool (st st' : AnyOpen) rows msg fuel,
     yields st rows msg st' →
     (length rows < fuel)%nat →
     (∀ i, (i < length rows)%nat → submit_err pool i = None) →
     import_loop pool fuel st 0 [] =
       if String.eqb msg "EOF" then
         (Returned (String.append "worker pool error: " <$> close_err pool),
          (CallSubmit <$> rows) ++ [CallClose], st')
       else (Returned (Some ("failed to read row: " +:+ msg)),
             (CallSubmit <$> rows) ++ [CallCancel], st')).
Proof.
  split_and!.
  - intros c. rewrite CSV_EOF_Read. apply Read_EOF.
  - apply CSV_EOF_Read.
  - intros j. simpl. unfold JSONLNextRow.
    destruct (jsonl_firstRow j) as [m|]; simpl.
    { split; [done|]. by intros [[=] _]. }
    destruct (tokens (jsonl_scanner j)) as [|l rest]; simpl.
    + destruct (scan_err (jsonl_scanner j)) as [msg|]; simpl.
      * split; [|by intros (_&_&[=])]. by intros ?%err_not_EOF.
      * done.
    + destruct (Unmarshal l) as [obj|msg]; simpl.
      * split; [done|]. by intros (_&[=]&_).
      * split; [|by intros (_&[=]&_)]. by intros ?%err_not_EOF.
  - intros x. simpl. unfold XLSXNextRow.
    destruct (items (xlsx_rows x)) as [|[cols|msg] rest]; simpl.
    + destruct (rows_err (xlsx_rows x)) as [msg|]; simpl.
      * split; [|by intros (_&[=])]. by intros ?%err_not_EOF.
      * done.
    + split; [done|]. by intros ([=]&_).
    + split; [|by intros ([=]&_)]. by intros ?%err_not_EOF.
  - intros pool st st' rows msg fuel Hy Hfuel Hsub.
    by rewrite (import_loop_yields pool st st' rows msg Hy fuel 0%nat []).
Qed.

Lemma EOF_sentinel_witness :
  (NextRow csv_last_record).1 = Ok [VString "1"; VString "ann"] ∧
  (NextRow (NextRow csv_last_record).2).1 = Err "EOF" ∧
  (NextRow (OpenJSONL short_row_jsonl)).1 = Ok [VInt 3; VNull] ∧
  (NextRow (NextRow (OpenJSONL short_row_jsonl)).2).1 = Err "EOF" ∧
  (import_loop quiet_pool 2 (OpenJSONL short_row_jsonl) 0 []).1 =
    (Returned None, [CallSubmit [VInt 3; VNull]; CallClose]).
Proof.
  destruct EOF_sentinel as (Hcsv & _ & _ & _ & Hloop).
  split_and!; [by vm_compute| |by vm_compute..|].
  - apply Hcsv. split_and!; by vm_compute.
  - rewrite (Hloop quiet_pool (OpenJSONL short_row_jsonl)
               (NextRow (NextRow (OpenJSONL short_row_jsonl)).2).2
               [[VInt 3; VNull]] "EOF" 2%nat).
    + done.
    + eapply yields_row; [by vm_compute|]. apply yields_stop. by vm_compute.
    + simpl. lia.
    + done.
Defined.
End importer_proofs.

(** ** Round trip through CSV *)

Section gocsv_proofs.
Import GoCSV GoCSVAux.
Context (comma : ascii) (Hcomma : plain_delim comma).
Context (beyond : bytes).

Lemma comma_facts :
  comma ≠ DQUOTE ∧ comma ≠ NL ∧ comma ≠ CR ∧ (N_of_ascii comma < 128)%N.
Proof using Hcomma.
  destruct Hcomma as [Hv _]. unfold validDelim in Hv.
  rewrite !andb_true_iff, !negb_true_iff, !bool_decide_eq_false, N.ltb_lt in Hv.
  tauto.
Qed.

(** *** Lines *)

Lemma ReadSlice_found (lb more : bytes) :
  NL ∉ lb → ReadSlice (lb ++ NL :: more) = (lb ++ [NL], more, true).
Proof.
  induction lb as [|c lb IH]; intros Hnl; simpl.
  - done.
  - rewrite not_elem_of_cons in Hnl. destruct Hnl as [Hc Hlb].
    rewrite bool_decide_eq_false_2 by done. by rewrite (IH Hlb).
Qed.

Lemma ReadSlice_split (s : bytes) :
  NL ∈ s → ∃ lb more, s = lb ++ NL :: more ∧ NL ∉ lb.
Proof.
  induction s as [|c s IH]; intros Hin; [by apply elem_of_nil in Hin|].
  destruct (decide (c = NL)) as [->|Hne].
  - exists [], s. split; [done|]. apply not_elem_of_nil.
  - apply elem_of_cons in Hin as [?|Hin]; [done|].
    destruct (IH Hin) as (lb & more & -> & Hlb).
    exists (c :: lb), more. split; [done|]. apply not_elem_of_cons. by split.
Qed.

Lemma fline_frest (s : bytes) : fline s ++ frest s = s.
Proof.
  unfold fline, frest. induction s as [|c s IH]; simpl; [done|].
  case_bool_decide; simpl; [done|].
  destruct (ReadSlice s) as [[l r] f]. simpl in *. by rewrite IH.
Qed.

Lemma fline_app (p s : bytes) :
  NL ∉ p → fline (p ++ s) = p ++ fline s ∧ frest (p ++ s) = frest s.
Proof.
  unfold fline, frest. induction p as [|c p IH]; intros Hnl; simpl; [done|].
  rewrite not_elem_of_cons in Hnl. destruct Hnl as [Hc Hp].
  rewrite bool_decide_eq_false_2 by done.
  destruct (IH Hp) as [IH1 IH2]. destruct (ReadSlice (p ++ s)) as [[l r] f].
  simpl in *. by rewrite IH1, IH2.
Qed.

Lemma fline_NL (s : bytes) : fline (NL :: s) = [NL] ∧ frest (NL :: s) = s.
Proof. done. Qed.

Lemma fline_app_NL (p s : bytes) :
  NL ∉ p → fline (p ++ NL :: s) = p ++ [NL] ∧ frest (p ++ NL :: s) = s.
Proof.
  intros Hp. destruct (fline_app p (NL :: s) Hp) as [-> ->].
  by destruct (fline_NL s) as [-> ->].
Qed.

Lemma ReadSlice_stream (s rest : bytes) :
  NL ∈ s → ReadSlice (s ++ rest) = (fline s, frest s ++ rest, true).
Proof.
  intros (lb & more & -> & Hlb)%ReadSlice_split.
  rewrite <- app_assoc. simpl. rewrite ReadSlice_found by done.
  destruct (fline_app lb (NL :: more) Hlb) as [-> ->].
  by destruct (fline_NL more) as [-> ->].
Qed.

Lemma fline_ends (s : bytes) :
  NL ∈ s → ∃ lb, fline s = lb ++ [NL] ∧ NL ∉ lb.
Proof.
  intros (lb & more & -> & Hlb)%ReadSlice_split. exists lb.
  destruct (fline_app lb (NL :: more) Hlb) as [-> _].
  by destruct (fline_NL more) as [-> _].
Qed.

(** *** Carriage returns before line feeds *)

Lemma has_crlf_app (a b : bytes) :
  has_crlf (a ++ b) = false → has_crlf a = false ∧ has_crlf b = false.
Proof.
  induction a as [|c a IH]; simpl; [done|].
  rewrite !orb_false_iff, !andb_false_iff. intros [Hc Hab].
  destruct (IH Hab) as [Ha Hb]. split_and!; try done.
  destruct Hc as [Hc|Hc]; [by left|]. right.
  rewrite bool_decide_eq_false in *. destruct a; simpl in *; [done|done].
Qed.

Lemma has_crlf_snoc (lb : bytes) :
  has_crlf (lb ++ [NL]) = false → last lb ≠ Some CR.
Proof.
  induction lb as [|c lb IH]; simpl; [done|].
  rewrite orb_false_iff, andb_false_iff, !bool_decide_eq_false. intros [Hc Hlb].
  destruct lb as [|c' lb]; simpl in *.
  - intros [= ->]. destruct Hc; done.
  - by apply IH.
Qed.

Lemma normalize_crlf_id (lb : bytes) :
  last lb ≠ Some CR → normalize_crlf (lb ++ [NL]) = lb ++ [NL].
Proof.
  intros Hlast. unfold normalize_crlf. rewrite length_app. simpl.
  destruct (lb) as [|c lb'] using rev_ind; [done|].
  rewrite last_snoc in Hlast.
  rewrite length_app. simpl.
  replace (length lb' + 1 + 1 - 2)%nat with (length lb') by lia.
  rewrite <- app_assoc. rewrite drop_app_length. simpl.
  rewrite (bool_decide_eq_false_2 ([c; NL] = [CR; NL])); [|congruence].
  by rewrite andb_false_r.
Qed.

Lemma readLine_stream (r : Reader) (s rest : bytes) :
  src r = s ++ rest → NL ∈ s → has_crlf s = false →
  readLine r = (fline s, NoErr,
                {| src := frest s ++ rest; src_err := src_err r;
                   numLine := numLine r + 1; FieldsPerRecord := FieldsPerRecord r |}).
Proof.
  intros Hsrc Hnl Hcr. unfold readLine. rewrite Hsrc, ReadSlice_stream by done.
  destruct (fline_ends s Hnl) as (lb & Hline & Hlb). rewrite Hline.
  assert (last lb ≠ Some CR) as Hlast.
  { apply has_crlf_snoc. rewrite <- Hline.
    rewrite <- (fline_frest s) in Hcr. by apply has_crlf_app in Hcr as [? _]. }
  destruct (lb ++ [NL]) eqn:E; [by destruct lb|]. rewrite <- E.
  by rewrite normalize_crlf_id.
Qed.

(** *** Searching a line *)

Lemma splitAt_found (c : ascii) (pre post : bytes) :
  c ∉ pre → splitAt c (pre ++ c :: post) = Some (pre, post).
Proof.
  induction pre as [|x pre IH]; intros Hc; simpl.
  - by rewrite bool_decide_eq_true_2.
  - rewrite not_elem_of_cons in Hc. destruct Hc as [Hx Hpre].
    rewrite bool_decide_eq_false_2 by done. by rewrite (IH Hpre).
Qed.

Lemma splitAt_none (c : ascii) (l : bytes) : c ∉ l → splitAt c l = None.
Proof.
  induction l as [|x l IH]; intros Hc; simpl; [done|].
  rewrite not_elem_of_cons in Hc. destruct Hc as [Hx Hl].
  rewrite bool_decide_eq_false_2 by done. by rewrite (IH Hl).
Qed.

Lemma lengthNL_snoc (lb : bytes) : lengthNL (lb ++ [NL]) = 1%nat.
Proof. unfold lengthNL. by rewrite last_snoc. Qed.

(** *** White space *)

Lemma space_width_ascii (c : ascii) (more : bytes) :
  (N_of_ascii c < 128)%N → is_space1 (N_of_ascii c) = false →
  space_width (c :: more) = 0%nat.
Proof.
  intros Hc Hs. unfold space_width. simpl. rewrite Hs.
  destruct more as [|c1 more]; simpl; [done|].
  assert (is_space2 (N_of_ascii c) (N_of_ascii c1) = false) as ->.
  { unfold is_space2. destruct (N.eqb_spec (N_of_ascii c) 194); [lia|done]. }
  destruct more as [|c2 more]; simpl; [done|].
  assert (is_space3 (N_of_ascii c) (N_of_ascii c1) (N_of_ascii c2) = false) as ->; [|done].
  unfold is_space3.
  destruct (N.eqb_spec (N_of_ascii c) 225); [lia|].
  destruct (N.eqb_spec (N_of_ascii c) 226); [lia|].
  destruct (N.eqb_spec (N_of_ascii c) 227); [lia|]. done.
Qed.

Lemma space_width_DQUOTE (more : bytes) : space_width (DQUOTE :: more) = 0%nat.
Proof. by apply space_width_ascii. Qed.

Lemma space_width_comma (more : bytes) : space_width (comma :: more) = 0%nat.
Proof using Hcomma.
  apply space_width_ascii; [apply comma_facts | apply Hcomma].
Qed.

(** The bytes after a field that is not white space at its start do not
    make it so: they are below 128, the bytes of a wider rune are not. *)
Lemma space_width_extend (f more : bytes) (x : ascii) :
  f ≠ [] → space_width f = 0%nat → (N_of_ascii x < 128)%N →
  space_width (f ++ x :: more) = 0%nat.
Proof.
  intros Hne Hf Hx. unfold space_width in *.
  destruct f as [|c0 f]; [done|]. simpl in *.
  destruct (is_space1 (N_of_ascii c0)); [done|].
  destruct f as [|c1 f]; simpl in *.
  - assert (is_space2 (N_of_ascii c0) (N_of_ascii x) = false) as ->.
    { unfold is_space2. destruct (N.eqb_spec (N_of_ascii x) 133); [lia|].
      destruct (N.eqb_spec (N_of_ascii x) 160); [lia|]. by rewrite andb_false_r. }
    destruct more as [|c2 more]; simpl; [done|].
    assert (is_space3 (N_of_ascii c0) (N_of_ascii x) (N_of_ascii c2) = false) as ->; [|done].
    unfold is_space3.
    destruct (N.eqb_spec (N_of_ascii x) 154); [lia|].
    destruct (N.eqb_spec (N_of_ascii x) 128); [lia|].
    destruct (N.eqb_spec (N_of_ascii x) 129); [lia|].
    by rewrite !andb_false_r.
  - destruct (is_space2 (N_of_ascii c0) (N_of_ascii c1)); [done|].
    destruct f as [|c2 f]; simpl in *; [|done].
    assert (is_space3 (N_of_ascii c0) (N_of_ascii c1) (N_of_ascii x) = false) as ->; [|done].
    unfold is_space3.
    destruct (N.eqb_spec (N_of_ascii x) 128); [lia|].
    destruct (N.eqb_spec (N_of_ascii x) 159); [lia|].
    destruct (N.leb_spec 128 (N_of_ascii x)); [lia|].
    destruct (N.eqb_spec (N_of_ascii x) 168); [lia|].
    destruct (N.eqb_spec (N_of_ascii x) 169); [lia|].
    destruct (N.eqb_spec (N_of_ascii x) 175); [lia|].
    by rewrite !andb_false_r.
Qed.

Lemma trim_nothing (n : nat) (line : bytes) :
  space_width line = 0%nat → trimLeadingSpace n line = line.
Proof. intros Hw. destruct n; simpl; [done|]. by rewrite Hw. Qed.

(** *** Fields written without quotes *)

Lemma existsb_false {A} (p : A → bool) (l : list A) :
  existsb p l = false → ∀ x, x ∈ l → p x = false.
Proof.
  induction l as [|y l IH]; simpl; intros Hex x Hx; [by apply elem_of_nil in Hx|].
  apply orb_false_iff in Hex as [Hy Hl].
  apply elem_of_cons in Hx as [->|Hx]; [done|]. by apply IH.
Qed.

Lemma unquoted_facts (f : bytes) :
  fieldNeedsQuotes comma f = false → f ≠ [] →
  (NL ∉ f) ∧ (CR ∉ f) ∧ (DQUOTE ∉ f) ∧ (comma ∉ f) ∧ space_width f = 0%nat.
Proof.
  unfold fieldNeedsQuotes. destruct f as [|c f]; [done|]. intros Hq _.
  case_bool_decide; [done|].
  destruct (existsb _ _) eqn:Hex; [done|].
  rewrite negb_false_iff, Nat.eqb_eq in Hq.
  pose proof (existsb_false _ _ Hex) as Hall.
  assert (∀ x, x ∈ c :: f → x ≠ NL ∧ x ≠ CR ∧ x ≠ DQUOTE ∧ x ≠ comma) as Hall'.
  { intros x Hx. specialize (Hall x Hx). simpl in Hall.
    rewrite !orb_false_iff, !bool_decide_eq_false in Hall. tauto. }
  split_and!; try done; intros Hin; by destruct (Hall' _ Hin) as (?&?&?&?).
Qed.

(** One turn of the field loop, at the start of a field and inside
    quotes. *)
Lemma parse_AtField fuel (line : bytes) e r fields :
  parseFields comma (S fuel) AtField line e r fields =
    match trimLeadingSpace (length line) line with
    | c :: line' =>
        if bool_decide (c = DQUOTE) then
          parseFields comma fuel (InQuote []) line' e r fields
        else
          match splitAt comma (c :: line') with
          | Some (field, after) =>
              parseFields comma fuel AtField after e r (fields ++ [field])
          | None =>
              Some (fields ++ [take (length (c :: line') - lengthNL (c :: line'))
                                    (c :: line')], e, r)
          end
    | [] => Some (fields ++ [[]], e, r)
    end.
Proof.
  change (parseFields comma (S fuel) AtField line e r fields) with
    (let line := trimLeadingSpace (length line) line in
     match line with
     | c :: line' =>
         if bool_decide (c = DQUOTE) then
           parseFields comma fuel (InQuote []) line' e r fields
         else
           match splitAt comma line with
           | Some (field, after) =>
               parseFields comma fuel AtField after e r (fields ++ [field])
           | None =>
               Some (fields ++ [take (length line - lengthNL line) line], e, r)
           end
     | [] => Some (fields ++ [[]], e, r)
     end).
  cbv zeta. by destruct (trimLeadingSpace (length line) line).
Qed.

Lemma parse_InQuote fuel (acc line : bytes) e r fields :
  parseFields comma (S fuel) (InQuote acc) line e r fields =
    match splitAt DQUOTE line with
    | Some (before, after) =>
        match after with
        | c :: after' =>
            if bool_decide (c = DQUOTE) then
              parseFields comma fuel (InQuote ((acc ++ before) ++ [DQUOTE])) after' e r fields
            else if bool_decide (c = comma) then
              parseFields comma fuel AtField after' e r (fields ++ [acc ++ before])
            else if (lengthNL after =? length after)%nat then
              Some (fields ++ [acc ++ before], e, r)
            else
              parseFields comma fuel (InQuote ((acc ++ before) ++ [DQUOTE])) after e r fields
        | [] => Some (fields ++ [acc ++ before], e, r)
        end
    | None =>
        match line with
        | _ :: _ =>
            match e with
            | NoErr =>
                let '(line', errRead', r') := readLine r in
                let errRead' := match errRead' with EOF => NoErr | e => e end in
                parseFields comma fuel (InQuote (acc ++ line)) line' errRead' r' fields
            | _ => Some (fields, e, r)
            end
        | [] => Some (fields ++ [acc], e, r)
        end
    end.
Proof. done. Qed.

Lemma parse_unquoted_comma fuel (f more : bytes) e r fields :
  fieldNeedsQuotes comma f = false →
  parseFields comma (S fuel) AtField (f ++ comma :: more) e r fields
  = parseFields comma fuel AtField more e r (fields ++ [f]).
Proof using Hcomma.
  intros Hq. destruct comma_facts as (Hdq & Hnl & Hcr & Hlt). rewrite parse_AtField.
  destruct f as [|c f].
  - simpl app. rewrite trim_nothing by apply space_width_comma.
    rewrite bool_decide_eq_false_2 by done.
    simpl splitAt. by rewrite bool_decide_eq_true_2.
  - destruct (unquoted_facts (c :: f) Hq) as (Hfnl & Hfcr & Hfdq & Hfc & Hsp); [done|].
    rewrite trim_nothing by (by apply space_width_extend).
    change ((c :: f) ++ comma :: more) with (c :: (f ++ comma :: more)). cbv iota beta.
    rewrite bool_decide_eq_false_2.
    2:{ intros ->. apply Hfdq. by left. }
    change (c :: (f ++ comma :: more)) with ((c :: f) ++ comma :: more).
    by rewrite splitAt_found.
Qed.

Lemma parse_unquoted_end fuel (f : bytes) e r fields :
  fieldNeedsQuotes comma f = false →
  parseFields comma (S fuel) AtField (f ++ [NL]) e r fields
  = Some (fields ++ [f], e, r).
Proof using Hcomma.
  intros Hq. destruct comma_facts as (Hdq & Hnl & Hcr & Hlt). rewrite parse_AtField.
  destruct f as [|c f].
  - done.
  - destruct (unquoted_facts (c :: f) Hq) as (Hfnl & Hfcr & Hfdq & Hfc & Hsp); [done|].
    rewrite trim_nothing by (by apply space_width_extend).
    change ((c :: f) ++ [NL]) with (c :: (f ++ [NL])). cbv iota beta.
    rewrite bool_decide_eq_false_2.
    2:{ intros ->. apply Hfdq. by left. }
    change (c :: (f ++ [NL])) with ((c :: f) ++ [NL]).
    rewrite splitAt_none.
    2:{ rewrite elem_of_app, list_elem_of_singleton. intros [?|?]; done. }
    rewrite lengthNL_snoc, length_app. simpl length.
    replace (S (length f) + 1 - 1)%nat with (length (c :: f)) by (simpl; lia).
    by rewrite take_app_length.
Qed.

(** *** Fields written in quotes *)

Lemma parse_open fuel (l : bytes) e r fields :
  parseFields comma (S fuel) AtField (DQUOTE :: l) e r fields
  = parseFields comma fuel (InQuote []) l e r fields.
Proof. rewrite parse_AtField. by rewrite trim_nothing by apply space_width_DQUOTE. Qed.

Lemma parse_quote_quote fuel (acc seg l : bytes) e r fields :
  DQUOTE ∉ seg →
  parseFields comma (S fuel) (InQuote acc) (seg ++ DQUOTE :: DQUOTE :: l) e r fields
  = parseFields comma fuel (InQuote ((acc ++ seg) ++ [DQUOTE])) l e r fields.
Proof. intros Hseg. rewrite parse_InQuote. by rewrite splitAt_found. Qed.

Lemma parse_quote_comma fuel (acc seg l : bytes) e r fields :
  DQUOTE ∉ seg →
  parseFields comma (S fuel) (InQuote acc) (seg ++ DQUOTE :: comma :: l) e r fields
  = parseFields comma fuel AtField l e r (fields ++ [acc ++ seg]).
Proof using Hcomma.
  intros Hseg. destruct comma_facts as (Hdq & _). rewrite parse_InQuote.
  rewrite splitAt_found by done.
  rewrite bool_decide_eq_false_2 by done. by rewrite bool_decide_eq_true_2.
Qed.

Lemma parse_quote_end fuel (acc seg : bytes) e r fields :
  DQUOTE ∉ seg →
  parseFields comma (S fuel) (InQuote acc) (seg ++ [DQUOTE; NL]) e r fields
  = Some (fields ++ [acc ++ seg], e, r).
Proof using Hcomma.
  intros Hseg. destruct comma_facts as (_ & Hnl & _). rewrite parse_InQuote.
  rewrite splitAt_found by done.
  rewrite (bool_decide_eq_false_2 (NL = DQUOTE)) by done.
  rewrite (bool_decide_eq_false_2 (NL = comma)) by done. done.
Qed.

Lemma parse_quote_newline fuel (acc seg line' : bytes) r r' fields :
  DQUOTE ∉ seg → readLine r = (line', NoErr, r') →
  parseFields comma (S fuel) (InQuote acc) (seg ++ [NL]) NoErr r fields
  = parseFields comma fuel (InQuote (acc ++ seg ++ [NL])) line' NoErr r' fields.
Proof.
  intros Hseg Hread. rewrite parse_InQuote. rewrite splitAt_none.
  2:{ rewrite elem_of_app, list_elem_of_singleton. intros [?|?]; done. }
  destruct (seg ++ [NL]) eqn:E; [by destruct seg|]. by rewrite Hread.
Qed.

Lemma span_plain (f : bytes) :
  ∃ seg tl, f = seg ++ tl ∧ (DQUOTE ∉ seg) ∧ (NL ∉ seg) ∧
    (tl = [] ∨ ∃ t, tl = DQUOTE :: t ∨ tl = NL :: t).
Proof.
  induction f as [|c f (seg & tl & -> & Hdq & Hnl & Htl)].
  - exists [], []. split_and!; try done; try apply not_elem_of_nil. by left.
  - destruct (decide (c = DQUOTE)) as [->|Hc1].
    { exists [], (DQUOTE :: seg ++ tl). split_and!; try done; try apply not_elem_of_nil.
      right. eauto. }
    destruct (decide (c = NL)) as [->|Hc2].
    { exists [], (NL :: seg ++ tl). split_and!; try done; try apply not_elem_of_nil.
      right. eauto. }
    exists (c :: seg), tl. split_and!; try done; apply not_elem_of_cons; by split.
Qed.

Lemma escape_plain (seg tl : bytes) :
  DQUOTE ∉ seg → escape (seg ++ tl) = seg ++ escape tl.
Proof.
  induction seg as [|c seg IH]; intros Hdq; simpl; [done|].
  rewrite not_elem_of_cons in Hdq. destruct Hdq as [Hc Hseg].
  rewrite bool_decide_eq_false_2 by done. by rewrite IH.
Qed.

Lemma wtail_NL (fs : list bytes) : NL ∈ wtail comma fs.
Proof.
  induction fs as [|f fs IH]; simpl; [by left|].
  right. apply elem_of_app. by right.
Qed.

Lemma unquoted_no_NL (f : bytes) : fieldNeedsQuotes comma f = false → NL ∉ f.
Proof.
  intros Hq. destruct f as [|c f]; [apply not_elem_of_nil|].
  by destruct (unquoted_facts (c :: f) Hq) as (? & _).
Qed.

(** *** A whole record *)

Lemma reads_in_quotes (fs : list bytes) :
  (∀ f2 fs', fs = f2 :: fs' → reads_from comma beyond f2 fs') →
  ∀ n f', (length f' < n)%nat →
  ∀ acc s r fields fuel,
    s = escape f' ++ DQUOTE :: wtail comma fs →
    has_crlf s = false →
    src r = frest s ++ beyond →
    (length s < fuel)%nat →
    ∃ r', parseFields comma fuel (InQuote acc) (fline s) NoErr r fields
            = Some (fields ++ (acc ++ f') :: fs, NoErr, r') ∧
          src r' = beyond ∧ FieldsPerRecord r' = FieldsPerRecord r ∧
          src_err r' = src_err r.
Proof using Hcomma.
  intros Hnext. destruct comma_facts as (Hdq & Hnl & Hcr & Hlt).
  induction n as [|n IH]; intros f' Hlen acc s r fields fuel Hs Hcrlf Hsrc Hfuel; [lia|].
  destruct (span_plain f') as (seg & tl & -> & Hsdq & Hsnl & Htl).
    rewrite escape_plain in Hs by done.
    destruct fuel as [|fuel]; [lia|].
    destruct Htl as [->|[t [->| ->]]].
    + (* the closing quote is on this line *)
      simpl escape in Hs. rewrite app_nil_r in Hs, Hlen. rewrite (app_nil_r seg).
      destruct fs as [|f2 fs'].
      * subst s. simpl wtail in *.
        destruct (fline_app_NL (seg ++ [DQUOTE]) []) as [Hl Hr].
        { rewrite elem_of_app, list_elem_of_singleton. intros [?|?]; done. }
        rewrite <- !app_assoc in Hl, Hr. simpl app in Hl, Hr.
        rewrite Hl, <- ?app_assoc. simpl app. rewrite Hr in Hsrc.
        exists r. split_and!; try done. by rewrite parse_quote_end.
      * subst s. simpl wtail in *.
        set (s2 := writeField comma f2 ++ wtail comma fs') in *.
        destruct (fline_app (seg ++ [DQUOTE; comma]) s2) as [Hl Hr].
        { rewrite elem_of_app, !elem_of_cons, elem_of_nil. intros [?|[?|[?|?]]]; done. }
        rewrite <- !app_assoc in Hl, Hr. simpl app in Hl, Hr.
        rewrite Hl, <- ?app_assoc. simpl app. rewrite Hr in Hsrc.
        rewrite parse_quote_comma by done.
        destruct (Hnext f2 fs' eq_refl s2 r (fields ++ [acc ++ seg]) fuel)
          as (r' & Hp & ?); try done.
        { apply (has_crlf_app (seg ++ [DQUOTE; comma])).
          by rewrite <- app_assoc. }
        { rewrite length_app in Hfuel. simpl in Hfuel. lia. }
        exists r'. split; [|done]. rewrite Hp. by rewrite <- app_assoc.
    + (* a doubled quote *)
      simpl escape in Hs. rewrite <- app_assoc in Hs. simpl app in Hs.
      set (s2 := escape t ++ DQUOTE :: wtail comma fs) in *.
      subst s.
      destruct (fline_app (seg ++ [DQUOTE; DQUOTE]) s2) as [Hl Hr].
      { rewrite elem_of_app, !elem_of_cons, elem_of_nil. intros [?|[?|[?|?]]]; done. }
      rewrite <- !app_assoc in Hl, Hr. simpl app in Hl, Hr.
        rewrite Hl, <- ?app_assoc. simpl app. rewrite Hr in Hsrc.
      rewrite parse_quote_quote by done.
      destruct (IH t) with (acc := (acc ++ seg) ++ [DQUOTE]) (s := s2) (r := r)
        (fields := fields) (fuel := fuel) as (r' & Hp & ?); try done.
      { rewrite length_app in Hlen. simpl in Hlen. lia. }
      { apply (has_crlf_app (seg ++ [DQUOTE; DQUOTE])). by rewrite <- app_assoc. }
      { rewrite length_app in Hfuel. simpl in Hfuel. lia. }
      exists r'. split; [|done]. rewrite Hp. by rewrite <- !app_assoc.
    + (* the field goes on with the next line *)
      simpl escape in Hs. rewrite <- app_assoc in Hs. simpl app in Hs.
      set (s2 := escape t ++ DQUOTE :: wtail comma fs) in *.
      subst s.
      destruct (fline_app_NL seg s2) as [Hl Hr]; [done|].
      rewrite Hl. rewrite Hr in Hsrc.
      assert (has_crlf s2 = false) as Hcr2.
      { apply (has_crlf_app (seg ++ [NL])). by rewrite <- app_assoc. }
      assert (NL ∈ s2) as Hin2.
      { subst s2. apply elem_of_app. right. right. apply wtail_NL. }
      rewrite (parse_quote_newline fuel acc seg _ r _ fields Hsdq
                 (readLine_stream r s2 beyond Hsrc Hin2 Hcr2)).
      destruct (IH t) with (acc := acc ++ seg ++ [NL]) (s := s2)
        (r := {| src := frest s2 ++ beyond; src_err := src_err r;
                 numLine := numLine r + 1; FieldsPerRecord := FieldsPerRecord r |})
        (fields := fields) (fuel := fuel) as (r' & Hp & ?); try done.
      { rewrite length_app in Hlen. simpl in Hlen. lia. }
      { rewrite length_app in Hfuel. simpl in Hfuel. lia. }
      exists r'. split; [|done]. rewrite Hp. by rewrite <- !app_assoc.
Qed.

Lemma reads_record (fs : list bytes) : ∀ f, reads_from comma beyond f fs.
Proof using Hcomma.
  destruct comma_facts as (Hdq & Hnl & Hcr & Hlt).
  induction fs as [|f2 fs' IH]; intros f s r fields fuel Hs Hcrlf Hsrc Hfuel.
  - destruct fuel as [|fuel]; [lia|].
    unfold writeField in Hs. simpl wtail in Hs.
    destruct (fieldNeedsQuotes comma f) eqn:Hq.
    + simpl app in Hs. rewrite <- app_assoc in Hs. simpl app in Hs.
      set (s1 := escape f ++ [DQUOTE; NL]) in *. subst s.
      destruct (fline_app [DQUOTE] s1) as [Hl Hr].
      { rewrite list_elem_of_singleton. done. }
      simpl app in Hl, Hr. rewrite Hl. rewrite Hr in Hsrc.
      rewrite parse_open.
      assert (has_crlf s1 = false) as Hc1 by (by apply (has_crlf_app [DQUOTE])).
      assert (length s1 < fuel)%nat as Hf1 by (simpl in Hfuel; lia).
      destruct (reads_in_quotes [] ltac:(intros ? ? [=]) (S (length f)) f ltac:(lia)
                  [] s1 r fields fuel eq_refl Hc1 Hsrc Hf1) as (r' & Hp & ?).
      by exists r'.
    + subst s.
      destruct (fline_app_NL f []) as [Hl Hr]; [by apply unquoted_no_NL|].
      rewrite Hl. rewrite Hr in Hsrc.
      exists r. split_and!; try done. by apply parse_unquoted_end.
  - destruct fuel as [|fuel]; [lia|].
    unfold writeField in Hs. simpl wtail in Hs.
    set (s2 := writeField comma f2 ++ wtail comma fs') in *.
    destruct (fieldNeedsQuotes comma f) eqn:Hq.
    + simpl app in Hs. rewrite <- app_assoc in Hs. simpl app in Hs.
      set (s1 := escape f ++ DQUOTE :: comma :: s2) in *. subst s.
      destruct (fline_app [DQUOTE] s1) as [Hl Hr].
      { rewrite list_elem_of_singleton. done. }
      simpl app in Hl, Hr. rewrite Hl. rewrite Hr in Hsrc.
      rewrite parse_open.
      assert (has_crlf s1 = false) as Hc1 by (by apply (has_crlf_app [DQUOTE])).
      assert (length s1 < fuel)%nat as Hf1 by (simpl in Hfuel; lia).
      assert (∀ f3 fs3, f2 :: fs' = f3 :: fs3 → reads_from comma beyond f3 fs3) as Hnext.
      { intros ? ? [= <- <-]. apply IH. }
      destruct (reads_in_quotes (f2 :: fs') Hnext (S (length f)) f ltac:(lia)
                  [] s1 r fields fuel eq_refl Hc1 Hsrc Hf1) as (r' & Hp & ?).
      by exists r'.
    + subst s.
      destruct (fline_app (f ++ [comma]) s2) as [Hl Hr].
      { rewrite elem_of_app, list_elem_of_singleton. intros [Hin|?]; [|done].
        by apply unquoted_no_NL in Hin. }
      rewrite <- !app_assoc in Hl, Hr. simpl app in Hl, Hr.
      rewrite Hl, <- ?app_assoc. simpl app. rewrite Hr in Hsrc.
      rewrite parse_unquoted_comma by done.
      destruct (IH f2 s2 r (fields ++ [f]) fuel) as (r' & Hp & ?); try done.
      { apply (has_crlf_app (f ++ [comma])). by rewrite <- app_assoc. }
      { rewrite length_app in Hfuel. simpl in Hfuel. lia. }
      exists r'. split; [|done]. rewrite Hp. by rewrite <- app_assoc.
Qed.

(** *** What [Write] produces *)

Lemma writeFields_wtail (n : nat) (fs : list bytes) :
  writeFields comma (S n) fs ++ [NL] = wtail comma fs.
Proof.
  revert n. induction fs as [|f fs IH]; intros n; simpl; [done|].
  by rewrite <- !app_assoc, IH.
Qed.

Lemma Write_record (f : bytes) (fs : list bytes) :
  Write comma (f :: fs) = Ok (writeField comma f ++ wtail comma fs).
Proof using Hcomma.
  unfold Write. destruct Hcomma as [-> _]. simpl.
  by rewrite <- !app_assoc, writeFields_wtail.
Qed.

Lemma has_crlf_cons_ne (c : ascii) (t : bytes) :
  c ≠ CR → has_crlf (c :: t) = has_crlf t.
Proof. intros Hc. simpl. by rewrite bool_decide_eq_false_2. Qed.

Lemma has_crlf_no_CR (a t : bytes) : CR ∉ a → has_crlf (a ++ t) = has_crlf t.
Proof.
  induction a as [|c a IH]; intros Hcr; [done|].
  rewrite not_elem_of_cons in Hcr. destruct Hcr as [Hc Ha].
  change ((c :: a) ++ t) with (c :: (a ++ t)). rewrite has_crlf_cons_ne by done. by apply IH.
Qed.

Lemma has_crlf_escape (f t : bytes) :
  has_crlf f = false → has_crlf t = false →
  has_crlf (escape f ++ DQUOTE :: t) = false.
Proof.
  intros Hf Ht. induction f as [|c f IH]; [by simpl|].
  simpl in Hf. apply orb_false_iff in Hf as [Hc Hf]. specialize (IH Hf).
  simpl escape. destruct (decide (c = DQUOTE)) as [->|Hq].
  - rewrite bool_decide_eq_true_2 by done.
    change ((DQUOTE :: DQUOTE :: escape f) ++ DQUOTE :: t)
      with (DQUOTE :: DQUOTE :: (escape f ++ DQUOTE :: t)).
    do 2 (rewrite has_crlf_cons_ne by done). done.
  - rewrite bool_decide_eq_false_2 by done.
    change ((c :: escape f) ++ DQUOTE :: t) with (c :: (escape f ++ DQUOTE :: t)).
    simpl has_crlf. rewrite IH, orb_false_r.
    apply andb_false_iff in Hc as [Hc|Hc]; [by rewrite Hc|].
    rewrite andb_false_iff. right.
    rewrite bool_decide_eq_false in *.
    destruct f as [|x f]; [done|]. simpl escape. simpl in Hc.
    destruct (decide (x = DQUOTE)) as [->|Hx].
    + rewrite bool_decide_eq_true_2 by done. simpl. by intros [=].
    + by rewrite bool_decide_eq_false_2 by done.
Qed.

Lemma has_crlf_field (f t : bytes) :
  has_crlf f = false → has_crlf t = false →
  has_crlf (writeField comma f ++ t) = false.
Proof using Hcomma.
  intros Hf Ht. unfold writeField. destruct (fieldNeedsQuotes comma f) eqn:Hq.
  - simpl app. rewrite <- app_assoc. simpl app.
    rewrite has_crlf_cons_ne by done. by apply has_crlf_escape.
  - destruct f as [|c f]; [done|].
    destruct (unquoted_facts (c :: f) Hq) as (_ & Hcr & _); [done|].
    by rewrite has_crlf_no_CR.
Qed.

Lemma has_crlf_wtail (fs : list bytes) :
  Forall (λ f, has_crlf f = false) fs → has_crlf (wtail comma fs) = false.
Proof using Hcomma.
  destruct comma_facts as (_ & _ & Hcr & _).
  induction 1 as [|f fs Hf Hfs IH]; [done|].
  simpl wtail. rewrite has_crlf_cons_ne by done. by apply has_crlf_field.
Qed.

Lemma written_head (f : bytes) (fs : list bytes) :
  (f = [] → fs ≠ []) →
  head (writeField comma f ++ wtail comma fs) ≠ Some NL.
Proof using Hcomma.
  destruct comma_facts as (_ & Hnl & _ & _).
  intros Hne. unfold writeField. destruct (fieldNeedsQuotes comma f) eqn:Hq; [done|].
  destruct f as [|c f].
  - destruct fs as [|f2 fs]; [by destruct Hne|]. simpl. congruence.
  - destruct (unquoted_facts (c :: f) Hq) as (Hfnl & _); [done|].
    simpl. intros [= ->]. apply Hfnl. by left.
Qed.

Lemma first_line_not_empty (s : bytes) :
  NL ∈ s → head s ≠ Some NL →
  (length (fline s) =? lengthNL (fline s))%nat = false.
Proof.
  intros Hin Hhead. destruct (fline_ends s Hin) as (lb & Hl & Hlb).
  rewrite Hl, lengthNL_snoc, length_app. simpl.
  destruct lb as [|c lb].
  - exfalso. apply Hhead. rewrite <- (fline_frest s), Hl. done.
  - simpl. apply Nat.eqb_neq. lia.
Qed.

(** *** Reading back what was written *)

Lemma Read_written (r : Reader) (f : bytes) (fs : list bytes) :
  (f = [] → fs ≠ []) →
  Forall (λ f, has_crlf f = false) (f :: fs) →
  src r = (writeField comma f ++ wtail comma fs) ++ beyond →
  FieldsPerRecord r = 0 ∨ FieldsPerRecord r = Z.of_nat (length (f :: fs)) →
  ∃ r', Read comma r = (ReadRecord (f :: fs), r') ∧ src r' = beyond ∧
        FieldsPerRecord r' = Z.of_nat (length (f :: fs)) ∧
        src_err r' = src_err r.
Proof using Hcomma.
  intros Hne Hall Hsrc Hfpr.
  set (s := writeField comma f ++ wtail comma fs) in *.
  assert (NL ∈ s) as Hin.
  { subst s. apply elem_of_app. right. apply wtail_NL. }
  assert (has_crlf s = false) as Hcr.
  { subst s. inversion Hall; subst. apply has_crlf_field; [done|]. by apply has_crlf_wtail. }
  unfold Read. destruct Hcomma as [Hv _]. rewrite Hv. simpl negb. cbv iota.
  set (fuel := S (S (length (src r)))).
  set (r1 := {| src := frest s ++ beyond; src_err := src_err r;
                numLine := numLine r + 1; FieldsPerRecord := FieldsPerRecord r |}).
  assert (skipEmpty fuel r = (fline s, NoErr, r1)) as ->.
  { unfold fuel. simpl skipEmpty. rewrite (readLine_stream r s beyond Hsrc Hin Hcr).
    fold r1. by rewrite first_line_not_empty by (done || by apply written_head). }
  destruct (reads_record fs f s r1 [] fuel eq_refl Hcr eq_refl) as (r' & Hp & Hb & Hf & He).
  { unfold fuel. rewrite Hsrc, length_app. lia. }
  rewrite Hp. simpl app. cbv iota beta.
  rewrite Hf. simpl FieldsPerRecord.
  destruct Hfpr as [Hz|Hn].
  - rewrite Hz. simpl. eexists. split; [done|]. split; [done|]. split; [done|]. done.
  - rewrite Hn. destruct (Z.ltb_spec 0 (Z.of_nat (length (f :: fs)))); [|simpl in *; lia].
    rewrite Z.eqb_refl. simpl negb. cbv iota.
    exists r'. split; [done|]. split; [done|]. split; [by rewrite Hf|done].
Qed.
End gocsv_proofs.

Section round_trip.
Import GoCSVAux ExporterAux RoundTripAux.
Context (fmt_float : float64 → string).

Lemma plain_comma : plain_delim ",".
Proof. done. Qed.

Lemma bytes_of_string_nil (t : string) : Exporter.bytes_of_string t = [] → t = "".
Proof. by destruct t. Qed.

(** C2, amended (round trip through CSV).  Let the textual forms of a row be
    given by [formatValue]: the empty text for null, [true] or [false] for a
    boolean, the bytes themselves for a byte sequence, the decimal digits
    for an integer.  Provided the row has a column, is not a single column
    with the empty textual form, and no textual form holds a carriage return
    followed at once by a line feed, the CSV exporter appends one record to
    its buffer, and the CSV importer, whose reader stands before that record
    and expects that many fields (or has not yet fixed their number), reads
    back the row of these textual forms, as text, and stands right after
    the record. *)
Theorem csv_round_trip (row : Row) (w : Exporter.CSVOpen) (c : Importer.CSVOpen)
    (beyond : bytes) :
  let record := texts fmt_float row in
  Exporter.csv_comma w = ","%char →
  Importer.csv_comma c = ","%char →
  record ≠ [] → record ≠ [""] → Forall no_crlf record →
  GoCSV.src (Importer.csv_reader c) = written "," record ++ beyond →
  GoCSV.FieldsPerRecord (Importer.csv_reader c) = 0 ∨
  GoCSV.FieldsPerRecord (Importer.csv_reader c) = Z.of_nat (length row) →
  Exporter.CSVWriteRow fmt_float w row =
    (None, {| Exporter.csv_comma := ",";
              Exporter.csv_buf := Exporter.csv_buf w ++ written "," record;
              Exporter.csv_file := Exporter.csv_file w;
              Exporter.csv_write_err := Exporter.csv_write_err w |}) ∧
  ∃ c', Importer.CSVNextRow c = (Ok (VString <$> record), c') ∧
        GoCSV.src (Importer.csv_reader c') = beyond.
Proof.
  intros record Hw Hc Hne Hne1 Hcr Hsrc Hfpr. subst record.
  unfold texts, written in *.
  split.
  - unfold Exporter.CSVWriteRow, Exporter.csv_write, GoCSV.Write. by rewrite Hw.
  - destruct (Exporter.formatValue fmt_float <$> row) as [|t ts] eqn:Ht; [done|].
    assert (length row = length (t :: ts)) as Hlen.
    { by rewrite <- Ht, length_fmap. }
    rewrite fmap_cons in Hsrc.
    set (f := Exporter.bytes_of_string t) in *.
    set (fs := Exporter.bytes_of_string <$> ts) in *.
    assert (GoCSV.writeFields "," 0 (f :: fs) ++ [GoCSV.NL]
            = GoCSV.writeField "," f ++ wtail "," fs) as Hwritten.
    { pose proof (Write_record "," plain_comma f fs) as Hwr.
      unfold GoCSV.Write in Hwr. simpl in Hwr. by injection Hwr. }
    rewrite Hwritten in Hsrc.
    destruct (Read_written "," plain_comma beyond (Importer.csv_reader c) f fs)
      as (r' & Hread & Hb & _ & _).
    + intros Hf. subst f fs. apply bytes_of_string_nil in Hf as ->.
      destruct ts; [done|done].
    + subst f fs. change (Forall (λ f, has_crlf f = false)
                           (Exporter.bytes_of_string <$> t :: ts)).
      apply Forall_fmap. eapply Forall_impl; [exact Hcr|]. done.
    + done.
    + simpl length. subst fs. rewrite length_fmap. simpl length in Hlen.
      rewrite <- Hlen. exact Hfpr.
    + unfold Importer.CSVNextRow. rewrite Hc, Hread.
      exists {| Importer.csv_comma := ","; Importer.csv_reader := r';
                Importer.csv_columns := Importer.csv_columns c |}.
      split; [|exact Hb].
      do 2 f_equal. subst f fs. simpl fmap.
      unfold Importer.string_of_bytes, Exporter.bytes_of_string.
      rewrite String.string_of_list_ascii_of_string. f_equal.
      rewrite <- list_fmap_compose. apply list_eq. intros i.
      rewrite !list_lookup_fmap. destruct (ts !! i); simpl; [|done].
      by rewrite String.string_of_list_ascii_of_string.
Qed.

(** The header-only file of an export without rows is a valid input of the
    CSV importer: it yields the columns, and then the end of the input. *)
Lemma header_only_reads_back (columns : list string) :
  columns ≠ [] → columns ≠ [""] → Forall no_crlf columns →
  ∃ st, Importer.CSVOpenFile (csv_importer_of (header_line "," columns))
          = Ok (columns, st) ∧
        (Importer.CSVNextRow st).1 = Err "EOF".
Proof.
  intros Hne Hne1 Hcr. destruct columns as [|t ts]; [done|].
  unfold Importer.CSVOpenFile, csv_importer_of, Importer.csv_open_file. simpl.
  set (f := Exporter.bytes_of_string t).
  set (fs := Exporter.bytes_of_string <$> ts).
  assert (header_line "," (t :: ts) = GoCSV.writeField "," f ++ wtail "," fs) as Hh.
  { pose proof (Write_record "," plain_comma f fs) as Hwr.
    unfold GoCSV.Write in Hwr. simpl in Hwr. by injection Hwr. }
  destruct (Read_written "," plain_comma [] (GoCSV.NewReader (header_line "," (t :: ts)) None)
              f fs) as (r' & Hread & Hb & _ & He).
  - intros Hf. subst f fs. apply bytes_of_string_nil in Hf as ->. by destruct ts.
  - subst f fs. change (Forall (λ f, has_crlf f = false)
                          (Exporter.bytes_of_string <$> t :: ts)).
    apply Forall_fmap. eapply Forall_impl; [exact Hcr|]. done.
  - simpl. by rewrite Hh, app_nil_r.
  - by left.
  - rewrite Hread. eexists. split.
    + do 2 f_equal. subst f fs.
      change ((Importer.string_of_bytes <$> (Exporter.bytes_of_string <$> t :: ts)) = t :: ts).
      rewrite <- list_fmap_compose. rewrite <- (list_fmap_id (t :: ts)) at 2.
      apply list_fmap_ext. intros i x _. simpl.
      apply String.string_of_list_ascii_of_string.
    + apply CSV_exhausted; simpl; done.
Qed.
End round_trip.

Section round_trip_closed.
Import GoCSVAux ExporterAux RoundTripAux.

Lemma csv_round_trip_witness :
  Exporter.CSVWriteRow no_float sample_writer sample_row =
    (None, {| Exporter.csv_comma := ",";
              Exporter.csv_buf := written "," (texts no_float sample_row);
              Exporter.csv_file := []; Exporter.csv_write_err := None |}) ∧
  ∃ c', Importer.CSVNextRow sample_reader
          = (Ok [VString "7"; VString ""; VString " x,y"; VString "true"; VString "z"], c') ∧
        GoCSV.src (Importer.csv_reader c') = Exporter.bytes_of_string "8,,,,".
Proof.
  apply (csv_round_trip no_float sample_row sample_writer sample_reader
           (Exporter.bytes_of_string "8,,,,")); try done.
  - repeat constructor.
  - by right.
Defined.

(** C2, counterexample: the export of a table with the single column [name]
    and the single row (null) leaves the header line followed by an empty
    line; the importer reads the header and then reports the end of the
    input, the row is lost.  And a value [a CR LF b] comes back as
    [a LF b]. *)
Lemma csv_round_trip_fails :
  Exporter.run_file (Exporter.ExportData no_float no_json null_world (export_config "csv"))
    = Some (Exporter.Bytes null_file) ∧
  (∃ st, Importer.CSVOpenFile (csv_importer_of null_file) = Ok (["name"], st) ∧
         (Importer.CSVNextRow st).1 = Err "EOF" ∧
         (Importer.CSVNextRow st).1 ≠ Ok (VString <$> texts no_float [VNull])) ∧
  (∃ st, Importer.CSVOpenFile
           (csv_importer_of (written "," ["text"]
                             ++ written "," (texts no_float
                                  [VString (String "a" (String GoCSV.CR (String GoCSV.NL "b")))])))
         = Ok (["text"], st) ∧
         (Importer.CSVNextRow st).1 = Ok [VString (String "a" (String GoCSV.NL "b"))]).
Proof.
  split_and!.
  - by vm_compute.
  - eexists. split; [by vm_compute|]. split; by vm_compute.
  - eexists. split; by vm_compute.
Qed.
End round_trip_closed.

Section tab_delimiter.
Import GoCSVAux ExporterAux RoundTripAux.
(** With a tab for delimiter the reader's trimming of leading white space
    eats the tab that follows an empty first field. *)
Example tab_after_empty_field_is_trimmed :
  written "009" ["id"; "name"] ++ written "009" (texts no_float [VNull; VString "x"])
    = Exporter.bytes_of_string "id" ++ ["009"%char] ++ Exporter.bytes_of_string "name"
      ++ [GoCSV.NL; "009"%char; "x"%char; GoCSV.NL] ∧
  ∃ st, Importer.CSVOpenFile
          (Importer.NewCSVImporter
             (λ _, Regular (written "009" ["id"; "name"]
                            ++ written "009" (texts no_float [VNull; VString "x"])))
             "out.tsv" "009") = Ok (["id"; "name"], st) ∧
        (Importer.CSVNextRow st).1
          = Err "failed to read row: record on line 2: wrong number of fields".
Proof. split; [by vm_compute|]. eexists. split; by vm_compute. Qed.
End tab_delimiter.

(** ** Export orchestrator *)

Section exporter_proofs.
Import Exporter ExporterAux.
Context (fmt_float : float64 → string).
Context (json_marshal : gmap string Value → Result bytes).

Lemma csv_header_only disk path comma columns :
  GoCSV.validDelim comma = true →
  create_err disk path = None → write_err disk path = None →
  ∃ st, CSVOpenFile disk (NewCSVExporter path comma columns) = Ok st ∧
        CSVFlush st = (None, {| csv_comma := comma; csv_buf := [];
                                csv_file := header_line comma columns;
                                csv_write_err := None |}).
Proof.
  intros Hd Hc Hw. unfold CSVOpenFile, csv_write, GoCSV.Write. simpl.
  rewrite Hc, Hd, Hw. simpl. eexists. split; [done|]. done.
Qed.

(** C9, amended (zero-row export).  When the database answers, the query
    yields a cursor with no row and no error and the output file can be
    created and written, [ExportData] returns no error with a final count
    of 0; for csv and tsv the file holds the header line made of the
    column set and nothing else, for jsonl it is empty.  The csv file is a
    valid header-only input, which the CSV importer opens with exactly
    these columns before it reports [EOF], provided there is a column, the
    column set is not a single empty name, and no name holds a carriage
    return followed at once by a line feed.  With no column or a single
    empty name the file is a lone line feed, which the CSV importer
    refuses. *)
Theorem zero_row_export (w : World) (config : Config) connector (columns : list string) :
  DB.NewConnector (w_ping w) (DSN config) = Ok connector →
  w_query w connector (Query config) = Ok (empty_cursor columns) →
  create_err (w_disk w) (OutputFile config) = None →
  write_err (w_disk w) (OutputFile config) = None →
  let run := ExportData fmt_float json_marshal w config in
  (OutputFormat config = "csv" →
     run = {| run_err := None; run_count := 0;
              run_file := Some (Bytes (header_line "," columns)) |} ∧
     (columns ≠ [] → columns ≠ [""] → Forall RoundTripAux.no_crlf columns →
      ∃ st, Importer.CSVOpenFile
              (RoundTripAux.csv_importer_of (header_line "," columns))
            = Ok (columns, st) ∧
            (Importer.CSVNextRow st).1 = Err "EOF") ∧
     (columns = [] ∨ columns = [""] →
      header_line "," columns = [GoCSV.NL] ∧
      Importer.CSVOpenFile (RoundTripAux.csv_importer_of (header_line "," columns))
      = Err "failed to read header: EOF")) ∧
  (OutputFormat config = "tsv" →
     run = {| run_err := None; run_count := 0;
              run_file := Some (Bytes (header_line "009" columns)) |}) ∧
  (OutputFormat config = "jsonl" →
     run = {| run_err := None; run_count := 0; run_file := Some (Bytes []) |}).
Proof.
  intros Hconn Hquery Hcreate Hwrite run. subst run.
  unfold ExportData. rewrite Hconn, Hquery. simpl.
  split_and!; intros Hfmt; unfold select_exporter; rewrite Hfmt; simpl.
  - split_and!.
    + unfold CSVOpenFile, csv_write, GoCSV.Write. simpl.
      rewrite Hcreate, Hwrite. simpl. unfold CSVClose. simpl. by rewrite app_nil_r.
    + intros Hne Hne1 Hcr. by apply header_only_reads_back.
    + intros [->| ->]; split; by vm_compute.
  - unfold CSVOpenFile, csv_write, GoCSV.Write. simpl.
    rewrite Hcreate, Hwrite. simpl. unfold CSVClose. simpl. by rewrite app_nil_r.
  - unfold JSONLOpenFile. simpl. rewrite Hcreate, Hwrite. simpl. done.
Qed.
End exporter_proofs.

Section exporter_closed.
Import Exporter ExporterAux.

Lemma zero_row_export_witness :
  ExportData no_float no_json (quiet_world ["id"; "name"]) (export_config "csv")
  = {| run_err := None; run_count := 0;
       run_file := Some (Bytes (bytes_of_string ("id,name" +:+ String GoCSV.NL ""))) |} ∧
  (∃ st, Importer.CSVOpenFile
           (RoundTripAux.csv_importer_of
              (bytes_of_string ("id,name" +:+ String GoCSV.NL "")))
         = Ok (["id"; "name"], st) ∧
         (Importer.CSVNextRow st).1 = Err "EOF") ∧
  ExportData no_float no_json (quiet_world ["id"; "name"]) (export_config "jsonl")
  = {| run_err := None; run_count := 0; run_file := Some (Bytes []) |}.
Proof.
  pose proof (zero_row_export no_float no_json (quiet_world ["id"; "name"])
                (export_config "csv") DB.Postgres ["id"; "name"]
                eq_refl eq_refl eq_refl eq_refl) as (Hcsv & _ & _).
  pose proof (zero_row_export no_float no_json (quiet_world ["id"; "name"])
                (export_config "jsonl") DB.Postgres ["id"; "name"]
                eq_refl eq_refl eq_refl eq_refl) as (_ & _ & Hjsonl).
  destruct (Hcsv eq_refl) as (Hrun & Hvalid & _).
  split_and!.
  - rewrite Hrun. reflexivity.
  - apply Hvalid; [done|done|]. by repeat constructor.
  - exact (Hjsonl eq_refl).
Defined.

(** C9, counterexample: the export of a query without rows whose only
    column has the empty name succeeds and leaves a file of one line feed;
    the CSV importer does not take it for a header: it fails on it with
    [failed to read header: EOF]. *)
Lemma zero_row_export_header_unreadable :
  ExportData no_float no_json (quiet_world [""]) (export_config "csv")
  = {| run_err := None; run_count := 0;
       run_file := Some (Bytes [GoCSV.NL]) |} ∧
  Importer.CSVOpenFile (RoundTripAux.csv_importer_of [GoCSV.NL])
  = Err "failed to read header: EOF".
Proof. split; by vm_compute. Qed.
End exporter_closed.

(** ** The worker pool with failures and cancellation *)

Section workerctx_proofs.
Import Worker WorkerInv WorkerCtx WorkerCtxInv.
Context (p : Pool).

Lemma batches_log_call i b st : batches (log_call i b st) = batches st ++ [b].
Proof. unfold batches. simpl. by rewrite fmap_app. Qed.

Lemma taken_log_receive i b st : taken (log_receive i b st) = taken st ++ [b].
Proof. unfold taken. simpl. by rewrite fmap_app. Qed.

Lemma conserved_init rows : conserved rows (init p rows).
Proof. unfold conserved, emitted, taken. simpl. split; [done|constructor]. Qed.

Lemma conserved_step rows st st' :
  conserved rows st → step p st st' → conserved rows st'.
Proof.
  intros [Hrows Hne] [Hstep|Hstep]; destruct Hstep; destruct st;
    unfold conserved, emitted, taken in *; simpl in *; subst;
    rewrite ?fmap_app, <- ?app_assoc in *; simpl in *;
    rewrite ?concat_app, <- ?app_assoc in *; simpl in *;
    rewrite ?app_nil_r in *; try done.
  - split; [done|]. rewrite app_assoc. apply Forall_app. split; [done|].
    by constructor.
  - split; [done|]. by rewrite Forall_app, Forall_singleton.
Qed.

Lemma conserved_reachable rows st : reachable p rows st → conserved rows st.
Proof.
  intros H. eapply (rtc_ind_r (R:=step p) (conserved rows));
    [apply conserved_init| |exact H].
  intros y z _ Hs Hy. by eapply conserved_step.
Qed.

Lemma structure_init rows : structure p (init p rows).
Proof.
  unfold structure. simpl. split_and!; try done.
  - by rewrite length_replicate.
  - split; [done|]. intros [|[e ?]]; done.
  - intros _ _. by apply Forall_replicate.
Qed.

Lemma Exists_insert {A} (P : A → Prop) (l : list A) i x y :
  l !! i = Some y → P x → Exists P (<[i:=x]> l).
Proof.
  intros Hi Hx. apply Exists_exists. exists x. split; [|done].
  apply list_elem_of_lookup. exists i. apply list_lookup_insert_eq.
  by eapply lookup_lt_Some.
Qed.

Lemma Forall_done_lookup (l : list WorkerPC) i pc :
  Forall (λ pc, pc = WDone) l → l !! i = Some pc → pc = WDone.
Proof. intros H Hi. by eapply (Forall_lookup_1 _ _ _ _ H). Qed.

Lemma room_live (l : list WorkerPC) (bc : list (list Row)) :
  length l = Z.to_nat (workers p) → has_room bc (batchCap p) →
  Forall live l → Exists live l.
Proof.
  unfold has_room, batchCap. intros Hlen Hroom Hl.
  destruct l as [|pc l]; [simpl in Hlen; lia|].
  apply Exists_cons_hd. by apply Forall_cons_1 in Hl as [? _].
Qed.

Lemma structure_step st st' :
  structure p st → step p st st' → structure p st'.
Proof.
  intros (Hlen & Hdone & Hclosed & Hpend & Hab & Hret & Hfinal & Hquiet & Hlive & Hex)
    [Hstep|Hstep]; destruct Hstep; destruct st;
    unfold structure in *; simpl in *; subst.
  all: try destruct final.
  all: unfold after_append, after_flush in *; simpl in *.
  all: try case_match.
  all: split_and!; try done.
  all: rewrite ?length_insert, ?orb_true_r, ?orb_false_r; try done.
  all: try solve [intuition (eauto using Forall_insert, Exists_insert; try congruence)].
  all: try (split; [by intros [?|[? ?]]%Hclosed | by intros [?|[? ?]]]).
  all: try (intros e He; destruct (Hret e He) as [Ha Hw];
            first [ done
                  | match goal with
                    | Hi : _ !! _ = Some _ |- _ =>
                        by pose proof (Forall_done_lookup _ _ _ Hw Hi)
                    end ]).
  all: try (intros Hc Hb; apply Forall_insert; [by apply Hlive|done]).
  all: try (intros _ _; eapply Exists_insert; [done|done]).
  all: intros Hc _; eapply room_live; [done..|]; apply Hlive; [done|].
  all: destruct batchClosed0; [by pose proof (proj2 Hdone eq_refl)|done].
Qed.

Lemma structure_reachable rows st : reachable p rows st → structure p st.
Proof.
  intros H. eapply (rtc_ind_r (R:=step p) (structure p));
    [apply (structure_init rows)| |exact H].
  intros y z _ Hs Hy. by eapply structure_step.
Qed.

Section shape.
Context (HB : 1 ≤ batchSize p).

Lemma shape_init rows : shape p (init p rows).
Proof using HB.
  intros _. unfold emitted, taken, short. simpl. split; [constructor|lia].
Qed.

Lemma shape_step st st' : shape p st → step p st st' → shape p st'.
Proof using HB.
  intros Hshape [Hstep|Hstep]; destruct Hstep; destruct st;
    unfold shape, emitted, taken in *; simpl in *; subst; try done.
  all: try destruct final; simpl.
  all: intros Hc; specialize (Hshape Hc).
  all: rewrite ?fmap_app, <- ?app_assoc; simpl.
  all: try done.
  - destruct Hshape as [Hem Hsh].
    by destruct (after_append_cases p batch0 r Hsh) as [[-> Hf]|[-> Hs]].
  - destruct Hshape as [Hem Hsh].
    by destruct (after_append_cases p batch0 r Hsh) as [[-> Hf]|[-> Hs]].
  - destruct Hshape as [Hem Hsh]. exists (received0.*2 ++ batchCh0), [].
    rewrite app_nil_r. auto.
  - destruct Hshape as [Hem Hsh]. split; [done|]. unfold short. simpl. lia.
  - destruct Hshape as [Hem Hsh]. exists (received0.*2 ++ batchCh0), [batch0].
    rewrite <- app_assoc. split_and!; [done..|]. right. eauto.
  - destruct Hshape as [Hem Hsh]. split; [|unfold short; simpl; lia].
    rewrite app_assoc. apply Forall_app. split; [done|]. by constructor.
  - destruct Hshape as [Hem Hsh]. exists (received0.*2), [batch0].
    rewrite app_nil_r in Hem. split_and!; [done..|]. right. eauto.
  - destruct Hshape as [Hem Hsh]. split; [|unfold short; simpl; lia].
    rewrite app_nil_r in Hem. apply Forall_app. split; [done|]. by constructor.
Qed.

Lemma shape_reachable rows st : reachable p rows st → shape p st.
Proof using HB.
  intros H. eapply (rtc_ind_r (R:=step p) (shape p));
    [apply (shape_init rows)| |exact H].
  intros y z _ Hs Hy. by eapply shape_step.
Qed.
End shape.

Lemma Exists_insert_other {A} (P : A → Prop) (l : list A) i x y :
  Exists P l → l !! i = Some y → ¬ P y → Exists P (<[i:=x]> l).
Proof.
  intros (z & (j & Hj)%list_elem_of_lookup & Hz)%Exists_exists Hi Hy.
  destruct (decide (i = j)) as [->|Hne]; [congruence|].
  apply Exists_exists. exists z. split; [|done].
  apply list_elem_of_lookup. exists j. by rewrite list_lookup_insert_ne.
Qed.

Lemma not_Exists_done {P : WorkerPC → Prop} (l : list WorkerPC) :
  Forall (λ pc, pc = WDone) l → ¬ P WDone → ¬ Exists P l.
Proof.
  intros Hd Hn (z & Hz & HP)%Exists_exists.
  rewrite Forall_forall in Hd. by rewrite (Hd z Hz) in HP.
Qed.

Lemma from_failure_mono st st' e :
  failures st ⊆ failures st' → from_failure st e → from_failure st' e.
Proof. intros Hsub (i & msg & Hin & ->). exists i, msg. split; [by apply Hsub|done]. Qed.

Lemma reporting_init rows : reporting (init p rows).
Proof.
  unfold reporting. simpl. split_and!; try done; [by left|].
  intros i msg [[=] _]%lookup_replicate.
Qed.

Lemma reporting_step st st' :
  structure p st → reporting st → step p st st' → reporting st'.
Proof.
  intros (_ & _ & _ & _ & _ & Hret & _) (Ha & Hb & Hc & Hd & He & Hf)
    [Hstep|Hstep]; destruct Hstep; destruct st;
    unfold reporting, from_failure in *; simpl in *; subst.
  all: split_and!; try done.
  (* the client moves on, or a worker that reports nothing does *)
  all: try (intros _ Hne; by apply Hd).
  all: try (intros Hn Hne; destruct (Hd Hn Hne) as [?|Hx]; [by left|right];
            eapply Exists_insert_other; [done..|]; unfold reports; by intros [? ?]).
  all: try (intros Hcn; destruct (He Hcn) as [?|Hx]; [by left|right];
            eapply Exists_insert_other; [done..|];
            unfold failing, reports; by intros [?|[? ?]]).
  all: try (intros j m Hj; apply Hf;
            match goal with
            | Hi : _ !! ?i = Some _ |- _ =>
                destruct (decide (i = j)) as [->|Hij];
                [ rewrite list_lookup_insert_eq in Hj by (by eapply lookup_lt_Some);
                  by inversion Hj
                | by rewrite list_lookup_insert_ne in Hj ]
            end).
  - (* Close returns what is in errorCh *)
    intros e [= He']. by apply Ha.
  - intros [= He']. destruct failures0 as [|f fs]; [done|exfalso].
    destruct (Hd ltac:(done) ltac:(done)) as [?|Hx]; [done|].
    eapply not_Exists_done; [done| |done]. unfold reports. by intros [? ?].
  - intros Hn. by destruct (Hn errorCh0).
  - (* processBatch fails *)
    intros e He'. destruct (Ha e He') as (i0 & m0 & Hin & ->).
    exists i0, m0. split; [|done]. apply elem_of_app. by left.
  - intros e He'. destruct (Hb e He') as (i0 & m0 & Hin & ->).
    exists i0, m0. split; [|done]. apply elem_of_app. by left.
  - intros He'. destruct (Hret _ He') as [_ Hw].
    by pose proof (Forall_done_lookup _ _ _ Hw H).
  - intros _ _. right. eapply Exists_insert; [done|]. by eexists.
  - intros _. right. eapply Exists_insert; [done|]. right. by eexists.
  - intros j m Hj. apply elem_of_app.
    destruct (decide (i = j)) as [->|Hij].
    + rewrite list_lookup_insert_eq in Hj by (by eapply lookup_lt_Some).
      inversion Hj; subst. right. by apply list_elem_of_singleton.
    + rewrite list_lookup_insert_ne in Hj by done. left. by apply Hf.
  - (* the error is offered to errorCh *)
    intros e He'. destruct errorCh0 as [e0|]; simpl in He'.
    + by apply Ha.
    + inversion He'; subst. exists i, msg. split; [by apply Hf|done].
  - intros _ _. left. by destruct errorCh0.
  - intros _. right. eapply Exists_insert; [done|]. by left.
Qed.

Lemma reporting_reachable rows st : reachable p rows st → reporting st.
Proof.
  intros H. eapply (rtc_ind_r (R:=step p) (λ st, structure p st ∧ reporting st));
    [| |exact H].
  - split; [apply structure_init|apply reporting_init].
  - intros y z _ Hs [Hst Hr]. split; [by eapply structure_step|by eapply reporting_step].
Qed.

(** Without a worker nothing is ever received or processed. *)
Lemma calls_need_worker rows st :
  reachable p rows st → wpc st = [] → calls st = [] ∧ received st = [].
Proof.
  intros H.
  eapply (rtc_ind_r (R:=step p) (λ st, wpc st = [] → calls st = [] ∧ received st = [])
            (init p rows));
    [done| |exact H].
  intros y z _ [Hs|Hs] Hy; destruct Hs; destruct st0; simpl in *; subst; try done.
  all: intros Hnil; try (by apply Hy).
  all: exfalso; apply (f_equal length) in Hnil; rewrite length_insert in Hnil.
  all: match goal with Hi : _ !! _ = Some _ |- _ => apply lookup_lt_Some in Hi end.
  all: simpl in Hnil; lia.
Qed.

(** *** Every run is finite *)

Lemma sum_insert {A} (f : A → nat) (l : list A) i old new :
  l !! i = Some old →
  (sum_list_with f (<[i:=new]> l) + f old = sum_list_with f l + f new)%nat.
Proof.
  revert i. induction l as [|x l IH]; intros [|i] Hi; simpl in *; try done.
  - inversion Hi; subst. lia.
  - specialize (IH i Hi). lia.
Qed.

Lemma acc_weight_append b : (acc_weight (after_append p b) ≤ 3)%nat.
Proof. unfold after_append. case_match; simpl; lia. Qed.

Lemma acc_weight_flush final :
  (acc_weight (after_flush final) + 1 = acc_weight (AccFlush final))%nat.
Proof. by destruct final. Qed.

Lemma measure_step st st' : step p st st' → (measure st' < measure st)%nat.
Proof.
  intros [Hstep|Hstep]; destruct Hstep; destruct st; unfold measure;
    simpl in *; subst; simpl;
    rewrite ?length_app, ?sum_list_with_app; simpl;
    try match goal with
        | Hi : ?l !! ?i = Some ?old |- context [<[?i:=?new]> ?l] =>
            pose proof (sum_insert worker_weight l i old new Hi); simpl in *
        end;
    try pose proof (acc_weight_append (batch0 ++ [r]));
    try pose proof (acc_weight_flush final);
    try (destruct final; simpl in * );
    try (destruct cancelled0; simpl in * );
    unfold queued_weight in *;
    try match goal with Hne : ?b ≠ [] |- _ => destruct b; [done|simpl in *] end;
    try lia.
Qed.

Lemma step_sn st : sn (step p) st.
Proof.
  cut (∀ n st, (measure st < n)%nat → sn (step p) st); [eauto|].
  clear st. induction n as [|n IH]; intros st Hlt; [lia|].
  constructor. intros st' Hs. unfold flip in Hs. apply IH.
  pose proof (measure_step _ _ Hs). lia.
Qed.

(** *** No goroutine is ever stuck *)

Lemma workers_done_or_live (l : list WorkerPC) :
  Forall (λ pc, pc = WDone) l ∨ ∃ i pc, l !! i = Some pc ∧ live pc.
Proof.
  induction l as [|pc l [IH|(i & pc' & Hi & Hpc)]].
  - left. constructor.
  - destruct pc; try (right; exists 0%nat; eexists; split; [done|done]).
    left. by constructor.
  - right. by exists (S i), pc'.
Qed.

Lemma live_worker_steps st i pc :
  wpc st !! i = Some pc → live pc →
  batchCh st ≠ [] ∨ batchClosed st = true ∨ cancelled st = true →
  ∃ st', pstep p st st'.
Proof.
  intros Hi Hpc Hen. destruct pc as [|b|b|msg| |]; [| | | | |done].
  - destruct (batchCh st) as [|b q] eqn:Hb.
    + destruct Hen as [?|[Hcl|Hca]]; [done| |].
      * eexists. by eapply step_worker_closed.
      * eexists. by eapply step_worker_cancelled.
    + eexists. by eapply step_worker_take.
  - eexists. by eapply step_worker_call.
  - eexists. by eapply step_worker_ok.
  - eexists. by eapply step_worker_report.
  - eexists. by eapply step_worker_cancel.
Qed.

Lemma acc_or_worker_steps st :
  structure p st → 1 ≤ workers p → acc st ≠ AccDone →
  inputCh st ≠ [] ∨ inputClosed st = true ∨ cancelled st = true →
  ∃ st', pstep p st st'.
Proof.
  intros (Hlen & Hdone & _ & _ & _ & _ & _ & _ & Hlive & _) HW Hacc Hen.
  destruct (acc st) as [|final|] eqn:Ha; [| |done].
  - destruct (inputCh st) as [|r q] eqn:Hi.
    + destruct Hen as [?|[Hcl|Hca]]; [done| |].
      * eexists. by eapply step_acc_closed.
      * eexists. by eapply step_acc_cancelled.
    + eexists. by eapply step_acc_recv.
  - destruct (batch st) as [|r b] eqn:Hb.
    { eexists. by eapply step_flush_empty. }
    destruct (cancelled st) eqn:Hca.
    { eexists. eapply step_flush_cancelled; [done| |done]. by rewrite Hb. }
    destruct (decide (Z.of_nat (length (batchCh st)) < batchCap p)) as [Hroom|Hfull].
    { eexists. eapply step_flush_send; [done| |done]. by rewrite Hb. }
    assert (batchClosed st = false) as Hbc.
    { destruct (batchClosed st); [|done]. by pose proof (proj2 Hdone eq_refl). }
    pose proof (Hlive eq_refl Hbc) as Hl.
    destruct (wpc st) as [|pc l] eqn:Hw; [simpl in Hlen; lia|].
    apply (live_worker_steps st 0 pc).
    + by rewrite Hw.
    + by apply Forall_cons_1 in Hl as [? _].
    + left. intros Hnil. rewrite Hnil in Hfull. unfold batchCap in Hfull.
      simpl in Hfull. lia.
Qed.

Lemma acc_done_dec (a : AccPC) : a = AccDone ∨ a ≠ AccDone.
Proof. destruct a; auto. Qed.

Lemma pool_steps st :
  structure p st → 1 ≤ workers p → ¬ quiescent st → ∃ st', pstep p st st'.
Proof.
  intros Hst HW Hnq.
  pose proof Hst as (Hlen & Hdone & Hclosed & Hpend & Hab & Hret & Hfinal & Hquiet
                     & Hlive & Hex).
  assert (acc st = AccDone → batchClosed st = true) as Hbc by apply Hdone.
  destruct (client st) as [| |e|] eqn:Hc.
  - (* the client is submitting *)
    destruct (pending st) as [|r rest] eqn:Hp.
    { eexists. by eapply step_close. }
    destruct (cancelled st) eqn:Hca.
    { eexists. by eapply step_submit_cancelled. }
    destruct (decide (Z.of_nat (length (inputCh st)) < inputCap p)) as [Hroom|Hfull].
    { eexists. by eapply step_submit. }
    apply acc_or_worker_steps; [done..| |].
    + intros Ha. destruct (Hquiet eq_refl Ha) as [Hic _].
      apply Hclosed in Hic as [?|[? ?]]; congruence.
    + left. intros Hnil. rewrite Hnil in Hfull. unfold inputCap in Hfull.
      simpl in Hfull. lia.
  - (* the client waits in Close *)
    assert (inputClosed st = true) as Hic by (apply Hclosed; by left).
    destruct (acc_done_dec (acc st)) as [Ha|Ha];
      [|apply acc_or_worker_steps; auto].
    destruct (workers_done_or_live (wpc st)) as [Hw|(i & pc & Hi & Hpc)].
    + eexists. by eapply step_close_return.
    + eapply live_worker_steps; eauto.
  - (* Close has returned *)
    destruct Hnq. destruct (Hret e eq_refl). split_and!; eauto.
  - (* the client has gone *)
    pose proof (Hab eq_refl) as Hca.
    destruct (acc_done_dec (acc st)) as [Ha|Ha];
      [|apply acc_or_worker_steps; auto].
    destruct (workers_done_or_live (wpc st)) as [Hw|(i & pc & Hi & Hpc)].
    + destruct Hnq. split_and!; eauto.
    + eapply live_worker_steps; eauto.
Qed.

Lemma measure_nsteps n st st' :
  nsteps (step p) n st st' → (n + measure st' ≤ measure st)%nat.
Proof.
  induction 1 as [|n x y z Hs _ IH]; [lia|].
  pose proof (measure_step _ _ Hs). lia.
Qed.

Lemma returned_quiet rows st e :
  reachable p rows st → client st = CReturned e →
  acc st = AccDone ∧ Forall (λ pc, pc = WDone) (wpc st) ∧
  (cancelled st = false → failures st = []) ∧
  (e = None ↔ failures st = []) ∧
  (∀ msg, e = Some msg → from_failure st msg).
Proof.
  intros Hre Hc.
  pose proof (structure_reachable _ _ Hre) as (_ & _ & _ & _ & _ & Hret & _).
  pose proof (reporting_reachable _ _ Hre) as (_ & Hb & Hn & _ & He & _).
  destruct (Hret e Hc) as [Ha Hw]. split_and!; [done..| | |].
  - intros Hca. destruct (He Hca) as [?|Hx]; [done|].
    exfalso. eapply not_Exists_done; [done| |done].
    unfold failing, reports. by intros [?|[? ?]].
  - split.
    + intros ->. by apply Hn.
    + intros Hf. destruct e as [msg|]; [|done].
      destruct (Hb msg Hc) as (i & m & Hin & _). rewrite Hf in Hin.
      by apply elem_of_nil in Hin.
  - intros msg ->. by apply Hb.
Qed.

Lemma returned_partitions rows st e :
  1 ≤ batchSize p → reachable p rows st →
  client st = CReturned e → cancelled st = false →
  partitions (Z.to_nat (batchSize p)) rows (taken st).
Proof.
  intros HB Hre Hc Hca.
  pose proof (structure_reachable _ _ Hre)
    as (_ & _ & _ & Hpend & _ & Hret & _ & Hquiet & _ & Hex).
  pose proof (conserved_reachable _ _ Hre) as [Hrows _].
  pose proof (shape_reachable HB _ _ Hre Hca) as Hsh.
  destruct (Hret e Hc) as [Ha Hw]. rewrite Ha in Hsh.
  destruct (Hquiet Hca Ha) as (Hic & Hin & Hb).
  assert (batchCh st = []) as Hbc.
  { destruct (batchCh st) as [|b q] eqn:E; [done|exfalso].
    eapply not_Exists_done; [done| |by apply Hex]. unfold live. by intros []. }
  unfold emitted in *. rewrite Hbc, app_nil_r in *.
  rewrite Hin, Hb, (Hpend Hic), !app_nil_r in Hrows.
  destruct Hsh as (fl & tl & Heq & Hfl & Htl). rewrite Heq in *.
  by apply shape_partitions.
Qed.
(** *** Every batch received is processed once *)

Lemma held_insert (l : list WorkerPC) i old new :
  l !! i = Some old →
  (<[i:=new]> l ≫= in_hand) ++ in_hand old ≡ₚ in_hand new ++ (l ≫= in_hand).
Proof.
  revert i. induction l as [|x l IH]; intros [|i] Hi; simpl in *; try done.
  - injection Hi as ->. rewrite <- app_assoc. apply Permutation_app_head.
    apply Permutation_app_comm.
  - rewrite <- app_assoc, (IH i Hi). apply Permutation_app_swap_app.
Qed.

Lemma handed_init rows : handed (init p rows).
Proof.
  unfold handed, taken, batches, held. simpl.
  induction (Z.to_nat (workers p)) as [|n IH]; simpl; [done|exact IH].
Qed.

Lemma handed_step st st' : handed st → step p st st' → handed st'.
Proof.
  intros Hh [Hstep|Hstep]; destruct Hstep; destruct st;
    unfold handed, taken, batches, held in *; simpl in *; subst; try done.
  all: match goal with
       | Hi : ?l !! ?i = Some ?old |- context [<[?i:=?new]> ?l] =>
           pose proof (held_insert l i old new Hi) as HG; simpl in HG;
           rewrite ?app_nil_r in HG
       end.
  all: rewrite ?fmap_app; simpl.
  all: try (by rewrite HG).
  - rewrite HG, Hh. rewrite <- app_assoc. apply Permutation_app_head.
    symmetry. apply Permutation_cons_append.
  - rewrite HG, Hh. rewrite <- app_assoc. apply Permutation_app_head.
    symmetry. apply Permutation_cons_append.
  - rewrite Hh, <- HG, <- app_assoc. apply Permutation_app_head.
    apply Permutation_app_comm.
Qed.

Lemma handed_reachable rows st : reachable p rows st → handed st.
Proof.
  intros H. eapply (rtc_ind_r (R:=step p) handed); [apply (handed_init rows)| |exact H].
  intros y z _ Hs Hy. by eapply handed_step.
Qed.

Lemma single_insert (l : list WorkerPC) i old new pc :
  l !! i = Some old → <[i:=new]> l = [pc] → i = 0%nat ∧ l = [old] ∧ pc = new.
Proof.
  intros Hi Hins. apply (f_equal length) in Hins as Hlen.
  rewrite length_insert in Hlen.
  destruct l as [|x [|y l]]; [done| |done].
  destruct i as [|i]; [|done]. simpl in *. by simplify_eq.
Qed.

Lemma single_init rows : single (init p rows).
Proof.
  intros pc Hpc. simpl in *.
  destruct (Z.to_nat (workers p)) as [|[|n]]; simpl in Hpc; [done| |done].
  by injection Hpc as <-.
Qed.

Lemma single_step st st' : single st → step p st st' → single st'.
Proof.
  intros Hs [Hstep|Hstep]; destruct Hstep; destruct st;
    unfold single in *; simpl in *; subst; try done.
  all: intros pc Hpc.
  all: match goal with
       | Hi : ?l !! ?i = Some ?old |- _ =>
           destruct (single_insert l i old _ pc Hi Hpc) as (-> & -> & ->);
           specialize (Hs _ eq_refl); simpl in Hs
       end.
  all: simpl; rewrite ?app_nil_r in *; try done.
  all: by rewrite Hs.
Qed.

Lemma single_reachable rows st : reachable p rows st → single st.
Proof.
  intros H. eapply (rtc_ind_r (R:=step p) single); [apply (single_init rows)| |exact H].
  intros y z _ Hs Hy. by eapply single_step.
Qed.

Lemma concat_submseteq {A} (l k : list (list A)) : l ⊆+ k → concat l ⊆+ concat k.
Proof.
  induction 1 as [|x l k _ IH|x y l|x l k _ IH|l k m _ IH1 _ IH2]; simpl.
  - done.
  - by apply submseteq_skips_l.
  - apply Permutation_submseteq. rewrite !app_assoc.
    apply Permutation_app_tail, Permutation_app_comm.
  - by apply submseteq_inserts_l.
  - by etrans.
Qed.

(** With one worker the calls are a prefix of the receives. *)
Lemma single_prefix rows st :
  workers p = 1 → reachable p rows st → batches st `prefix_of` taken st.
Proof.
  intros HW Hre.
  pose proof (structure_reachable _ _ Hre) as (Hlen & _).
  pose proof (single_reachable _ _ Hre) as Hs.
  rewrite HW in Hlen. destruct (wpc st) as [|pc [|pc' l]] eqn:Hw; [done| |done].
  unfold batches, taken. rewrite (Hs pc Hw), fmap_app. by eexists.
Qed.
End workerctx_proofs.

Section workerctx_examples.
Import Worker WorkerInv WorkerCtx WorkerCtxInv WorkerCtxAux.

Local Ltac go c :=
  eapply rtc_l; [left; eapply c; try reflexivity; try done|simpl].

Lemma quiet_end_reachable : reachable pool1 three_rows quiet_end.
Proof.
  unfold reachable, three_rows.
  go step_submit_handoff. go step_submit_handoff.
  go (step_flush_handoff pool1 false 0). go (step_worker_call pool1 0).
  go (step_worker_ok pool1 0).
  go step_submit_handoff. go step_close. go step_acc_closed.
  go (step_flush_handoff pool1 true 0). go (step_worker_call pool1 0).
  go (step_worker_ok pool1 0).
  go (step_worker_closed pool1 0). go step_close_return.
  { by repeat constructor. }
  apply rtc_refl.
Qed.

Lemma failed_end_reachable : reachable pool1 two_rows failed_end.
Proof.
  unfold reachable, two_rows.
  go step_submit_handoff. go step_submit_handoff.
  go (step_flush_handoff pool1 false 0). go step_close.
  go (step_worker_call pool1 0).
  go (step_worker_fail pool1 0 two_rows "boom"). go (step_worker_report pool1 0).
  go (step_worker_cancel pool1 0). go step_acc_closed.
  go (step_flush_empty pool1 true). go step_close_return.
  { by repeat constructor. }
  apply rtc_refl.
Qed.
Lemma overtaken_reachable : reachable pool2 two_rows overtaken.
Proof.
  unfold reachable, two_rows.
  go step_submit_handoff. go (step_flush_handoff pool2 false 0).
  go step_submit_handoff. go (step_flush_handoff pool2 false 1).
  go (step_worker_call pool2 1). go (step_worker_call pool2 0).
  apply rtc_refl.
Qed.

Lemma stuck_reachable : reachable idle_pool [[VInt 1]] stuck.
Proof.
  unfold reachable.
  go step_submit_handoff. go step_close.
  apply rtc_refl.
Qed.

Lemma stuck_no_step st' : ¬ pstep idle_pool stuck st'.
Proof.
  intros Hs. inversion Hs; simpl in *; try done.
  all: match goal with
       | H : has_room _ _ |- _ => unfold has_room in H; simpl in H; lia
       end.
Qed.
End workerctx_examples.

(** X1 (no row is lost, none is processed twice).  In every state a pool
    over [rows] can reach, whatever fails and whoever cancels, the rows are
    where they were put: the batches the workers have received from
    [batchCh], in the order of the receives, then the batches waiting in
    [batchCh], the batch being gathered, the rows waiting in [inputCh] and
    the rows not yet submitted make up [rows], in this order.  A batch is
    handed to [processBatch] only after it was received, and once: the
    batches received are those handed to [processBatch] together with those
    a worker holds and has not handed on yet.  So the rows handed to
    [processBatch] so far occur among [rows], none more often than there,
    and no batch is empty.  The calls need not come in the order of the
    receives when there are several workers; with one worker they do, and
    the rows processed so far are a prefix of [rows]. *)
Theorem pool_rows_conserved (p : Worker.Pool) (rows : list Row)
    (st : WorkerCtx.State) :
  WorkerCtx.reachable p rows st →
  rows = concat (WorkerCtx.taken st) ++ concat (WorkerCtx.batchCh st)
         ++ WorkerCtx.batch st ++ WorkerCtx.inputCh st ++ WorkerCtx.pending st ∧
  WorkerCtx.taken st ≡ₚ WorkerCtx.batches st ++ WorkerCtx.held st ∧
  concat (WorkerCtx.batches st) ⊆+ rows ∧
  Forall (λ b, b ≠ []) (WorkerCtx.batches st) ∧
  (Worker.workers p = 1 → concat (WorkerCtx.batches st) `prefix_of` rows).
Proof.
  intros Hre. destruct (conserved_reachable p rows st Hre) as [Hrows Hne].
  pose proof (handed_reachable p rows st Hre) as Hh. unfold WorkerCtxInv.handed in Hh.
  unfold WorkerCtxInv.emitted in *. rewrite concat_app, <- app_assoc in Hrows.
  assert (WorkerCtx.batches st ⊆+ WorkerCtx.taken st) as Hsub.
  { rewrite Hh. apply submseteq_inserts_r. done. }
  split_and!.
  - done.
  - done.
  - rewrite <- Hrows. apply submseteq_inserts_r. by apply concat_submseteq.
  - apply Forall_app in Hne as [Hne _]. rewrite Forall_forall in Hne.
    apply Forall_forall. intros b Hb. apply Hne. by eapply elem_of_submseteq.
  - intros HW. destruct (single_prefix p rows st HW Hre) as [k Hk].
    rewrite <- Hrows, Hk, concat_app, <- app_assoc. by eexists.
Qed.

Lemma pool_rows_conserved_witness :
  concat (WorkerCtx.batches WorkerCtxAux.overtaken) ⊆+ WorkerCtxAux.two_rows ∧
  concat (WorkerCtx.batches WorkerCtxAux.failed_end)
    `prefix_of` WorkerCtxAux.two_rows.
Proof.
  split.
  - apply (pool_rows_conserved WorkerCtxAux.pool2 WorkerCtxAux.two_rows
             WorkerCtxAux.overtaken).
    apply overtaken_reachable.
  - apply (pool_rows_conserved WorkerCtxAux.pool1 WorkerCtxAux.two_rows
             WorkerCtxAux.failed_end).
    + apply failed_end_reachable.
    + reflexivity.
Defined.

(** With two workers the calls of [processBatch] can come in another order
    than the batches were made: here the second row is processed first. *)
Example calls_out_of_order :
  WorkerCtx.reachable WorkerCtxAux.pool2 WorkerCtxAux.two_rows WorkerCtxAux.overtaken ∧
  WorkerCtx.taken WorkerCtxAux.overtaken = [[[VInt 1]]; [[VInt 2]]] ∧
  WorkerCtx.batches WorkerCtxAux.overtaken = [[[VInt 2]]; [[VInt 1]]] ∧
  ¬ concat (WorkerCtx.batches WorkerCtxAux.overtaken) `prefix_of` WorkerCtxAux.two_rows.
Proof.
  split_and!; [apply overtaken_reachable|done..|].
  intros [k Hk]. discriminate Hk.
Qed.

(** X2 (complete unless cancelled).  Let the batch size be at least 1.  When
    [Close] has returned and the context was never cancelled, then no call of
    [processBatch] failed, [Close] returned nil, and the batches the workers
    received partition [rows]: in the order of the receives they concatenate
    to [rows], every batch but the last has exactly [batchSize] rows, and
    the last one has the remainder.  Each of them was handed to
    [processBatch] exactly once: the batches processed are these batches, in
    the order of the calls, which with several workers may be another one;
    with one worker it is the same. *)
Theorem pool_complete_unless_cancelled (p : Worker.Pool) (rows : list Row)
    (st : WorkerCtx.State) (e : error) :
  1 ≤ Worker.batchSize p →
  WorkerCtx.reachable p rows st →
  WorkerCtx.client st = WorkerCtx.CReturned e →
  WorkerCtx.cancelled st = false →
  e = None ∧ WorkerCtx.failures st = [] ∧
  WorkerInv.partitions (Z.to_nat (Worker.batchSize p)) rows (WorkerCtx.taken st) ∧
  WorkerCtx.batches st ≡ₚ WorkerCtx.taken st ∧
  (Worker.workers p = 1 → WorkerCtx.batches st = WorkerCtx.taken st).
Proof.
  intros HB Hre Hc Hca.
  destruct (returned_quiet p rows st e Hre Hc) as (_ & Hw & Hnf & Hiff & _).
  assert (WorkerCtx.held st = []) as Hheld.
  { unfold WorkerCtx.held. induction Hw as [|pc l -> _ IH]; [done|exact IH]. }
  pose proof (handed_reachable p rows st Hre) as Hh. unfold WorkerCtxInv.handed in Hh.
  rewrite Hheld, app_nil_r in Hh.
  split_and!.
  - apply Hiff. by apply Hnf.
  - by apply Hnf.
  - by eapply returned_partitions.
  - done.
  - intros HW. destruct (single_prefix p rows st HW Hre) as [k Hk].
    apply Permutation_length in Hh. rewrite Hk, length_app in Hh.
    destruct k; [by rewrite app_nil_r in Hk|simpl in Hh; lia].
Qed.

Lemma pool_complete_unless_cancelled_witness :
  WorkerInv.partitions 2 WorkerCtxAux.three_rows
    (WorkerCtx.taken WorkerCtxAux.quiet_end) ∧
  WorkerCtx.batches WorkerCtxAux.quiet_end = WorkerCtx.taken WorkerCtxAux.quiet_end.
Proof.
  destruct (pool_complete_unless_cancelled WorkerCtxAux.pool1 WorkerCtxAux.three_rows
              WorkerCtxAux.quiet_end None) as (_ & _ & Hp & _ & Hs).
  - simpl. lia.
  - apply quiet_end_reachable.
  - reflexivity.
  - reflexivity.
  - split; [exact Hp|]. by apply Hs.
Defined.

(** X3 (what [Close] returns).  When [Close] has returned, the accumulator
    and every worker have returned, so that no call of [processBatch] is
    still running.  [Close] returns nil exactly when no call of
    [processBatch] failed; an error it returns is the error of one of the
    failed calls, prefixed with [worker] and the id of the worker that made
    the call, and by then the context is cancelled. *)
Theorem Close_reports_failure (p : Worker.Pool) (rows : list Row)
    (st : WorkerCtx.State) (e : error) :
  WorkerCtx.reachable p rows st →
  WorkerCtx.client st = WorkerCtx.CReturned e →
  WorkerCtx.acc st = Worker.AccDone ∧
  Forall (λ pc, pc = WorkerCtx.WDone) (WorkerCtx.wpc st) ∧
  (e = None ↔ WorkerCtx.failures st = []) ∧
  (∀ msg, e = Some msg →
     WorkerCtx.cancelled st = true ∧
     ∃ i m, (i, m) ∈ WorkerCtx.failures st ∧ msg = WorkerCtx.worker_error i m).
Proof.
  intros Hre Hc.
  destruct (returned_quiet p rows st e Hre Hc) as (Ha & Hw & Hnf & Hiff & Hfrom).
  split_and!; [done..|].
  intros msg ->. split; [|by apply Hfrom].
  destruct (WorkerCtx.cancelled st); [done|].
  destruct (Hfrom msg eq_refl) as (i & m & Hin & _).
  rewrite (Hnf eq_refl) in Hin. by apply elem_of_nil in Hin.
Qed.

Lemma Close_reports_failure_witness :
  ∃ i m, (i, m) ∈ WorkerCtx.failures WorkerCtxAux.failed_end ∧
         "worker 0: boom" = WorkerCtx.worker_error i m.
Proof.
  apply (Close_reports_failure WorkerCtxAux.pool1 WorkerCtxAux.two_rows
           WorkerCtxAux.failed_end (Some "worker 0: boom")).
  - apply failed_end_reachable.
  - reflexivity.
  - reflexivity.
Defined.

(** X4 (no goroutine is stuck).  Let the pool have at least one worker.  In
    every state it can reach, as long as the client has neither returned
    from [Close] nor gone without it, or the accumulator or a worker has not
    returned, one of them can take a step, without any help from outside:
    [Submit], [Close], the accumulator and the workers never wait for each
    other for ever, and after [Cancel] every goroutine can return. *)
Theorem pool_never_stuck (p : Worker.Pool) (rows : list Row) (st : WorkerCtx.State) :
  1 ≤ Worker.workers p →
  WorkerCtx.reachable p rows st →
  ¬ WorkerCtx.quiescent st →
  ∃ st', WorkerCtx.pstep p st st'.
Proof.
  intros HW Hre Hnq. apply pool_steps; [|done..]. by eapply structure_reachable.
Qed.

Lemma pool_never_stuck_witness :
  ∃ st', WorkerCtx.pstep WorkerCtxAux.pool1
           (WorkerCtx.init WorkerCtxAux.pool1 WorkerCtxAux.two_rows) st'.
Proof.
  apply (pool_never_stuck WorkerCtxAux.pool1 WorkerCtxAux.two_rows).
  - simpl. lia.
  - apply rtc_refl.
  - intros ([H|[e H]] & _); discriminate H.
Defined.

(** X5 (every run ends).  Every step of the client, of the accumulator, of
    a worker or of the context takes the state to one of smaller [measure]:
    a run of [n] steps from a state [st] has [n] at most [measure st], which
    for a pool of W workers started on R rows is 8R + 3W + 5.  So no run of
    the pool goes on for ever, whatever the scheduling. *)
Theorem pool_terminates (p : Worker.Pool) (st : WorkerCtx.State) :
  sn (WorkerCtx.step p) st ∧
  (∀ n st', nsteps (WorkerCtx.step p) n st st' →
            (n + WorkerCtx.measure st' ≤ WorkerCtx.measure st)%nat) ∧
  (∀ rows, st = WorkerCtx.init p rows →
           WorkerCtx.measure st
           = (8 * length rows + 3 * Z.to_nat (Worker.workers p) + 5)%nat).
Proof.
  split_and!.
  - apply step_sn.
  - intros n st'. apply measure_nsteps.
  - intros rows ->. unfold WorkerCtx.measure. simpl.
    assert (∀ n, sum_list_with WorkerCtx.worker_weight
                   (replicate n WorkerCtx.WSelect) = (3 * n)%nat) as ->.
    { induction n as [|n IH]; simpl; [done|]. rewrite IH. lia. }
    lia.
Qed.

Lemma pool_terminates_witness :
  sn (WorkerCtx.step WorkerCtxAux.pool1)
     (WorkerCtx.init WorkerCtxAux.pool1 WorkerCtxAux.two_rows) ∧
  WorkerCtx.measure (WorkerCtx.init WorkerCtxAux.pool1 WorkerCtxAux.two_rows) = 24%nat.
Proof.
  destruct (pool_terminates WorkerCtxAux.pool1
              (WorkerCtx.init WorkerCtxAux.pool1 WorkerCtxAux.two_rows))
    as (Hsn & _ & Hm).
  split; [exact Hsn|]. exact (Hm WorkerCtxAux.two_rows eq_refl).
Defined.

(** X6 (a pool without workers).  In a pool made with zero workers no batch
    is ever received from [batchCh] and [processBatch] is never called.
    With a batch size of at least 1 and at least one row to submit, [Close]
    does not return from it as long as the context is not cancelled: the
    accumulator cannot send its batch, and the client waits. *)
Theorem pool_without_workers (p : Worker.Pool) (rows : list Row)
    (st : WorkerCtx.State) :
  Worker.workers p = 0 →
  1 ≤ Worker.batchSize p →
  WorkerCtx.reachable p rows st →
  WorkerCtx.taken st = [] ∧ WorkerCtx.batches st = [] ∧
  (rows ≠ [] → WorkerCtx.cancelled st = false →
   ∀ e, WorkerCtx.client st ≠ WorkerCtx.CReturned e).
Proof.
  intros HW HB Hre.
  assert (WorkerCtx.calls st = [] ∧ WorkerCtx.received st = []) as [Hc Hr].
  { apply (calls_need_worker p rows st Hre).
    pose proof (structure_reachable p rows st Hre) as (Hlen & _).
    rewrite HW in Hlen. by destruct (WorkerCtx.wpc st). }
  unfold WorkerCtx.taken, WorkerCtx.batches. rewrite Hc, Hr.
  split_and!; [done..|]. intros Hne Hca e Hcl.
  destruct (returned_partitions p rows st e HB Hre Hcl Hca) as [Hcat _].
  unfold WorkerCtx.taken in Hcat. rewrite Hr in Hcat. by subst.
Qed.

Lemma pool_without_workers_witness :
  (∀ e, WorkerCtx.client WorkerCtxAux.stuck ≠ WorkerCtx.CReturned e) ∧
  WorkerCtx.reachable WorkerCtxAux.idle_pool [[VInt 1]] WorkerCtxAux.stuck ∧
  (∀ st', ¬ WorkerCtx.pstep WorkerCtxAux.idle_pool WorkerCtxAux.stuck st').
Proof.
  split_and!.
  - apply (pool_without_workers WorkerCtxAux.idle_pool [[VInt 1]] WorkerCtxAux.stuck).
    + reflexivity.
    + simpl. lia.
    + apply stuck_reachable.
    + discriminate.
    + reflexivity.
  - apply stuck_reachable.
  - apply stuck_no_step.
Defined.

(** ** Configuration: what a validated configuration guarantees *)

Section validate_proofs.
Import Config ConfigAux.

Lemma contains_elem_of (slice : list string) (value : string) :
  contains slice value = true ↔ value ∈ slice.
Proof.
  induction slice as [|item rest IH]; simpl.
  - split; [done|]. by intros ?%elem_of_nil.
  - destruct (String.eqb_spec item value) as [->|Hne].
    + split; [|done]. intros _. by left.
    + rewrite IH. split; [by right|]. intros [?|?]%elem_of_cons; [congruence|done].
Qed.

Lemma validateImport_ok fs c c' :
  validateImport fs c = (None, c') →
  InputFile c ≠ "" ∧ fs (InputFile c) ≠ Missing ∧ Table c ≠ "" ∧
  InputFormat c' ∈ ["auto"; "csv"; "tsv"; "jsonl"; "xlsx"] ∧
  c' = if String.eqb (InputFormat c) "" then set_InputFormat "auto" c else c.
Proof.
  unfold validateImport. cbv zeta.
  destruct (String.eqb_spec (InputFile c) "") as [Hf|Hf]; [done|].
  destruct (fs (InputFile c)) eqn:Hfs; [done|..].
  all: destruct (String.eqb_spec (Table c) "") as [Ht|Ht]; [done|].
  all: match goal with
       | |- context [contains ?l ?v] => destruct (contains l v) eqn:Hc
       end; simpl; [|done].
  all: apply contains_elem_of in Hc.
  all: by intros [= <-].
Qed.

Lemma validateExport_ok c c' :
  validateExport c = (None, c') →
  OutputFile c ≠ "" ∧ Query c ≠ "" ∧
  OutputFormat c ∈ ["csv"; "tsv"; "jsonl"; "parquet"] ∧ c' = c.
Proof.
  unfold validateExport. cbv zeta.
  destruct (String.eqb_spec (OutputFile c) "") as [Hf|Hf]; [done|].
  destruct (String.eqb_spec (Query c) "") as [Hq|Hq]; [done|].
  destruct (String.eqb_spec (OutputFormat c) "") as [Hm|Hm]; [done|].
  match goal with
  | |- context [contains ?l ?v] => destruct (contains l v) eqn:Hc
  end; simpl; [|done].
  apply contains_elem_of in Hc. by intros [= <-].
Qed.

(** The configuration [Validate] goes on with once the checks common to
    both modes are passed. *)
Lemma Validate_common fs c c' :
  Validate fs c = (None, c') →
  let c1 := set_ProgressEvery (if ProgressEvery c <=? 0 then 100000 else ProgressEvery c)
              (set_BatchSize (if BatchSize c <=? 0 then 5000 else BatchSize c) c) in
  (Mode c = "import" ∨ Mode c = "export") ∧ DSN c ≠ "" ∧
  BatchSize c ≤ 50000 ∧ 0 ≤ Workers c ∧
  (if String.eqb (Mode c) "import" then validateImport fs c1 else validateExport c1)
    = (None, c').
Proof.
  destruct c as [mode dsn bs w pe ifile ifmt tbl ofile ofmt q].
  unfold Validate. cbv zeta. unfold set_BatchSize, set_ProgressEvery. simpl.
  destruct (String.eqb_spec mode "import") as [Hi|Hi];
    destruct (String.eqb_spec mode "export") as [He|He]; simpl;
    try congruence; try done.
  all: destruct (String.eqb_spec dsn "") as [Hd|Hd]; [done|].
  all: destruct (Z.leb_spec bs 0) as [Hb|Hb]; simpl.
  all: try (destruct (Z.ltb_spec 50000 bs) as [Hb'|Hb']; [done|]).
  all: destruct (Z.ltb_spec w 0) as [Hw|Hw]; [done|].
  all: destruct (Z.leb_spec pe 0) as [Hp|Hp]; simpl.
  all: rewrite ?(proj2 (String.eqb_eq _ _) Hi), ?(proj2 (String.eqb_neq _ _) Hi).
  all: intros Heq; split_and!; auto; lia.
Qed.

Lemma detectFormat_range fs path f :
  detectFormat fs path = Ok f → f ∈ MainAux.import_formats.
Proof.
  unfold detectFormat, MainAux.import_formats. cbv zeta.
  repeat case_match; intros [= <-]; by repeat constructor.
Qed.

Lemma Normalize_ok n fs c c' :
  Normalize n fs c = (None, c') →
  Workers c' = (if Workers c =? 0 then n else Workers c) ∧
  Mode c' = Mode c ∧ BatchSize c' = BatchSize c ∧
  OutputFormat c' = OutputFormat c ∧
  (Mode c = "import" → InputFormat c = "auto" →
     InputFormat c' ∈ MainAux.import_formats) ∧
  (InputFormat c ≠ "auto" → InputFormat c' = InputFormat c).
Proof.
  unfold Normalize. cbv zeta.
  set (c1 := if Workers c =? 0 then set_Workers n c else c).
  assert (Mode c1 = Mode c ∧ BatchSize c1 = BatchSize c ∧
          OutputFormat c1 = OutputFormat c ∧ InputFormat c1 = InputFormat c ∧
          Workers c1 = if Workers c =? 0 then n else Workers c)
    as (Hm & Hb & Ho & Hf & Hw).
  { unfold c1. by destruct (Workers c =? 0). }
  destruct (String.eqb_spec (Mode c1) "import") as [Hi|Hi];
    destruct (String.eqb_spec (InputFormat c1) "auto") as [Ha|Ha]; simpl.
  1: destruct (detectFormat fs (InputFile c1)) as [f|msg] eqn:Hd; [|done].
  all: intros [= <-]; simpl; split_and!; try done; try congruence.
  intros _ _. by eapply detectFormat_range.
Qed.

(** What a successful [Validate] leaves. *)
Lemma Validate_ok (fs : FS) (c c' : Config) :
  Validate fs c = (None, c') →
  (Mode c' = "import" ∨ Mode c' = "export") ∧ DSN c' ≠ "" ∧
  1 ≤ BatchSize c' ≤ 50000 ∧ 0 ≤ Workers c' ∧ 1 ≤ ProgressEvery c' ∧
  (Mode c' = "import" →
     InputFile c' ≠ "" ∧ fs (InputFile c') ≠ Missing ∧ Table c' ≠ "" ∧
     InputFormat c' ∈ ["auto"; "csv"; "tsv"; "jsonl"; "xlsx"]) ∧
  (Mode c' = "export" →
     OutputFile c' ≠ "" ∧ Query c' ≠ "" ∧
     OutputFormat c' ∈ ["csv"; "tsv"; "jsonl"; "parquet"]) ∧
  c' = {| Mode := Mode c; DSN := DSN c;
          BatchSize := if BatchSize c <=? 0 then 5000 else BatchSize c;
          Workers := Workers c;
          ProgressEvery := if ProgressEvery c <=? 0 then 100000 else ProgressEvery c;
          InputFile := InputFile c;
          InputFormat := if String.eqb (Mode c) "import" && String.eqb (InputFormat c) ""
                         then "auto" else InputFormat c;
          Table := Table c; OutputFile := OutputFile c;
          OutputFormat := OutputFormat c; Query := Query c |}.
Proof.
  intros (Hmode & Hdsn & Hbs & Hw & Hrest)%Validate_common. cbv zeta in Hrest.
  assert (1 ≤ (if BatchSize c <=? 0 then 5000 else BatchSize c) ≤ 50000) as Hb1
    by (destruct (Z.leb_spec (BatchSize c) 0); lia).
  assert (1 ≤ (if ProgressEvery c <=? 0 then 100000 else ProgressEvery c)) as Hp1
    by (destruct (Z.leb_spec (ProgressEvery c) 0); lia).
  destruct (String.eqb_spec (Mode c) "import") as [Hi|Hi].
  - apply validateImport_ok in Hrest as (Hf & Hfs & Ht & Hfmt & ->). simpl in *.
    destruct (String.eqb_spec (InputFormat c) "") as [Hm|Hm]; simpl in *.
    all: split_and!; try done; try congruence; lia.
  - destruct Hmode as [?|He]; [done|].
    apply validateExport_ok in Hrest as (Hf & Hq & Hfmt & ->). simpl in *.
    split_and!; try done; try lia. by right.
Qed.

(** X7 (a validated configuration).  When [Validate] succeeds, the
    configuration it leaves has mode import or export, a DSN, a batch size
    in 1..50000, a worker count that is not negative and a progress
    interval of at least 1.  In import mode the input file is named and
    [os.Stat] does not report it as not existing, which is less than that
    it exists: a path [os.Stat] fails on for another reason passes, and so
    does a directory; the table is named and the input format is one of
    auto, csv, tsv, jsonl, xlsx.  In export mode the output file and the
    query are given and the output format is one of csv, tsv, jsonl,
    parquet.  [Validate] alters nothing but the three defaults: a batch
    size and a progress interval that were not positive become 5000 and
    100000, and in import mode an empty input format becomes auto. *)
Theorem Validate_postcondition (fs : FS) (c c' : Config) :
  Validate fs c = (None, c') →
  (Mode c' = "import" ∨ Mode c' = "export") ∧ DSN c' ≠ "" ∧
  1 ≤ BatchSize c' ≤ 50000 ∧ 0 ≤ Workers c' ∧ 1 ≤ ProgressEvery c' ∧
  (Mode c' = "import" →
     InputFile c' ≠ "" ∧ fs (InputFile c') ≠ Missing ∧ Table c' ≠ "" ∧
     InputFormat c' ∈ ["auto"; "csv"; "tsv"; "jsonl"; "xlsx"]) ∧
  (Mode c' = "export" →
     OutputFile c' ≠ "" ∧ Query c' ≠ "" ∧
     OutputFormat c' ∈ ["csv"; "tsv"; "jsonl"; "parquet"]) ∧
  c' = {| Mode := Mode c; DSN := DSN c;
          BatchSize := if BatchSize c <=? 0 then 5000 else BatchSize c;
          Workers := Workers c;
          ProgressEvery := if ProgressEvery c <=? 0 then 100000 else ProgressEvery c;
          InputFile := InputFile c;
          InputFormat := if String.eqb (Mode c) "import" && String.eqb (InputFormat c) ""
                         then "auto" else InputFormat c;
          Table := Table c; OutputFile := OutputFile c;
          OutputFormat := OutputFormat c; Query := Query c |}.
Proof. exact (Validate_ok fs c c'). Qed.

Lemma Validate_postcondition_witness :
  ∃ c', Validate fs0 MainAux.cfg_import = (None, c') ∧
        BatchSize c' = 5000 ∧ ProgressEvery c' = 100000 ∧ InputFormat c' = "auto".
Proof.
  eexists. split; [reflexivity|].
  pose proof (Validate_postcondition fs0 MainAux.cfg_import _ eq_refl)
    as (_ & _ & _ & _ & _ & _ & _ & Heq).
  rewrite Heq. by vm_compute.
Defined.

(** A file that cannot be examined passes [Validate]: only the answer
    that it does not exist is refused. *)
Example Validate_accepts_unreadable_file :
  (Validate MainAux.fs_denied MainAux.cfg_import).1 = None ∧
  (Validate (λ _, Directory) MainAux.cfg_import).1 = None ∧
  (Validate (λ _, Missing) MainAux.cfg_import).1
  = Some "input file does not exist: plain".
Proof. split_and!; reflexivity. Qed.

Lemma formats_not_empty (l : list string) :
  l = ["auto"; "csv"; "tsv"; "jsonl"; "xlsx"] ∨ l = ["csv"; "tsv"; "jsonl"; "parquet"] →
  "" ∉ l.
Proof. intros [-> | ->]; by apply (bool_decide_eq_false_1 ("" ∈ _)). Qed.

(** X8 ([Validate] is idempotent).  Validating once more the configuration
    a successful [Validate] has left succeeds and alters nothing: the
    defaults it has set are values it accepts. *)
Theorem Validate_idempotent (fs : FS) (c c' : Config) :
  Validate fs c = (None, c') → Validate fs c' = (None, c').
Proof.
  intros Hv.
  pose proof (Validate_ok fs c c' Hv)
    as (Hmode & Hdsn & Hbs & Hw & Hp & Himp & Hexp & _).
  clear Hv. unfold Validate. cbv zeta.
  assert (negb (String.eqb (Mode c') "import") && negb (String.eqb (Mode c') "export")
          = false) as ->.
  { destruct Hmode as [->| ->]; done. }
  rewrite (proj2 (String.eqb_neq _ _) Hdsn).
  rewrite (proj2 (Z.leb_gt _ _)) by lia.
  rewrite (proj2 (Z.ltb_ge _ _)) by lia.
  rewrite (proj2 (Z.ltb_ge _ _)) by lia.
  rewrite (proj2 (Z.leb_gt _ _)) by lia.
  destruct (String.eqb_spec (Mode c') "import") as [Hi|Hi].
  - destruct (Himp Hi) as (Hf & Hfs & Ht & Hfmt).
    unfold validateImport. cbv zeta.
    rewrite (proj2 (String.eqb_neq _ _) Hf), (proj2 (String.eqb_neq _ _) Ht).
    destruct (fs (InputFile c')); [done|..].
    all: assert (String.eqb (InputFormat c') "" = false) as ->
      by (apply String.eqb_neq; intros Heq; rewrite Heq in Hfmt;
          apply formats_not_empty in Hfmt; auto).
    all: by rewrite (proj2 (contains_elem_of _ _) Hfmt).
  - destruct Hmode as [?|He]; [done|]. destruct (Hexp He) as (Hf & Hq & Hfmt).
    unfold validateExport. cbv zeta.
    rewrite (proj2 (String.eqb_neq _ _) Hf), (proj2 (String.eqb_neq _ _) Hq).
    assert (String.eqb (OutputFormat c') "" = false) as ->
      by (apply String.eqb_neq; intros Heq; rewrite Heq in Hfmt;
          apply formats_not_empty in Hfmt; auto).
    by rewrite (proj2 (contains_elem_of _ _) Hfmt).
Qed.

Lemma Validate_idempotent_witness :
  Validate fs0 (Validate fs0 MainAux.cfg_import).2
  = (None, (Validate fs0 MainAux.cfg_import).2).
Proof. apply (Validate_idempotent fs0 MainAux.cfg_import). reflexivity. Defined.
End validate_proofs.

(** ** The command: from the configuration to the operation *)

Section main_proofs.
Import Config ConfigAux Main MainAux.

Lemma select_importer_ok (w : Importer.World) (config : Importer.Config) :
  Importer.InputFormat config ∈ import_formats →
  ∃ imp, Importer.select_importer w config = Ok imp.
Proof.
  unfold import_formats, Importer.select_importer. rewrite !elem_of_cons, elem_of_nil.
  intros [->|[->|[->|[->|[]]]]]; simpl; eauto.
Qed.

Lemma select_exporter_ok (config : Exporter.Config) (columns : list string) :
  Exporter.OutputFormat config ∈ export_formats →
  ∃ ex, Exporter.select_exporter config columns = Ok ex.
Proof.
  unfold export_formats, Exporter.select_exporter. rewrite !elem_of_cons, elem_of_nil.
  intros [->|[->|[->|[->|[]]]]]; simpl; eauto.
Qed.

Lemma int_wrap_double (w : Z) :
  0 ≤ w < 2 ^ 63 →
  (0 ≤ Worker.int_wrap (w * 2) ↔ w < 2 ^ 62) ∧
  (w < 2 ^ 62 → Worker.int_wrap (w * 2) = w * 2).
Proof.
  unfold Worker.int_wrap.
  change (2 ^ 64) with 18446744073709551616.
  change (2 ^ 63) with 9223372036854775808.
  change (2 ^ 62) with 4611686018427387904.
  intros Hw.
  destruct (Z.lt_ge_cases w 4611686018427387904) as [Hlt|Hge].
  - rewrite Z.mod_small by lia. lia.
  - rewrite <- (Z.mod_add _ (-1)) by lia. rewrite Z.mod_small by lia. lia.
Qed.

Lemma NewPool_made (alloc : Z → bool) (w b : Z) :
  0 ≤ w < 2 ^ 63 →
  (Worker.NewPool alloc w b = Some {| Worker.workers := w; Worker.batchSize := b |} ↔
   w < 2 ^ 62 ∧ alloc (w * 2 * 24) = true ∧ alloc (w * 40) = true ∧ alloc 16 = true) ∧
  (Worker.NewPool alloc w b = None ∨
   Worker.NewPool alloc w b = Some {| Worker.workers := w; Worker.batchSize := b |}).
Proof.
  intros Hw. destruct (int_wrap_double w Hw) as [Hwrap Hsame].
  unfold Worker.NewPool, Worker.make_chan.
  change (1 * 16) with 16. change (0 <=? 1) with true.
  split; [|by case_match; [right|left]].
  rewrite (proj2 (Z.leb_le 0 w)) by lia.
  destruct (Z.leb_spec 0 (Worker.int_wrap (w * 2))) as [H0|H0]; simpl.
  - apply Hwrap in H0. rewrite (Hsame H0).
    destruct (alloc (w * 2 * 24)), (alloc (w * 40)), (alloc 16); simpl;
      split; try done; try (by intros (_ & ? & ? & ?)).
  - split; [done|]. intros [Hlt _]. apply Hwrap in Hlt. lia.
Qed.

(** X9 (a validated configuration can be run, if it is not too large).
    Let the machine have at least one CPU, and let the worker count of
    the configuration and the number of CPUs be Go integers.  Once
    [Validate] and then [Normalize] have succeeded, the worker count is at
    least 1 and the batch size lies in 1..50000.  [Validate] bounds the
    worker count from below only: [NewPool] makes its pool exactly when
    twice the worker count does not overflow, that is below 2^62 workers,
    and the machine has the memory for the three channel buffers; in every
    other case it panics.  In import mode the input format is one of
    csv, tsv, jsonl, xlsx, never auto, and the [switch] of
    [importer.ImportData] finds an importer for the configuration the
    bridge hands over; in export mode the output format is one of csv, tsv,
    jsonl, parquet and the [switch] of [exporter.ExportData] finds an
    exporter, whatever the columns: neither of the two [unsupported
    format] errors is ever returned to [main]. *)
Theorem validated_config_dispatches (n : Z) (fs : FS) (c c1 c2 : Config)
    (w : Importer.World) :
  1 ≤ n < 2 ^ 63 →
  Workers c < 2 ^ 63 →
  Validate fs c = (None, c1) →
  Normalize n fs c1 = (None, c2) →
  1 ≤ Workers c2 < 2 ^ 63 ∧ 1 ≤ BatchSize c2 ≤ 50000 ∧
  (Worker.NewPool (Importer.w_alloc w) (Workers c2) (BatchSize c2)
   = Some {| Worker.workers := Workers c2; Worker.batchSize := BatchSize c2 |} ↔
   Workers c2 < 2 ^ 62 ∧
   Importer.w_alloc w (Workers c2 * 2 * 24) = true ∧
   Importer.w_alloc w (Workers c2 * 40) = true ∧
   Importer.w_alloc w 16 = true) ∧
  (Worker.NewPool (Importer.w_alloc w) (Workers c2) (BatchSize c2) = None ∨
   Worker.NewPool (Importer.w_alloc w) (Workers c2) (BatchSize c2)
   = Some {| Worker.workers := Workers c2; Worker.batchSize := BatchSize c2 |}) ∧
  (Mode c2 = "import" →
     InputFormat c2 ∈ import_formats ∧
     ∃ imp, Importer.select_importer w (importConfig c2) = Ok imp) ∧
  (Mode c2 = "export" →
     OutputFormat c2 ∈ export_formats ∧
     ∀ columns, ∃ ex, Exporter.select_exporter (exportConfig c2) columns = Ok ex).
Proof.
  intros Hn Hint Hv Hnorm.
  pose proof (Validate_ok fs c c1 Hv)
    as (_ & _ & Hbs & Hw & _ & Himp & Hexp & Hc1).
  pose proof (Normalize_ok n fs c1 c2 Hnorm) as (Hw2 & Hm2 & Hb2 & Ho2 & Hauto & Hkeep).
  assert (Workers c1 = Workers c) as Hwc by (by rewrite Hc1).
  assert (1 ≤ Workers c2 < 2 ^ 63) as Hw1.
  { rewrite Hw2. destruct (Z.eqb_spec (Workers c1) 0); lia. }
  destruct (NewPool_made (Importer.w_alloc w) (Workers c2) (BatchSize c2)) as [Hiff Hor];
    [lia|].
  split_and!; [lia|lia|lia|lia|exact Hiff|exact Hor| |].
  - intros Hi. rewrite Hm2 in Hi. destruct (Himp Hi) as (_ & _ & _ & Hfmt).
    assert (InputFormat c2 ∈ import_formats) as Hin.
    { destruct (decide (InputFormat c1 = "auto")) as [Ha|Ha]; [by apply Hauto|].
      rewrite (Hkeep Ha). unfold import_formats.
      apply elem_of_cons in Hfmt as [?|?]; done. }
    split; [done|]. by apply select_importer_ok.
  - intros He. rewrite Hm2 in He. destruct (Hexp He) as (_ & _ & Hfmt).
    rewrite <- Ho2 in Hfmt. split; [done|]. intros columns.
    by apply select_exporter_ok.
Qed.

Lemma validated_config_dispatches_witness :
  ∃ c2, Normalize 8 fs0 (Validate fs0 cfg_import).2 = (None, c2) ∧
        InputFormat c2 ∈ import_formats ∧ 1 ≤ Workers c2 < 2 ^ 63 ∧
        Worker.NewPool (Importer.w_alloc world0) (Workers c2) (BatchSize c2)
        = Some {| Worker.workers := Workers c2; Worker.batchSize := BatchSize c2 |}.
Proof.
  eexists. split; [reflexivity|].
  pose proof (validated_config_dispatches 8 fs0 cfg_import _ _ world0
                ltac:(done) ltac:(done) eq_refl eq_refl)
    as (Hw & _ & Hp & _ & Hi & _).
  split_and!; [by apply Hi|exact (proj1 Hw)|exact (proj2 Hw)|].
  apply Hp. by vm_compute.
Defined.

(** A worker count of 2^62 passes [Validate] and [Normalize], and no
    machine makes the pool for it: twice the count is not a Go integer. *)
Example huge_worker_count_is_accepted :
  ∃ c2, Normalize 8 fs0 (Validate fs0 cfg_huge).2 = (None, c2) ∧
        (Validate fs0 cfg_huge).1 = None ∧ Workers c2 = 2 ^ 62 ∧
        ∀ alloc, Worker.NewPool alloc (Workers c2) (BatchSize c2) = None.
Proof.
  eexists. split; [reflexivity|]. split_and!; [reflexivity..|].
  intros alloc. reflexivity.
Qed.

(** X10 (how [main] ends).  [main] never reaches the [Unknown mode] branch
    of its [switch]: a configuration that passed [Validate] and
    [Normalize] has mode import or export.  The process ends with status 0
    exactly when the configuration was decoded, validated and normalized
    and the operation of its mode returned nil, the operation being handed
    the configuration as [Validate] and [Normalize] left it; with 130
    exactly when the operation returned an error and the context was
    cancelled by then; with 2 exactly when the operation panicked, as
    [ImportData] does when [NewPool] cannot make its channels; and with 1
    in every other case. *)
Theorem main_exit (env : Env) :
  (∀ mode, main env ≠ UnknownMode mode) ∧
  (code (main env) = 0 ↔
   ∃ c c1 c2, stdin env = Ok c ∧ Validate (files env) c = (None, c1) ∧
              Normalize (numCPU env) (files env) c1 = (None, c2) ∧
              ((Mode c2 = "import" ∧ importData env (importConfig c2) = Returns None) ∨
               (Mode c2 = "export" ∧ exportData env (exportConfig c2) = Returns None))) ∧
  (code (main env) = 130 ↔
   interrupted env = true ∧
   ∃ c c1 c2 msg, stdin env = Ok c ∧ Validate (files env) c = (None, c1) ∧
              Normalize (numCPU env) (files env) c1 = (None, c2) ∧
              ((Mode c2 = "import" ∧
                importData env (importConfig c2) = Returns (Some msg)) ∨
               (Mode c2 = "export" ∧
                exportData env (exportConfig c2) = Returns (Some msg)))) ∧
  (code (main env) = 2 ↔
   ∃ c c1 c2, stdin env = Ok c ∧ Validate (files env) c = (None, c1) ∧
              Normalize (numCPU env) (files env) c1 = (None, c2) ∧
              ((Mode c2 = "import" ∧ importData env (importConfig c2) = Panics) ∨
               (Mode c2 = "export" ∧ exportData env (exportConfig c2) = Panics))) ∧
  (code (main env) = 0 ∨ code (main env) = 130 ∨ code (main env) = 2
   ∨ code (main env) = 1).
Proof.
  unfold main, dispatch.
  destruct (stdin env) as [c|msg] eqn:Hs.
  2: { split_and!; [done| | | |by right; right; right]; (split; [done|]).
       - by intros (? & ? & ? & [=] & _).
       - by intros (_ & ? & ? & ? & ? & [=] & _).
       - by intros (? & ? & ? & [=] & _). }
  destruct (Validate (files env) c) as [[msg|] c1] eqn:Hv.
  { split_and!; [done| | | |by right; right; right]; (split; [done|]).
    - intros (? & ? & ? & [= <-] & Hv' & _). by rewrite Hv in Hv'.
    - intros (_ & ? & ? & ? & ? & [= <-] & Hv' & _). by rewrite Hv in Hv'.
    - intros (? & ? & ? & [= <-] & Hv' & _). by rewrite Hv in Hv'. }
  destruct (Normalize (numCPU env) (files env) c1) as [[msg|] c2] eqn:Hn.
  { split_and!; [done| | | |by right; right; right]; (split; [done|]).
    - intros (? & ? & ? & [= <-] & Hv' & Hn' & _).
      rewrite Hv in Hv'. injection Hv' as <-. by rewrite Hn in Hn'.
    - intros (_ & ? & ? & ? & ? & [= <-] & Hv' & Hn' & _).
      rewrite Hv in Hv'. injection Hv' as <-. by rewrite Hn in Hn'.
    - intros (? & ? & ? & [= <-] & Hv' & Hn' & _).
      rewrite Hv in Hv'. injection Hv' as <-. by rewrite Hn in Hn'. }
  pose proof (Validate_ok _ _ _ Hv) as (Hmode & _).
  pose proof (Normalize_ok _ _ _ _ Hn) as (_ & Hm2 & _).
  rewrite <- Hm2 in Hmode.
  assert (∀ c' c1' c2', Ok c = Ok c' → Validate (files env) c' = (None, c1') →
            Normalize (numCPU env) (files env) c1' = (None, c2') → c2' = c2) as Huniq.
  { intros c' c1' c2' [= <-] Hv' Hn'. rewrite Hv in Hv'. injection Hv' as <-.
    rewrite Hn in Hn'. by injection Hn'. }
  assert ("import" ≠ "export") as Hne by done.
  destruct Hmode as [Hm|Hm]; rewrite Hm; simpl.
  all: match goal with
       | |- context [importData ?e ?x] => destruct (importData e x) as [[msg|]|] eqn:Hop
       | |- context [exportData ?e ?x] => destruct (exportData e x) as [[msg|]|] eqn:Hop
       end.
  all: try destruct (interrupted env) eqn:Hint; simpl.
  all: split_and!; [done| | | |auto]; split; try done.
  all: try (intros (c' & c1' & c2' & H1 & H2 & H3 & H4);
            rewrite (Huniq _ _ _ H1 H2 H3) in H4;
            destruct H4 as [[? ?]|[? ?]]; congruence).
  all: try (intros (_ & c' & c1' & c2' & msg' & H1 & H2 & H3 & H4);
            rewrite (Huniq _ _ _ H1 H2 H3) in H4;
            destruct H4 as [[? ?]|[? ?]]; congruence).
  all: try (by intros [[=] _]).
  all: try (intros _; split; [done|]; exists c, c1, c2, msg;
            split_and!; [done..|]; first [by left|by right]).
  all: intros _; exists c, c1, c2; split_and!; [done..|]; first [by left|by right].
Qed.

Lemma main_exit_witness :
  code (main (env0 None false)) = 0 ∧ code (main env_huge) = 2.
Proof.
  split.
  - apply (main_exit (env0 None false)).
    eexists cfg_import, _, _. split_and!.
    + reflexivity.
    + vm_compute. reflexivity.
    + vm_compute. reflexivity.
    + left. split; reflexivity.
  - apply (main_exit env_huge).
    eexists cfg_huge, _, _. split_and!.
    + reflexivity.
    + vm_compute. reflexivity.
    + vm_compute. reflexivity.
    + left. split; [reflexivity|]. by vm_compute.
Defined.

Example main_exit_codes :
  code (main (env0 None false)) = 0 ∧
  code (main (env0 (Some "batch insert failed") true)) = 130 ∧
  code (main (env0 (Some "batch insert failed") false)) = 1 ∧
  main env_huge = Crashed.
Proof. split_and!; by vm_compute. Qed.
End main_proofs.

(** ** Database connectors: the statement of a batch insert *)

Section db_extra_proofs.
Import DB DBAux.

Lemma imap_seq_fmap {A B} (f : nat → B) (l : list A) (n : nat) :
  imap (λ j _, f (n + j)%nat) l = f <$> seq n (length l).
Proof.
  revert n. induction l as [|x l IH]; intros n; [done|].
  cbn [length seq]. rewrite fmap_cons, <- (IH (S n)). cbn [imap].
  rewrite Nat.add_0_r. f_equal.
  apply imap_ext. intros j y _. simpl. f_equal. lia.
Qed.

Lemma pg_placeholders_seq nargs columns :
  pg_placeholders nargs columns
  = placeholder Postgres <$> seq (nargs + 1) (length columns).
Proof.
  unfold pg_placeholders. rewrite <- (imap_seq_fmap (placeholder Postgres)).
  apply imap_ext. intros j y _. simpl. do 2 f_equal. lia.
Qed.

Lemma mysql_placeholders_seq n (columns : list string) :
  (λ _, "?") <$> columns = placeholder MySQL <$> seq n (length columns).
Proof.
  revert n. induction columns as [|x l IH]; intros n; [done|].
  cbn [length seq]. rewrite !fmap_cons. f_equal. apply IH.
Qed.

Lemma pg_values_uniform columns rows args k :
  Forall (λ row : Row, length row = length columns) rows →
  length args = (k * length columns)%nat →
  pg_values columns rows args
  = (row_group Postgres (length columns) <$> seq k (length rows),
     args ++ concat rows).
Proof.
  revert args k. induction rows as [|row rows IH]; intros args k Hall Hlen.
  { simpl. by rewrite app_nil_r. }
  apply Forall_cons_1 in Hall as [Hrow Hall]. simpl.
  rewrite (IH (args ++ row) (S k) Hall).
  2: { rewrite length_app, Hrow, Hlen. simpl. lia. }
  rewrite <- app_assoc. f_equal. f_equal.
  unfold row_group. by rewrite pg_placeholders_seq, Hlen.
Qed.

Lemma mysql_values_uniform columns rows args k :
  mysql_values columns rows args
  = (row_group MySQL (length columns) <$> seq k (length rows),
     args ++ concat rows).
Proof.
  revert args k. induction rows as [|row rows IH]; intros args k.
  { simpl. by rewrite app_nil_r. }
  simpl. rewrite (IH (args ++ row) (S k)).
  rewrite <- app_assoc. f_equal. f_equal.
  unfold row_group. by rewrite (mysql_placeholders_seq (k * length columns + 1)).
Qed.

Lemma length_concat_uniform {A} (l : list (list A)) n :
  Forall (λ x, length x = n) l → length (concat l) = (length l * n)%nat.
Proof.
  induction 1 as [|x l Hx _ IH]; simpl; [done|]. rewrite length_app, Hx, IH. lia.
Qed.

(** X11 (the statement of a batch insert).  For a batch with at least one
    row, every row holding as many values as there are columns,
    [BatchInsert] hands the database exactly one statement, and nothing
    else whatever the answer: an INSERT into the table with the column
    names, one group of placeholders for each row, and as arguments the
    values of the rows in order, row after row.  For PostgreSQL the
    placeholders are numbered $1, $2, ... through the rows, so that the
    placeholder of column [j] of row [i] bears the position of that value
    among the arguments; for MySQL they are question marks.  There are as
    many arguments as placeholders.  The result is nil when the database
    accepts the statement, and its error wrapped in [batch insert failed]
    when it refuses; nothing is sent after a refusal, neither a second
    attempt nor a rollback. *)
Theorem BatchInsert_statement (d : Dialect) (db : Database) (table : string)
    (columns : list string) (rows : list Row) :
  rows ≠ [] →
  Forall (λ row : Row, length row = length columns) rows →
  let stmt := batch_statement d table columns rows in
  length stmt.2 = (length rows * length columns)%nat ∧
  BatchInsert d db table columns rows =
    (wrap_failure (exec_result db stmt),
     {| executed := executed db ++ [stmt]; exec_result := exec_result db |}).
Proof.
  intros Hne Hall stmt. split.
  { by apply length_concat_uniform. }
  destruct rows as [|row rows]; [done|].
  destruct d; unfold BatchInsert, PostgresBatchInsert, multiValueInsert,
    MySQLBatchInsert, ExecContext.
  - rewrite (pg_values_uniform columns (row :: rows) [] 0 Hall eq_refl).
    fold stmt. unfold stmt, batch_statement. simpl app.
    by destruct (exec_result db _).
  - rewrite (mysql_values_uniform columns (row :: rows) [] 0).
    unfold stmt, batch_statement. simpl app.
    by destruct (exec_result db _).
Qed.

Lemma BatchInsert_statement_witness :
  BatchInsert Postgres fresh_db "people" ["id"; "name"]
    [[VInt 1; VString "ann"]; [VInt 2; VString "bob"]]
  = (None,
     {| executed :=
          [("INSERT INTO people (id, name) VALUES ($1, $2), ($3, $4)",
            [VInt 1; VString "ann"; VInt 2; VString "bob"])];
        exec_result := exec_result fresh_db |}) ∧
  BatchInsert MySQL closed_db "people" ["id"; "name"] [[VInt 1; VString "ann"]]
  = (Some "batch insert failed: connection refused",
     {| executed := [("INSERT INTO people (id, name) VALUES (?, ?)",
                      [VInt 1; VString "ann"])];
        exec_result := exec_result closed_db |}).
Proof.
  split.
  - apply (BatchInsert_statement Postgres fresh_db "people" ["id"; "name"]
             [[VInt 1; VString "ann"]; [VInt 2; VString "bob"]]).
    + done.
    + by repeat constructor.
  - apply (BatchInsert_statement MySQL closed_db "people" ["id"; "name"]
             [[VInt 1; VString "ann"]]).
    + done.
    + by repeat constructor.
Defined.
End db_extra_proofs.

(** ** The MySQL connector: which DSNs are rewritten *)

Section dsn_proofs.
Import MySQL MySQLAux.
Context (parse : string → Result URL).

Lemma Contains_cons (c : ascii) (s sub : string) :
  DB.Contains (String c s) sub = String.prefix sub (String c s) || DB.Contains s sub.
Proof.
  unfold DB.Contains. cbn [String.index].
  destruct (String.prefix sub (String c s)); [done|].
  by destruct (String.index 0 sub s).
Qed.

Lemma Contains_nil (c : ascii) (sub : string) :
  DB.Contains EmptyString (String c sub) = false.
Proof. done. Qed.

Lemma prefix_char (c x : ascii) (s : string) :
  String.prefix (String c EmptyString) (String x s) = Ascii.eqb x c.
Proof.
  cbn [String.prefix]. destruct (ascii_dec c x) as [->|Hne].
  - rewrite Ascii.eqb_refl. by destruct s.
  - symmetry. apply Ascii.eqb_neq. congruence.
Qed.

Lemma Contains_char_cons (c x : ascii) (s : string) :
  DB.Contains (String x s) (String c EmptyString)
  = Ascii.eqb x c || DB.Contains s (String c EmptyString).
Proof. by rewrite Contains_cons, prefix_char. Qed.

Lemma Contains_char_app (c : ascii) (a b : string) :
  DB.Contains (a +:+ b) (String c EmptyString)
  = DB.Contains a (String c EmptyString) || DB.Contains b (String c EmptyString).
Proof.
  induction a as [|x a IH].
  - done.
  - change (String x a +:+ b) with (String x (a +:+ b)).
    rewrite !Contains_char_cons, IH. by rewrite orb_assoc.
Qed.

Lemma cut_first (sep : ascii) (before after : string) :
  DB.Contains before (String sep EmptyString) = false →
  cut sep (before +:+ String sep after) = Some (before, after).
Proof.
  induction before as [|x s IH]; intros Hno.
  - change (EmptyString +:+ String sep after) with (String sep after).
    simpl. by rewrite Ascii.eqb_refl.
  - rewrite Contains_char_cons in Hno. apply orb_false_elim in Hno as [Hx Hs].
    change (String x s +:+ String sep after) with (String x (s +:+ String sep after)).
    simpl. by rewrite Hx, (IH Hs).
Qed.

Lemma cut_none (sep : ascii) (s : string) :
  DB.Contains s (String sep EmptyString) = false → cut sep s = None.
Proof.
  induction s as [|x s IH]; intros Hno; [done|].
  rewrite Contains_char_cons in Hno. apply orb_false_elim in Hno as [Hx Hs].
  simpl. by rewrite Hx, (IH Hs).
Qed.

Lemma cut_some (sep : ascii) (s : string) :
  DB.Contains s (String sep EmptyString) = true → ∃ before after, cut sep s = Some (before, after).
Proof.
  induction s as [|x s IH]; intros Hyes; [done|].
  rewrite Contains_char_cons in Hyes. simpl.
  destruct (Ascii.eqb x sep); [eauto|].
  destruct (IH Hyes) as (b & a & ->). eauto.
Qed.

Lemma prefix_app (pre rest : string) : String.prefix pre (pre +:+ rest) = true.
Proof.
  induction pre as [|x pre IH]; [by destruct rest|].
  change (String x pre +:+ rest) with (String x (pre +:+ rest)).
  cbn [String.prefix]. by destruct (ascii_dec x x).
Qed.

Lemma prefix_split (pre s : string) :
  String.prefix pre s = true → ∃ rest, s = pre +:+ rest.
Proof.
  revert s. induction pre as [|x pre IH]; intros s Hp.
  - by exists s.
  - destruct s as [|y s]; [done|]. cbn [String.prefix] in Hp.
    destruct (ascii_dec x y) as [->|]; [|done].
    destruct (IH s Hp) as [rest ->]. by exists rest.
Qed.

(** A string that holds [@tcp(] holds an opening parenthesis. *)
Lemma Contains_tcp_paren (s : string) :
  DB.Contains s "@tcp(" = true → DB.Contains s "(" = true.
Proof.
  induction s as [|x s IH]; [done|].
  rewrite Contains_cons. intros [Hp|Hc]%orb_true_iff.
  - apply prefix_split in Hp as [rest ->].
    change ("@tcp(" +:+ rest) with ("@tcp" +:+ String "(" rest).
    rewrite Contains_char_app. apply orb_true_iff. right.
    by rewrite Contains_char_cons.
  - rewrite Contains_char_cons. apply orb_true_iff. right. by apply IH.
Qed.

(** X12 (the short form of a MySQL DSN).  A DSN [user@addr/db] that does
    not start with [mysql://] and holds no opening parenthesis, where
    [user] holds no [@] and [addr] no slash, is handed to the driver as
    [user@tcp(addr)/db]: the DSN is cut at its first [@] and what follows
    at its first slash. *)
Theorem driver_dsn_short_form (user addr db : string) :
  let dsn := user +:+ "@" +:+ addr +:+ "/" +:+ db in
  String.prefix "mysql://" dsn = false →
  DB.Contains user "@" = false →
  DB.Contains addr "/" = false →
  DB.Contains dsn "(" = false →
  driver_dsn parse dsn = Some (user +:+ "@tcp(" +:+ addr +:+ ")/" +:+ db).
Proof.
  intros dsn Hpre Huser Haddr Hparen. unfold driver_dsn. rewrite Hpre.
  assert (DB.Contains dsn "@" = true) as ->.
  { unfold dsn. rewrite Contains_char_app. apply orb_true_iff. right.
    change ("@" +:+ addr +:+ "/" +:+ db) with (String "@" (addr +:+ "/" +:+ db)).
    by rewrite Contains_char_cons. }
  assert (DB.Contains dsn "/" = true) as ->.
  { unfold dsn. rewrite !Contains_char_app. apply orb_true_iff. right.
    apply orb_true_iff. right. apply orb_true_iff. right.
    change ("/" +:+ db) with (String "/" db). by rewrite Contains_char_cons. }
  rewrite Hparen. cbn [andb negb]. unfold SplitN2.
  unfold dsn. change ("@" +:+ addr +:+ "/" +:+ db) with (String "@" (addr +:+ "/" +:+ db)).
  rewrite (cut_first "@" user _ Huser).
  change ("/" +:+ db) with (String "/" db).
  by rewrite (cut_first "/" addr db Haddr).
Qed.

(** X13 (the DSNs left alone).  The rewriting of the DSN never panics.  A
    DSN that does not start with [mysql://] and holds no [@], or no slash,
    or an opening parenthesis, is handed to the driver as it is.  This is
    the case for every such DSN that [NewConnector] takes for a MySQL DSN,
    since it holds [@tcp(].  A DSN without an opening parenthesis that
    starts with none of [postgres://], [postgresql://] and [mysql://], as
    the short form [user@addr/db] does, is refused by [NewConnector] as
    unsupported: through [NewConnector] the short form never reaches the
    MySQL connector. *)
Theorem driver_dsn_left_alone (dsn : string) :
  driver_dsn parse dsn ≠ None ∧
  (String.prefix "mysql://" dsn = false →
   (DB.Contains dsn "@" = false ∨ DB.Contains dsn "/" = false
    ∨ DB.Contains dsn "(" = true → driver_dsn parse dsn = Some dsn) ∧
   (∀ ping, DB.NewConnector ping dsn = Ok DB.MySQL → driver_dsn parse dsn = Some dsn) ∧
   (DB.Contains dsn "(" = false →
    String.prefix "postgres://" dsn = false →
    String.prefix "postgresql://" dsn = false →
    ∀ ping, DB.NewConnector ping dsn
            = Err ("unsupported database type in DSN: " +:+ dsn))).
Proof.
  assert (String.prefix "mysql://" dsn = false →
          DB.Contains dsn "@" = false ∨ DB.Contains dsn "/" = false
          ∨ DB.Contains dsn "(" = true → driver_dsn parse dsn = Some dsn) as Hleft.
  { intros Hpre Hor. unfold driver_dsn. rewrite Hpre.
    destruct Hor as [-> | [-> | ->]]; [done| |].
    - by rewrite andb_false_r.
    - by rewrite andb_false_r. }
  split.
  - unfold driver_dsn. destruct (String.prefix "mysql://" dsn).
    { by destruct (parse dsn). }
    destruct (DB.Contains dsn "@") eqn:Hat; [|done].
    destruct (DB.Contains dsn "/"); [|done].
    destruct (DB.Contains dsn "("); [done|]. cbn [andb negb].
    unfold SplitN2. destruct (cut_some "@" dsn Hat) as (b & a & ->).
    by destruct (cut "/" a) as [[? ?]|].
  - intros Hpre. split_and!.
    + by apply Hleft.
    + intros ping Hnew. apply Hleft; [done|]. right. right.
      apply Contains_tcp_paren. unfold DB.NewConnector in Hnew.
      destruct (String.prefix "postgres://" dsn || String.prefix "postgresql://" dsn).
      { by destruct (ping DB.Postgres). }
      rewrite Hpre, orb_false_r in Hnew.
      by destruct (DB.Contains dsn "@tcp(").
    + intros Hparen Hp1 Hp2 ping. unfold DB.NewConnector.
      rewrite Hp1, Hp2, Hpre. cbn [orb].
      destruct (DB.Contains dsn "@tcp(") eqn:Htcp; [|done].
      apply Contains_tcp_paren in Htcp. congruence.
Qed.

End dsn_proofs.

Section dsn_examples.
Import MySQL MySQLAux.

Lemma driver_dsn_short_form_witness :
  driver_dsn no_url "app:secret@db.internal:3306/shop"
  = Some "app:secret@tcp(db.internal:3306)/shop".
Proof.
  apply (driver_dsn_short_form no_url "app:secret" "db.internal:3306" "shop");
    reflexivity.
Defined.

Lemma driver_dsn_left_alone_witness :
  driver_dsn no_url "app:secret@tcp(db.internal:3306)/shop"
  = Some "app:secret@tcp(db.internal:3306)/shop" ∧
  DB.NewConnector (λ _, None) "app:secret@db.internal:3306/shop"
  = Err "unsupported database type in DSN: app:secret@db.internal:3306/shop".
Proof.
  split.
  - apply (driver_dsn_left_alone no_url "app:secret@tcp(db.internal:3306)/shop");
      [reflexivity|]. right. right. reflexivity.
  - apply (driver_dsn_left_alone no_url "app:secret@db.internal:3306/shop");
      reflexivity.
Defined.
End dsn_examples.

(** ** Importers: the shape of the rows *)

Section csv_field_count.
Import GoCSV Importer ImporterCalls.

Lemma readLine_FieldsPerRecord r :
  FieldsPerRecord (readLine r).2 = FieldsPerRecord r.
Proof.
  unfold readLine. destruct (ReadSlice (src r)) as [[line rest] found].
  by repeat case_match.
Qed.

Lemma skipEmpty_FieldsPerRecord fuel r :
  FieldsPerRecord (skipEmpty fuel r).2 = FieldsPerRecord r.
Proof.
  revert r. induction fuel as [|fuel IH]; intros r; simpl.
  - pose proof (readLine_FieldsPerRecord r) as Hr.
    by destruct (readLine r) as [[line e] r'].
  - pose proof (readLine_FieldsPerRecord r) as Hr.
    destruct (readLine r) as [[line e] r']. simpl in Hr.
    destruct e; try done. case_match; [|done]. by rewrite IH.
Qed.

(** What the field loop keeps: it never turns an error into [io.EOF], it
    leaves [FieldsPerRecord] alone, and it ends without error only with
    one field more at least. *)
Lemma parseFields_keeps comma fuel m line e r fields dst e' r2 :
  e ≠ EOF →
  parseFields comma fuel m line e r fields = Some (dst, e', r2) →
  e' ≠ EOF ∧ FieldsPerRecord r2 = FieldsPerRecord r ∧
  (e' = NoErr → (length fields < length dst)%nat).
Proof.
  revert m line e r fields.
  induction fuel as [|fuel IH]; intros m line e r fields He Hp; [done|].
  destruct m as [|acc].
  - rewrite parse_AtField in Hp.
    destruct (trimLeadingSpace (length line) line) as [|c line'].
    { injection Hp as <- <- <-. rewrite length_app. simpl. split_and!; [done..|lia]. }
    destruct (bool_decide (c = DQUOTE)); [by eapply IH|].
    destruct (splitAt comma (c :: line')) as [[field after]|].
    + destruct (IH _ _ _ _ _ He Hp) as (H1 & H2 & H3). split_and!; [done..|].
      intros Hn. specialize (H3 Hn). rewrite length_app in H3. simpl in H3. lia.
    + injection Hp as <- <- <-. rewrite length_app. simpl. split_and!; [done..|lia].
  - rewrite parse_InQuote in Hp.
    destruct (splitAt DQUOTE line) as [[before after]|].
    + destruct after as [|c after'].
      { injection Hp as <- <- <-. rewrite length_app. simpl. split_and!; [done..|lia]. }
      destruct (bool_decide (c = DQUOTE)); [by eapply IH|].
      destruct (bool_decide (c = comma)).
      { destruct (IH _ _ _ _ _ He Hp) as (H1 & H2 & H3). split_and!; [done..|].
        intros Hn. specialize (H3 Hn). rewrite length_app in H3. simpl in H3. lia. }
      destruct (lengthNL (c :: after') =? length (c :: after'))%nat; [|by eapply IH].
      injection Hp as <- <- <-. rewrite length_app. simpl. split_and!; [done..|lia].
    + destruct line as [|c line'].
      { injection Hp as <- <- <-. rewrite length_app. simpl. split_and!; [done..|lia]. }
      destruct e; [|done|].
      * pose proof (readLine_FieldsPerRecord r) as Hr.
        destruct (readLine r) as [[line2 e2] r'] eqn:Hrl. simpl in Hr.
        assert (match e2 with EOF => NoErr | e => e end ≠ EOF) as He2 by (by destruct e2).
        destruct (IH _ _ _ _ _ He2 Hp) as (H1 & H2 & H3). split_and!; [done| |done].
        by rewrite H2.
      * injection Hp as <- <- <-. split_and!; done.
Qed.

Lemma Read_field_count comma r res r' :
  Read comma r = (res, r') →
  (0 < FieldsPerRecord r →
     FieldsPerRecord r' = FieldsPerRecord r ∧
     ∀ record, res = ReadRecord record →
               Z.of_nat (length record) = FieldsPerRecord r) ∧
  (FieldsPerRecord r = 0 →
     ∀ record, res = ReadRecord record →
               FieldsPerRecord r' = Z.of_nat (length record) ∧
               (1 ≤ length record)%nat).
Proof.
  unfold Read. destruct (validDelim comma); cbn [negb]; cbv zeta.
  2: { intros [= <- <-]. split; [by split|done]. }
  generalize (S (S (length (src r)))). intros fuel.
  pose proof (skipEmpty_FieldsPerRecord fuel r) as Hs.
  destruct (skipEmpty fuel r) as [[line e] r1]. simpl in Hs.
  assert (e = EOF ∨ e ≠ EOF) as [->|He] by (destruct e; auto).
  { intros [= <- <-]. split; [by split|done]. }
  destruct (parseFields comma _ AtField line e r1 []) as [[[dst e'] r2]|] eqn:Hp.
  2: { destruct e; [|done|]; intros [= <- <-]; (split; [by split|done]). }
  destruct (parseFields_keeps _ _ _ _ _ _ _ _ _ _ He Hp) as (He' & Hf & Hlen).
  rewrite Hs in Hf. simpl in Hlen.
  assert (Read_tail :
    (match e' with
     | IOErr msg => (ReadFail dst msg,
                     if FieldsPerRecord r2 =? 0
                     then set_FieldsPerRecord (Z.of_nat (length dst)) r2 else r2)
     | _ => if 0 <? FieldsPerRecord r2
            then if negb (Z.of_nat (length dst) =? FieldsPerRecord r2)
                 then (ReadFail dst (errFieldCount (numLine r1)), r2)
                 else (ReadRecord dst, r2)
            else if FieldsPerRecord r2 =? 0
                 then (ReadRecord dst, set_FieldsPerRecord (Z.of_nat (length dst)) r2)
                 else (ReadRecord dst, r2)
     end) = (res, r') →
    (0 < FieldsPerRecord r →
       FieldsPerRecord r' = FieldsPerRecord r ∧
       ∀ record, res = ReadRecord record →
                 Z.of_nat (length record) = FieldsPerRecord r) ∧
    (FieldsPerRecord r = 0 →
       ∀ record, res = ReadRecord record →
                 FieldsPerRecord r' = Z.of_nat (length record) ∧
                 (1 ≤ length record)%nat)).
  { rewrite Hf. destruct e' as [| |msg]; [|done|].
    - specialize (Hlen eq_refl).
      destruct (Z.ltb_spec 0 (FieldsPerRecord r)) as [Hpos|Hnp].
      + destruct (Z.eqb_spec (Z.of_nat (length dst)) (FieldsPerRecord r)) as [Heq|Hne];
          simpl; intros [= <- <-]; (split; [|lia]); intros _; (split; [done|]).
        * by intros ? [= <-].
        * done.
      + destruct (Z.eqb_spec (FieldsPerRecord r) 0) as [Hz|Hnz];
          intros [= <- <-]; (split; [lia|]); intros Hz'; [|done].
        intros ? [= <-]. simpl. split; [done|lia].
    - destruct (Z.eqb_spec (FieldsPerRecord r) 0) as [Hz|Hnz];
        intros [= <- <-]; split; try done; try lia. }
  destruct e; [exact Read_tail|done|exact Read_tail].
Qed.

(** The state of an open CSV importer that rows are checked against
    [n] fields. *)
Lemma later_FieldsPerRecord (st st' : CSVOpen) :
  later st st' →
  0 < FieldsPerRecord (csv_reader st) →
  FieldsPerRecord (csv_reader st') = FieldsPerRecord (csv_reader st).
Proof.
  intros Hl Hpos. induction Hl as [st|st st1 st' Hn _ IH]; [done|].
  unfold next in Hn. simpl in Hn. unfold CSVNextRow in Hn.
  destruct (Read (csv_comma st) (csv_reader st)) as [res r'] eqn:Hr.
  destruct (Read_field_count _ _ _ _ Hr) as [Hkeep _].
  destruct (Hkeep Hpos) as [Heq _].
  assert (csv_reader st1 = r') as Hst1 by (subst st1; by destruct res).
  rewrite IH; rewrite Hst1; [done|lia].
Qed.
End csv_field_count.

Section csv_rows.
Import GoCSV Importer ImporterCalls.

(** X14 (CSV rows have the width of the header).  When the CSV importer has
    opened a file, the header has at least one column, and every row any
    later call of [NextRow] returns has exactly as many cells as the header
    has columns: the reader's [FieldsPerRecord] is set by the header, so
    that a record of another width comes back as an error, not as a row
    that is padded or cut. *)
Theorem CSV_rows_match_header (c : Importer.CSVImporter) (columns : list string)
    (st : Importer.CSVOpen) :
  Importer.CSVOpenFile c = Ok (columns, st) →
  (1 ≤ length columns)%nat ∧
  ∀ st' row st'',
    ImporterCalls.later st st' →
    Importer.CSVNextRow st' = (Ok row, st'') →
    length row = length columns.
Proof.
  unfold Importer.CSVOpenFile. intros Hopen.
  destruct (Importer.csv_open_file c) as [reader|msg] eqn:Hfile; [|done].
  destruct (GoCSV.Read (Importer.csv_delimiter c) reader) as [res reader'] eqn:Hr.
  assert (GoCSV.FieldsPerRecord reader = 0) as Hzero.
  { unfold Importer.csv_open_file in Hfile.
    destruct (Importer.csv_fs c (Importer.csv_filePath c)); by inversion Hfile. }
  destruct res as [|header|header msg]; [done| |done].
  injection Hopen as <- <-.
  destruct (Read_field_count _ _ _ _ Hr) as [_ Hset].
  destruct (Hset Hzero header eq_refl) as [Hf Hlen].
  rewrite length_fmap. split; [done|].
  intros st' row st'' Hl Hnext.
  pose proof (later_FieldsPerRecord _ _ Hl) as Hkeep. simpl in Hkeep.
  rewrite Hf in Hkeep. specialize (Hkeep ltac:(lia)).
  unfold Importer.CSVNextRow in Hnext.
  destruct (GoCSV.Read (Importer.csv_comma st') (Importer.csv_reader st'))
    as [res' r'] eqn:Hr'.
  destruct res' as [|record|record msg]; [done| |done].
  injection Hnext as <- _. rewrite length_fmap.
  destruct (Read_field_count _ _ _ _ Hr') as [Hchk _].
  destruct (Hchk ltac:(lia)) as [_ Hrec]. specialize (Hrec record eq_refl). lia.
Qed.

Lemma CSV_rows_match_header_witness :
  let st := match Importer.CSVOpenFile ImporterCalls.ragged_importer with
            | Ok (_, st) => st
            | Err _ => {| Importer.csv_comma := ","; Importer.csv_columns := [];
                          Importer.csv_reader := GoCSV.NewReader [] None |}
            end in
  length [VString "1"; VString "ann"] = length ["id"; "name"] ∧
  (Importer.CSVNextRow (Importer.CSVNextRow st).2).1
  = Err "failed to read row: record on line 3: wrong number of fields".
Proof.
  split.
  - eapply (CSV_rows_match_header ImporterCalls.ragged_importer ["id"; "name"]).
    + by vm_compute.
    + apply rtc_refl.
    + by vm_compute.
  - by vm_compute.
Defined.
End csv_rows.

Section jsonl_rows.
Import Importer ImporterCalls.

Lemma jsonl_lines_yield (columns : list string) (lines : list Line)
    (objs : list (option (gmap string Value))) (e : error) :
  Forall2 (λ l obj, Unmarshal l = Ok obj) lines objs →
  ∃ st',
    yields {| jsonl_scanner := {| tokens := lines; scan_err := e |};
              jsonl_columns := columns; jsonl_firstRow := None |}
      (jsonl_row columns <$> objs)
      (match e with Some msg => "scanner error: " +:+ msg | None => "EOF" end) st'.
Proof.
  induction 1 as [|l obj lines objs Hl _ [st' IH]].
  - eexists. apply yields_stop. simpl. unfold JSONLNextRow. simpl. by destruct e.
  - exists st'. simpl. eapply yields_row; [|exact IH].
    simpl. unfold JSONLNextRow. simpl. by rewrite Hl.
Qed.

(** X15 (a JSONL file, line by line).  When the first line of a JSONL file
    is an object and every later line decodes, [Open] followed by calls of
    [NextRow] hands out one row for each line of the file, the first line
    included, in the order of the file, and then stops: with [EOF] when the
    scanner met no error, with a scanner error otherwise.  The row of a
    line holds, for each column found in the first line, the value the
    line has under that name, and null when it has none; what a later line
    holds under other names appears in no row. *)
Theorem JSONL_every_line_is_a_row (j : JSONLImporter)
    (first : list (string * Value)) (lines : list Line)
    (objs : list (option (gmap string Value))) (e : error) :
  jsonl_file j (jsonl_filePath j)
    = JFile {| tokens := JObject first :: lines; scan_err := e |} →
  Forall2 (λ l obj, Unmarshal l = Ok obj) lines objs →
  ∃ columns st st',
    Open j = Ok (columns, st) ∧
    yields st
      ((λ obj, (λ col, default VNull (map_get obj col)) <$> columns)
         <$> (Some (decode_object first) :: objs))
      (match e with Some msg => "scanner error: " +:+ msg | None => "EOF" end) st'.
Proof.
  intros Hfile Hlines. simpl. unfold JSONLOpenFile. rewrite Hfile. simpl.
  destruct (jsonl_lines_yield (jsonl_visit j (map_keys (decode_object first)))
              lines objs e Hlines) as [st' Hy].
  eexists _, _, st'. split; [done|].
  eapply yields_row.
  - simpl. unfold JSONLNextRow. simpl. by rewrite jsonl_row_spec.
  - erewrite list_fmap_ext; [exact Hy|]. intros ? obj _. by rewrite jsonl_row_spec.
Qed.

Lemma JSONL_every_line_is_a_row_witness :
  ∃ st st',
    Open lines_importer = Ok (["id"; "name"], st) ∧
    yields st [[VInt 1; VString "ann"]; [VInt 2; VNull]; [VNull; VNull]] "EOF" st'.
Proof.
  destruct (JSONL_every_line_is_a_row lines_importer
              [("id", VInt 1); ("name", VString "ann")]
              [JObject [("id", VInt 2)]; JNull]
              [Some (decode_object [("id", VInt 2)]); None] None)
    as (columns & st & st' & Hopen & Hy).
  - done.
  - by repeat constructor.
  - exists st, st'. vm_compute in Hopen. injection Hopen as <- <-.
    split; [by vm_compute|]. exact Hy.
Defined.
End jsonl_rows.

(** ** Runs of the export *)

Section export_runs.
Import Exporter ExporterAux ExportRuns.
Context (fmt_float : float64 → string).
Context (json_marshal : gmap string Value → Result bytes).

Lemma CSVClose_file (st : CSVOpen) :
  csv_write_err st = None → CSVClose st = Bytes (csv_file st ++ csv_buf st).
Proof. intros Hw. unfold CSVClose, CSVFlush. by rewrite Hw. Qed.

Lemma CSVFlush_file (st : CSVOpen) :
  csv_write_err st = None →
  (CSVFlush st).1 = None ∧ CSVClose (CSVFlush st).2 = Bytes (csv_file st ++ csv_buf st).
Proof.
  intros Hw. unfold CSVClose, CSVFlush. rewrite Hw. simpl. by rewrite app_nil_r.
Qed.

Lemma csv_export_loop (cancelled : nat → bool) (rows : list (Result Row))
    (cur_err : error) (n : nat) (st : CSVOpen) :
  GoCSV.validDelim (csv_comma st) = true →
  csv_write_err st = None →
  let run := export_loop (H := any_exporter fmt_float json_marshal)
               cancelled rows cur_err n (OpenCSV st) in
  ∃ written : list Row,
    (Ok <$> written) `prefix_of` rows ∧
    run_count run = Z.of_nat (n + length written) ∧
    run_file run = Some (Bytes (csv_file st ++ csv_buf st
                      ++ concat (csv_record fmt_float (csv_comma st) <$> written))) ∧
    (run_err run = None ↔
       Ok <$> written = rows ∧ cur_err = None ∧
       ∀ i, (i < length rows)%nat → cancelled (n + i)%nat = false).
Proof.
  intros Hd Hw. revert n st Hd Hw.
  induction rows as [|scanned rows IH]; intros n st Hd Hw; cbn [export_loop].
  - exists []. cbn [fmap list_fmap length concat]. rewrite Nat.add_0_r, app_nil_r.
    destruct cur_err as [msg|].
    + cbn. rewrite (CSVClose_file st Hw).
      split_and!; [done..|]. split; [done|]. by intros (_ & ? & _).
    + destruct (CSVFlush_file st Hw) as [Hf Hc].
      cbn. rewrite Hf. cbn. rewrite Hc. split_and!; [done..|]. split; [|done].
      intros _. split_and!; [done..|]. intros i Hi. cbn in Hi. lia.
  - destruct (cancelled n) eqn:Hc.
    { exists []. cbn. rewrite Nat.add_0_r, app_nil_r, (CSVClose_file st Hw).
      split_and!; [apply prefix_nil|done..|]. split; [done|].
      intros (_ & _ & Hall). specialize (Hall 0%nat ltac:(lia)).
      rewrite Nat.add_0_r in Hall. congruence. }
    destruct scanned as [row|msg].
    2:{ exists []. cbn. rewrite Nat.add_0_r, app_nil_r, (CSVClose_file st Hw).
        split_and!; [apply prefix_nil|done..|]. split; [done|]. by intros ([=] & _). }
    cbn [WriteRow any_exporter lift csv_exporter].
    unfold CSVWriteRow, csv_write, GoCSV.Write. rewrite Hd. cbn [negb fst snd].
    match goal with
    | |- context [export_loop _ _ _ _ (OpenCSV ?s)] => destruct (IH (S n) s Hd Hw)
          as (written & Hpre & Hcount & Hfile & Herr)
    end.
    exists (row :: written). cbn [csv_comma csv_buf csv_file] in *. split_and!.
    + by apply prefix_cons.
    + rewrite Hcount. f_equal. cbn [length]. lia.
    + rewrite Hfile. unfold csv_record. cbn [fmap list_fmap concat].
      by rewrite <- !app_assoc.
    + rewrite Herr. split.
      * intros (Hrows & He & Hall). split_and!; [by rewrite fmap_cons, Hrows|done|].
        intros [|i] Hi; [by rewrite Nat.add_0_r|].
        rewrite <- Nat.add_succ_comm. apply Hall. cbn [length] in Hi. lia.
      * intros (Hrows & He & Hall). rewrite fmap_cons in Hrows.
        injection Hrows as Hrows. split_and!; [done..|].
        intros i Hi. rewrite Nat.add_succ_comm. apply Hall. cbn [length]. lia.
Qed.

(** X16 (what an export to CSV or TSV leaves in the file).  When the
    database answers the query and the output file can be created and
    written, the file [ExportData] leaves holds the header line followed by
    one record for each row it counted, and nothing else; these rows are
    the first rows of the cursor, in its order.  The run returns no error
    exactly when every row of the cursor was written: it stops at the first
    row that fails to scan or before which the context is found done, and
    fails as well when the cursor ends with an error; what was written
    until then stays in the file. *)
Theorem CSV_export_file (w : World) (config : Config) (connector : DB.Dialect)
    (cursor : Cursor) (columns : list string) (comma : ascii) :
  DB.NewConnector (w_ping w) (DSN config) = Ok connector →
  w_query w connector (Query config) = Ok cursor →
  cur_columns cursor = Ok columns →
  (OutputFormat config = "csv" ∧ comma = ","%char) ∨
  (OutputFormat config = "tsv" ∧ comma = "009"%char) →
  create_err (w_disk w) (OutputFile config) = None →
  write_err (w_disk w) (OutputFile config) = None →
  let run := ExportData fmt_float json_marshal w config in
  ∃ written : list Row,
    (Ok <$> written) `prefix_of` cur_rows cursor ∧
    run_count run = Z.of_nat (length written) ∧
    run_file run = Some (Bytes (header_line comma columns
                      ++ concat (csv_record fmt_float comma <$> written))) ∧
    (run_err run = None ↔
       Ok <$> written = cur_rows cursor ∧ cur_err cursor = None ∧
       ∀ i, (i < length (cur_rows cursor))%nat → w_cancelled w i = false).
Proof.
  intros Hconn Hquery Hcols Hfmt Hcreate Hwrite run. subst run.
  unfold ExportData. rewrite Hconn, Hquery, Hcols.
  unfold select_exporter.
  destruct Hfmt as [[-> ->]|[-> ->]]; simpl;
    unfold CSVOpenFile, csv_write, GoCSV.Write; simpl;
    rewrite Hcreate, Hwrite; simpl.
  all: match goal with
       | |- context [export_loop ?c ?rows ?e 0 (OpenCSV ?s)] =>
           destruct (csv_export_loop c rows e 0 s eq_refl eq_refl)
             as (written & Hpre & Hcount & Hfile & Herr)
       end.
  all: exists written; simpl in *; split_and!; done.
Qed.

Lemma length_remove_dups (l : list string) :
  (length (remove_dups l) ≤ length l)%nat.
Proof.
  induction l as [|x l IH]; simpl; [done|]. case_decide; simpl; lia.
Qed.

Lemma length_remove_dups_NoDup (l : list string) :
  length (remove_dups l) = length l ↔ NoDup l.
Proof.
  induction l as [|x l IH]; simpl.
  - split; [constructor|done].
  - pose proof (length_remove_dups l) as Hle. rewrite NoDup_cons.
    case_decide as Hx; simpl.
    + split; [lia|]. by intros [? _].
    + rewrite <- IH. split; [by intros [=]|]. by intros [_ ->].
Qed.

Lemma row_object_lookup (convert : Value → Value) (columns : list string) (i : nat)
    (row : Row) (obj : gmap string Value) (col : string) :
  (col ∉ columns → row_object convert columns i row obj !! col = obj !! col) ∧
  (∀ k, columns !! k = Some col → (∀ j, (k < j)%nat → columns !! j ≠ Some col) →
        row_object convert columns i row obj !! col = Some (cell convert row (i + k))).
Proof.
  revert i obj. induction columns as [|c cs IH]; intros i obj; simpl.
  { split; [done|]. by intros k. }
  destruct (IH (S i) (<[c := match row !! i with Some v => convert v | None => VNull end]>
                        obj)) as [IHout IHin].
  split.
  - intros Hnot. apply not_elem_of_cons in Hnot as [Hne Hnot].
    rewrite (IHout Hnot). by apply lookup_insert_ne.
  - intros [|k] Hk Hlast; simpl in Hk.
    + injection Hk as ->. rewrite IHout.
      * rewrite Nat.add_0_r. apply lookup_insert_eq.
      * intros [j Hj]%list_elem_of_lookup. by apply (Hlast (S j) ltac:(lia)).
    + rewrite (IHin k Hk).
      * by rewrite Nat.add_succ_comm.
      * intros j Hj. apply (Hlast (S j)). lia.
Qed.

Lemma row_object_dom (convert : Value → Value) (columns : list string) (i : nat)
    (row : Row) (obj : gmap string Value) :
  dom (row_object convert columns i row obj) = dom obj ∪ list_to_set columns.
Proof.
  revert i obj. induction columns as [|c cs IH]; intros i obj; simpl.
  - by rewrite union_empty_r_L.
  - rewrite IH, dom_insert_L.
    rewrite (union_comm_L {[c]} (dom obj)), <- union_assoc_L. done.
Qed.

(** X17 (a row as an object).  The object that [WriteRow] of the JSONL and
    of the Parquet exporter makes of a row has exactly the column names as
    its keys.  Under a name it holds the cell at the position of the last
    column of that name, nil when the row ends before that position: when
    two columns bear the same name, the value of the earlier one is not
    written, and the object has fewer members than the row has columns. *)
Theorem row_object_columns (convert : Value → Value) (columns : list string) (row : Row) :
  let obj := row_object convert columns 0 row ∅ in
  (∀ col, is_Some (obj !! col) ↔ col ∈ columns) ∧
  (∀ i col, columns !! i = Some col →
     (∀ j, (i < j)%nat → columns !! j ≠ Some col) →
     obj !! col = Some (cell convert row i)) ∧
  (size obj ≤ length columns)%nat ∧
  (size obj = length columns ↔ NoDup columns).
Proof.
  intros obj.
  assert (dom obj = list_to_set columns) as Hdom.
  { unfold obj. by rewrite row_object_dom, dom_empty_L, union_empty_l_L. }
  assert (size obj = length (remove_dups columns)) as Hsize.
  { rewrite <- size_dom, Hdom.
    rewrite <- (size_list_to_set (C := gset string) _ (NoDup_remove_dups columns)).
    f_equal. apply set_eq. intros x.
    by rewrite !elem_of_list_to_set, elem_of_remove_dups. }
  split_and!.
  - intros col. by rewrite <- elem_of_dom, Hdom, elem_of_list_to_set.
  - intros i col Hi Hlast.
    destruct (row_object_lookup convert columns 0 row ∅ col) as [_ Hin].
    exact (Hin i Hi Hlast).
  - rewrite Hsize. apply length_remove_dups.
  - rewrite Hsize. apply length_remove_dups_NoDup.
Qed.
End export_runs.

Section export_examples.
Import Exporter ExporterAux ExportRuns.

Lemma CSV_export_file_witness :
  let run := ExportData no_float no_json broken_world (export_config "csv") in
  ∃ written : list Row,
    (Ok <$> written) `prefix_of` cur_rows broken_cursor ∧
    run_count run = Z.of_nat (length written) ∧
    run_file run = Some (Bytes (header_line "," ["id"; "name"]
                      ++ concat (csv_record no_float "," <$> written))) ∧
    (run_err run = None ↔
       Ok <$> written = cur_rows broken_cursor ∧ cur_err broken_cursor = None ∧
       ∀ i, (i < length (cur_rows broken_cursor))%nat →
            w_cancelled broken_world i = false).
Proof.
  exact (CSV_export_file no_float no_json broken_world (export_config "csv")
           DB.Postgres broken_cursor ["id"; "name"] ","
           eq_refl eq_refl eq_refl (or_introl (conj eq_refl eq_refl))
           eq_refl eq_refl).
Defined.

Example export_stops_at_bad_row :
  let run := ExportData no_float no_json broken_world (export_config "csv") in
  run_count run = 2 ∧
  run_file run = Some (Bytes (bytes_of_string
    ("id,name" +:+ String GoCSV.NL "" +:+ "1,ann" +:+ String GoCSV.NL ""
       +:+ "2," +:+ String GoCSV.NL ""))) ∧
  run_err run = Some "failed to scan row: bad value".
Proof. by vm_compute. Qed.

Lemma row_object_columns_witness :
  row_object id join_columns 0 join_row ∅ !! "id" = Some (VInt 7) ∧
  size (row_object id join_columns 0 join_row ∅) = 2%nat.
Proof.
  destruct (row_object_columns id join_columns join_row) as (Hdom & Hlast & Hsize).
  split.
  - apply (Hlast 2%nat "id" eq_refl). intros j Hj.
    rewrite lookup_ge_None_2; [done|]. simpl. lia.
  - by vm_compute.
Defined.
End export_examples.

(** ** An exported file read back *)

Section file_round_trip.
Import Importer GoCSVAux ExporterAux RoundTripAux ExportRuns.
Context (fmt_float : float64 → string).
Context (json_marshal : gmap string Value → Result bytes).

Lemma csv_export_all (cancelled : nat → bool) (rows : list Row) (n : nat)
    (st : Exporter.CSVOpen) :
  GoCSV.validDelim (Exporter.csv_comma st) = true →
  Exporter.csv_write_err st = None →
  (∀ i, cancelled i = false) →
  Exporter.export_loop (H := Exporter.any_exporter fmt_float json_marshal)
    cancelled (Ok <$> rows) None n (Exporter.OpenCSV st)
  = {| Exporter.run_err := None;
       Exporter.run_count := Z.of_nat (n + length rows);
       Exporter.run_file :=
         Some (Exporter.Bytes
                 (Exporter.csv_file st ++ Exporter.csv_buf st
                  ++ concat (csv_record fmt_float (Exporter.csv_comma st) <$> rows))) |}.
Proof.
  intros Hd Hw Hc. revert n st Hd Hw.
  induction rows as [|row rows IH]; intros n st Hd Hw.
  - destruct (CSVFlush_file st Hw) as [Hf Hcl].
    cbn. rewrite Hf. cbn. by rewrite Hcl, Nat.add_0_r, app_nil_r.
  - rewrite fmap_cons. cbn [Exporter.export_loop]. rewrite Hc.
    cbn [Exporter.WriteRow Exporter.any_exporter Exporter.lift Exporter.csv_exporter].
    unfold Exporter.CSVWriteRow, Exporter.csv_write, GoCSV.Write.
    rewrite Hd. cbn [negb fst snd].
    rewrite IH by done. cbn [Exporter.csv_comma Exporter.csv_buf Exporter.csv_file].
    f_equal.
    + f_equal. cbn [length]. lia.
    + unfold csv_record. cbn [fmap list_fmap concat]. by rewrite <- !app_assoc.
Qed.

Lemma record_bytes (record : list string) (t : string) (ts : list string) :
  record = t :: ts → readable record →
  GoCSV.writeFields "," 0 (Exporter.bytes_of_string <$> record) ++ [GoCSV.NL]
  = GoCSV.writeField "," (Exporter.bytes_of_string t)
    ++ wtail "," (Exporter.bytes_of_string <$> ts) ∧
  (Exporter.bytes_of_string t = [] → Exporter.bytes_of_string <$> ts ≠ []) ∧
  Forall (λ f, has_crlf f = false)
    (Exporter.bytes_of_string t :: (Exporter.bytes_of_string <$> ts)) ∧
  Importer.string_of_bytes
    <$> (Exporter.bytes_of_string t :: (Exporter.bytes_of_string <$> ts)) = record.
Proof.
  intros -> [Hne Hcr]. split_and!.
  - pose proof (Write_record "," plain_comma (Exporter.bytes_of_string t)
                  (Exporter.bytes_of_string <$> ts)) as Hwr.
    unfold GoCSV.Write in Hwr. simpl in Hwr. by injection Hwr.
  - intros Hf. apply bytes_of_string_nil in Hf as ->. by destruct ts.
  - change (Forall (λ f, has_crlf f = false) (Exporter.bytes_of_string <$> t :: ts)).
    apply Forall_fmap. eapply Forall_impl; [exact Hcr|]. done.
  - change ((Importer.string_of_bytes <$> (Exporter.bytes_of_string <$> t :: ts))
            = t :: ts).
    rewrite <- list_fmap_compose. rewrite <- (list_fmap_id (t :: ts)) at 2.
    apply list_fmap_ext. intros i x _. simpl.
    apply String.string_of_list_ascii_of_string.
Qed.

Lemma csv_reads_back (width : nat) (rows : list Row) (st : Importer.CSVOpen) :
  Importer.csv_comma st = ","%char →
  GoCSV.src (Importer.csv_reader st) = concat (csv_record fmt_float "," <$> rows) →
  GoCSV.src_err (Importer.csv_reader st) = None →
  GoCSV.FieldsPerRecord (Importer.csv_reader st) = Z.of_nat width →
  (1 ≤ width)%nat →
  Forall (λ row, length row = width ∧ readable (texts fmt_float row)) rows →
  ∃ st', Importer.yields st ((λ row, VString <$> texts fmt_float row) <$> rows)
           "EOF" st'.
Proof.
  intros Hc Hsrc Herr Hfpr Hw Hrows. revert st Hc Hsrc Herr Hfpr.
  induction Hrows as [|row rows [Hlen Hrd] _ IH]; intros st Hc Hsrc Herr Hfpr.
  - exists (Importer.NextRow st).2. apply Importer.yields_stop.
    pose proof (CSV_exhausted st) as Hex. rewrite Hc in Hex.
    specialize (Hex eq_refl Hsrc Herr).
    destruct (Importer.NextRow st) as [res st']. simpl in *. by subst.
  - destruct (texts fmt_float row) as [|t ts] eqn:Ht.
    { unfold texts in Ht. apply (f_equal length) in Ht.
      rewrite length_fmap in Ht. simpl in Ht. lia. }
    assert (length (t :: ts) = width) as Hlt.
    { rewrite <- Ht. unfold texts. by rewrite length_fmap. }
    destruct (record_bytes (t :: ts) t ts eq_refl Hrd) as (Hb & Hne & Hcr & Hback).
    rewrite fmap_cons in Hsrc. cbn [concat] in Hsrc.
    unfold csv_record at 1 in Hsrc. fold (texts fmt_float row) in Hsrc.
    rewrite Ht, Hb in Hsrc.
    destruct (Read_written "," plain_comma
                (concat (csv_record fmt_float "," <$> rows))
                (Importer.csv_reader st) (Exporter.bytes_of_string t)
                (Exporter.bytes_of_string <$> ts) Hne Hcr Hsrc)
      as (r' & Hread & Hsrc' & Hfpr' & Herr').
    { right. rewrite Hfpr. f_equal. rewrite <- Hlt. cbn [length].
      by rewrite length_fmap. }
    destruct (IH {| Importer.csv_comma := ","; Importer.csv_reader := r';
                    Importer.csv_columns := Importer.csv_columns st |})
      as [st' Hy]; cbn; [done|done|by rewrite Herr'|..].
    { rewrite Hfpr'. f_equal. rewrite <- Hlt. cbn [length]. by rewrite length_fmap. }
    exists st'. eapply Importer.yields_row; [|exact Hy].
    cbn. unfold Importer.CSVNextRow. rewrite Hc, Hread. do 2 f_equal.
    rewrite Ht, <- Hback. by rewrite <- list_fmap_compose.
Qed.

(** X18 (an exported CSV file read back).  Take a table with at least one
    column whose rows all scan, each with one value for each column, and
    let the header and the textual forms of every row be readable: not a
    lone empty field, and no carriage return followed at once by a line
    feed.  When nothing fails and nobody cancels, the export to csv returns
    no error and counts every row, and the file it leaves is one the CSV
    importer opens with the columns of the table and then reads, row by
    row and in order, as the textual forms of the rows, every value as
    text, up to [EOF]. *)
Theorem csv_export_import_round_trip (w : Exporter.World) (config : Exporter.Config)
    (connector : DB.Dialect) (columns : list string) (rows : list Row) :
  DB.NewConnector (Exporter.w_ping w) (Exporter.DSN config) = Ok connector →
  Exporter.w_query w connector (Exporter.Query config) = Ok (table_cursor columns rows) →
  (∀ i, Exporter.w_cancelled w i = false) →
  Exporter.OutputFormat config = "csv" →
  Exporter.create_err (Exporter.w_disk w) (Exporter.OutputFile config) = None →
  Exporter.write_err (Exporter.w_disk w) (Exporter.OutputFile config) = None →
  columns ≠ [] → readable columns →
  Forall (λ row, length row = length columns ∧ readable (texts fmt_float row)) rows →
  ∃ content st st',
    Exporter.ExportData fmt_float json_marshal w config
    = {| Exporter.run_err := None;
         Exporter.run_count := Z.of_nat (length rows);
         Exporter.run_file := Some (Exporter.Bytes content) |} ∧
    Importer.CSVOpenFile (csv_importer_of content) = Ok (columns, st) ∧
    Importer.yields st ((λ row, VString <$> texts fmt_float row) <$> rows) "EOF" st'.
Proof.
  intros Hconn Hquery Hcancel Hfmt Hcreate Hwrite Hne Hrd Hrows.
  destruct columns as [|t ts] eqn:Hcols; [done|]. rewrite <- Hcols in *.
  destruct (record_bytes columns t ts Hcols Hrd) as (Hb & Hnil & Hcr & Hback).
  set (body := concat (csv_record fmt_float "," <$> rows)).
  destruct (Read_written "," plain_comma body
              (GoCSV.NewReader (header_line "," columns ++ body) None)
              (Exporter.bytes_of_string t) (Exporter.bytes_of_string <$> ts) Hnil Hcr)
    as (r' & Hread & Hsrc' & Hfpr' & Herr').
  { cbn. unfold header_line. by rewrite Hb. }
  { by left. }
  destruct (csv_reads_back (length columns) rows
              {| Importer.csv_comma := ","; Importer.csv_reader := r';
                 Importer.csv_columns := columns |}) as [st' Hy]; cbn; try done.
  { rewrite Hfpr'. f_equal. rewrite Hcols. cbn [length]. by rewrite length_fmap. }
  { rewrite Hcols. cbn [length]. lia. }
  exists (header_line "," columns ++ body),
    {| Importer.csv_comma := ","; Importer.csv_reader := r';
       Importer.csv_columns := columns |}, st'.
  split_and!; [| |exact Hy].
  - unfold Exporter.ExportData. rewrite Hconn, Hquery. cbn [Exporter.cur_columns table_cursor].
    unfold Exporter.select_exporter. rewrite Hfmt. simpl.
    unfold Exporter.CSVOpenFile, Exporter.csv_write, GoCSV.Write. simpl.
    rewrite Hcreate, Hwrite. simpl.
    rewrite (csv_export_all _ rows 0) by done. simpl. done.
  - unfold Importer.CSVOpenFile, csv_importer_of, Importer.csv_open_file. cbn.
    rewrite Hread. by rewrite Hback.
Qed.
End file_round_trip.

Section file_round_trip_examples.
Import Importer GoCSVAux ExporterAux RoundTripAux ExportRuns.

Lemma csv_export_import_round_trip_witness :
  ∃ content st st',
    Exporter.ExportData no_float no_json (table_world ["id"; "name"] people)
      (export_config "csv")
    = {| Exporter.run_err := None; Exporter.run_count := 3;
         Exporter.run_file := Some (Exporter.Bytes content) |} ∧
    Importer.CSVOpenFile (csv_importer_of content) = Ok (["id"; "name"], st) ∧
    Importer.yields st
      [[VString "1"; VString "ann, b."]; [VString "2"; VString ""];
       [VString ""; VString "true"]] "EOF" st'.
Proof.
  apply (csv_export_import_round_trip no_float no_json
           (table_world ["id"; "name"] people) (export_config "csv") DB.Postgres
           ["id"; "name"] people); try done.
  - split; [done|]. by repeat constructor.
  - repeat constructor; done.
Defined.
End file_round_trip_examples.
